(** * pack_maskmap: channel packing for Unity URP/HDRP mask maps

    A shallow embedding of [tools/pack_maskmap.py] and the properties of
    its pipeline: read grayscale inputs, normalise their resolution,
    resolve the smoothness channel, compose RGBA, write a PNG.

    The program sits on two libraries, which are modelled first:
    - [OS]: the part of [os] and [os.path] the script calls, over a file
      system given as a finite map from path strings to nodes;
    - [Image]: the part of Pillow the script calls.  Constant images,
      point-wise evaluation and band merging are written out; mode
      conversion and bicubic resampling are an interface ([Imaging]) with
      the laws Pillow guarantees about mode, size and sample range.

    The functions of the script follow, under their own names.  A run
    starts from the namespace [parse_args] returns ([argparse] itself is
    not modelled) and a file system; [--default-smoothness] is a binary64
    float, and [round(clamp01(x) * 255)] is computed on it exactly.  The
    summary [main] prints goes to standard output, which is not part of
    the state. *)

From Stdlib Require Import ZArith String Ascii List Bool Lia.
From Stdlib Require Import PrimFloat FloatOps SpecFloat FloatAxioms.
From stdpp Require Import base option list gmap strings.
From stdpp Require Import pretty.

Local Open Scope string_scope.
Local Open Scope Z_scope.

(** ** Exceptions and results *)

(** The exceptions that can leave the script.  Those raised by the
    operating system carry the offending file name, the one the script
    raises itself carries its message. *)
Inductive exn : Type :=
| FileNotFoundError (msg : string)
| FileExistsError (filename : string)
| IsADirectoryError (filename : string)
| NotADirectoryError (filename : string)
| UnidentifiedImageError (filename : string)
| ValueError (msg : string)
| OverflowError (msg : string)
| OSError (msg : string)
| RecursionError.

(** [Res A]: a computation that only inspects the world, and may raise. *)
Inductive Res (A : Type) : Type :=
| Ok (a : A)
| Raise (e : exn).
Arguments Ok {A} a.
Arguments Raise {A} e.

Definition res_bind {A B} (r : Res A) (k : A -> Res B) : Res B :=
  match r with
  | Ok a => k a
  | Raise e => Raise e
  end.

(** Python's [OSError] hierarchy, for [except OSError]. *)
Definition is_OSError (e : exn) : bool :=
  match e with
  | FileNotFoundError _ | FileExistsError _
  | IsADirectoryError _ | NotADirectoryError _ | OSError _ => true
  | _ => false
  end.

Definition is_FileExistsError (e : exn) : bool :=
  match e with
  | FileExistsError _ => true
  | _ => false
  end.

(** ** Pillow images *)

Module Image.

(** An image: its mode string (["L"], ["RGBA"], ...), its size
    (width, height) and one plane of samples per band, row-major. *)
Record t : Type := mk {
  mode : string;
  size : Z * Z;
  bands : list (list Z)
}.

Definition width (im : t) : Z := fst (size im).
Definition height (im : t) : Z := snd (size im).

(** Number of samples of one plane. *)
Definition area (sz : Z * Z) : nat := Z.to_nat (fst sz * snd sz).

(** [ImageMode.getmode(mode).bands] for the modes the script meets;
    other modes are listed with one band. *)
Definition getmodebands (m : string) : nat :=
  if String.eqb m "L" then 1
  else if String.eqb m "LA" then 2
  else if String.eqb m "RGB" then 3
  else if String.eqb m "RGBA" then 4
  else 1.

(** An 8-bit sample. *)
Definition is_uint8 (v : Z) : Prop := 0 <= v <= 255.

(** Saturation to 8 bits, Pillow's [CLIP8]. *)
Definition clip8 (v : Z) : Z := Z.max 0 (Z.min 255 v).

(** A well-formed 8-bit raster: as many planes as the mode has bands,
    every plane of [width * height] samples, every sample in
    [0, 255]. *)
Definition valid (im : t) : Prop :=
  length (bands im) = getmodebands (mode im) /\
  Forall (fun p => length p = area (size im) /\ Forall is_uint8 p) (bands im).

(** [Image.new(mode, size, color)] with an integer colour: every band
    is filled with the colour, saturated to 8 bits.  A negative
    dimension is refused. *)
Definition solid (m : string) (sz : Z * Z) (color : Z) : t :=
  mk m sz (replicate (getmodebands m) (replicate (area sz) (clip8 color))).

Definition new (m : string) (sz : Z * Z) (color : Z) : Res t :=
  if (fst sz <? 0) || (snd sz <? 0) then
    Raise (ValueError "Width and height must be >= 0")
  else Ok (solid m sz color).

(** [Image.eval(image, f)]: [f] is tabulated once over [range(256)]
    and the table is applied to every sample ([Image.point]). *)
Definition lut (f : Z -> Z) : list Z :=
  map (fun i => clip8 (f (Z.of_nat i))) (seq 0 256).

Definition point (table : list Z) (v : Z) : Z :=
  nth (Z.to_nat v) table 0.

Definition eval (im : t) (f : Z -> Z) : t :=
  mk (mode im) (size im) (map (map (point (lut f))) (bands im)).

(** The first (and, for a single-band image, only) plane. *)
Definition plane (im : t) : list Z := nth 0 (bands im) [].

(** [Image.merge(mode, bands)]: the bands must be as many as the mode
    has, each a single-band ["L"] image, all of the first one's size. *)
Definition merge (m : string) (bs : list t) : Res t :=
  if negb (Nat.eqb (getmodebands m) (length bs)) then
    Raise (ValueError "wrong number of bands")
  else if negb (forallb (fun b => String.eqb (mode b) "L") bs) then
    Raise (ValueError "mode mismatch")
  else
    match bs with
    | [] => Raise (ValueError "wrong number of bands")
    | b0 :: _ =>
        if negb (forallb (fun b => bool_decide (size b = size b0)) bs) then
          Raise (ValueError "size mismatch")
        else Ok (mk m (size b0) (map plane bs))
    end.

(** The sample of band [c] at column [x], row [y]. *)
Definition getpixel (im : t) (c : nat) (x y : Z) : Z :=
  nth (Z.to_nat (y * width im + x)) (nth c (bands im) []) 0.

End Image.

(** Mode conversion and resampling are Pillow's own algorithms; the
    script relies on what they guarantee: the result is a well-formed
    8-bit raster of the requested mode (resp. size), and converting an
    image to the mode it already has copies it.  [resize] stands for
    [resize(size, resample=Image.BICUBIC)]; the script calls it with the
    size of a decoded image or 1024x1024 only, both positive. *)
Class Imaging : Type := {
  convert : Image.t -> string -> Image.t;
  resize : Image.t -> Z * Z -> Image.t;
  convert_mode : forall im m, Image.mode (convert im m) = m;
  convert_size : forall im m, Image.size (convert im m) = Image.size im;
  convert_valid : forall im m, Image.valid im -> Image.valid (convert im m);
  convert_same : forall im, convert im (Image.mode im) = im;
  resize_mode : forall im sz, Image.mode (resize im sz) = Image.mode im;
  resize_size : forall im sz, Image.size (resize im sz) = sz;
  resize_valid : forall im sz, Image.valid im -> Image.valid (resize im sz)
}.

(** ** The file system and [os] *)

Module OS.

(** What a regular file holds: encoded image data, given by the raster
    it encodes (PNG and the other containers Pillow reads are taken as
    lossless), or anything else. *)
Inductive content : Type :=
| ImageData (im : Image.t)
| OtherData.

Inductive node : Type :=
| Dir
| File (c : content).

(** The file system: path strings to nodes.  Paths are taken
    literally, relative ones against a fixed working directory; there
    are no links and no permissions.  The empty path names nothing and
    a path made of slashes only names the root directory. *)
Abbreviation fs := (gmap string node).

Definition sep : ascii := "/"%char.

(** [p.rstrip("/")] *)
Fixpoint rstrip (p : string) : string :=
  match p with
  | EmptyString => EmptyString
  | String c p' =>
      match rstrip p' with
      | EmptyString => if Ascii.eqb c sep then EmptyString else String c EmptyString
      | r => String c r
      end
  end.

(** [(p[:i], p[i:])] for [i = p.rfind("/") + 1]. *)
Fixpoint rpartition (p : string) : string * string :=
  match p with
  | EmptyString => (EmptyString, EmptyString)
  | String c p' =>
      match rpartition p' with
      | (EmptyString, t) =>
          if Ascii.eqb c sep then (String c EmptyString, t)
          else (EmptyString, String c t)
      | (h, t) => (String c h, t)
      end
  end.

(** [head.rstrip("/")] unless [head] is empty or slashes only. *)
Definition strip_head (head : string) : string :=
  match rstrip head with
  | EmptyString => head
  | r => r
  end.

(** [posixpath.split] *)
Definition split (p : string) : string * string :=
  let '(head, tail) := rpartition p in (strip_head head, tail).

(** [posixpath.dirname] *)
Definition dirname (p : string) : string := fst (split p).

Definition is_root (p : string) : bool :=
  negb (String.eqb p "") && String.eqb (rstrip p) "".

Definition ends_with_sep (p : string) : bool :=
  negb (String.eqb p "") && String.eqb (snd (rpartition p)) "".

(** Path resolution. *)
Definition lookup (w : fs) (p : string) : option node :=
  if String.eqb p "" then None
  else if is_root p then Some Dir
  else w !! p.

(** [os.path.exists], [os.path.isdir], [os.path.isfile] *)
Definition exists_ (w : fs) (p : string) : bool :=
  match lookup w p with Some _ => true | None => false end.

Definition isdir (w : fs) (p : string) : bool :=
  match lookup w p with Some Dir => true | _ => false end.

Definition isfile (w : fs) (p : string) : bool :=
  match lookup w p with Some (File _) => true | _ => false end.

(** The directory an entry [p] is created in must be there: the
    working directory when [p] has no directory part. *)
Definition check_parent (w : fs) (p : string) : Res unit :=
  let d := dirname p in
  if String.eqb d "" then Ok tt
  else match lookup w d with
       | Some Dir => Ok tt
       | Some (File _) => Raise (NotADirectoryError p)
       | None => Raise (FileNotFoundError p)
       end.

End OS.

(** ** Computations on the file system *)

(** [M A]: a computation that may change the file system and may raise;
    the file system it leaves is returned in both cases. *)
Definition M (A : Type) : Type := OS.fs -> Res A * OS.fs.

Definition ret {A} (a : A) : M A := fun w => (Ok a, w).
Definition raise {A} (e : exn) : M A := fun w => (Raise e, w).
Definition bind {A B} (m : M A) (k : A -> M B) : M B :=
  fun w => match m w with
           | (Ok a, w') => k a w'
           | (Raise e, w') => (Raise e, w')
           end.
(** A computation that reads the file system only. *)
Definition inspect {A} (r : OS.fs -> Res A) : M A := fun w => (r w, w).
(** [try: m  except <handles>: h e] *)
Definition try_except {A} (m : M A) (handles : exn -> bool) (h : exn -> M A) : M A :=
  fun w => match m w with
           | (Raise e, w') => if handles e then h e w' else (Raise e, w')
           | r => r
           end.

Notation "x <- m ;; k" := (bind m (fun x => k))
  (at level 100, m at next level, right associativity).
Notation "x <~ r ;; k" := (res_bind r (fun x => k))
  (at level 100, r at next level, right associativity).

Module OSOps.
Import OS.

(** [os.mkdir(name)] *)
Definition mkdir (name : string) : M unit := fun w =>
  if String.eqb name "" then (Raise (FileNotFoundError name), w)
  else match lookup w name with
       | Some _ => (Raise (FileExistsError name), w)
       | None =>
           match check_parent w name with
           | Ok _ => (Ok tt, <[name := Dir]> w)
           | Raise e => (Raise e, w)
           end
       end.

(** The last step of [os.makedirs]: [mkdir(name)], an [OSError] being
    forgiven when [exist_ok] is set and [name] is a directory. *)
Definition mkdir_leaf (name : string) (exist_ok : bool) : M unit :=
  try_except (mkdir name) is_OSError
    (fun e => fun w =>
       if negb exist_ok || negb (isdir w name) then (Raise e, w)
       else (Ok tt, w)).

(** [os.makedirs(name, exist_ok=...)], as in CPython's [os.py]: the
    missing ancestors first, by recursion on the head of the path, then
    the leaf.  The recursion is bounded by [fuel]; a path of [n]
    characters needs less than [n + 1] levels. *)
Fixpoint makedirs_rec (fuel : nat) (name : string) (exist_ok : bool) : M unit :=
  match fuel with
  | O => raise RecursionError
  | S fuel' =>
      let '(head0, tail0) := split name in
      let '(head, tail) :=
        if String.eqb tail0 "" then split head0 else (head0, tail0) in
      fun w =>
        if negb (String.eqb head "") && negb (String.eqb tail "")
           && negb (exists_ w head)
        then
          (_ <- try_except (makedirs_rec fuel' head exist_ok)
                  is_FileExistsError (fun _ => ret tt) ;;
           if String.eqb tail "." then ret tt else mkdir_leaf name exist_ok) w
        else mkdir_leaf name exist_ok w
  end.

Definition makedirs (name : string) (exist_ok : bool) : M unit :=
  makedirs_rec (S (String.length name)) name exist_ok.

End OSOps.

(** ** Image files *)

Module ImageFile.
Import OS.

(** Decidable form of [Image.valid]. *)
Definition validb (im : Image.t) : bool :=
  Nat.eqb (length (Image.bands im)) (Image.getmodebands (Image.mode im))
  && forallb (fun p => Nat.eqb (length p) (Image.area (Image.size im))
                       && forallb (fun v => (0 <=? v) && (v <=? 255)) p)
       (Image.bands im).

(** What decodes: a well-formed raster of at least one pixel. *)
Definition decodable (im : Image.t) : bool :=
  validb im && (0 <? Image.width im) && (0 <? Image.height im).

(** [Image.open(path)] *)
Definition open (w : fs) (path : string) : Res Image.t :=
  match lookup w path with
  | None => Raise (FileNotFoundError path)
  | Some Dir => Raise (IsADirectoryError path)
  | Some (File OtherData) => Raise (UnidentifiedImageError path)
  | Some (File (ImageData im)) =>
      if decodable im then Ok im else Raise (UnidentifiedImageError path)
  end.

(** The modes the PNG writer takes. *)
Definition png_mode (m : string) : bool :=
  existsb (String.eqb m) ["1"; "L"; "LA"; "I"; "P"; "RGB"; "RGBA"].

(** [im.save(path, format="PNG", ...)]: the file is opened for writing,
    which creates or truncates it, then the raster is encoded.  When
    the encoder refuses the mode, a file the call created is removed
    again and one that was there stays truncated. *)
Definition save (im : Image.t) (path : string) : M unit := fun w =>
  if String.eqb path "" then (Raise (FileNotFoundError path), w)
  else if ends_with_sep path || isdir w path then
    (Raise (IsADirectoryError path), w)
  else
    match check_parent w path with
    | Raise e => (Raise e, w)
    | Ok _ =>
        if png_mode (Image.mode im) then
          (Ok tt, <[path := File (ImageData im)]> w)
        else
          (Raise (OSError "cannot write mode as PNG"),
           if exists_ w path then <[path := File OtherData]> w else w)
    end.

End ImageFile.

(** ** Python floats *)

(** [min(a, b)] and [max(a, b)] keep their first argument unless the
    second compares strictly below (above) it; a NaN never does. *)
Definition py_min (a b : float) : float := if PrimFloat.ltb b a then b else a.
Definition py_max (a b : float) : float := if PrimFloat.ltb a b then b else a.

(** The integer nearest to [m * 2^e], ties to the even one. *)
Definition round_half_even (m e : Z) : Z :=
  if 0 <=? e then m * 2 ^ e
  else
    let d := 2 ^ (- e) in
    let q := m / d in
    let r := m mod d in
    match 2 * r ?= d with
    | Lt => q
    | Gt => q + 1
    | Eq => if Z.even q then q else q + 1
    end.

(** [round(x)] on a float: exact, ties to even; NaN and the infinities
    have no integer. *)
Definition py_round (x : float) : Res Z :=
  match Prim2SF x with
  | S754_zero _ => Ok 0
  | S754_finite s m e =>
      let n := round_half_even (Zpos m) e in Ok (if s then - n else n)
  | S754_infinity _ => Raise (OverflowError "cannot convert float infinity to integer")
  | S754_nan => Raise (ValueError "cannot convert float NaN to integer")
  end.

(** Truth value of an [Optional[str]]: [None] and [""] are false. *)
Definition truthy (p : option string) : bool :=
  match p with
  | Some s => negb (String.eqb s "")
  | None => false
  end.

(** ** The parsed command line *)

(** The three sub-commands of [build_parser]. *)
Inductive Mode : Type := UrpTerrain | Hdrp | UrpRa.

(** The channel attributes a namespace may carry. *)
Inductive Attr : Type :=
| Metallic | Occlusion | Height | Detail | Smoothness | Roughness.

(** The [argparse.Namespace] a run starts from.  A path option is
    [None] when its flag was not given ([default=None]) and [Some s] when
    it was given with the string [s], which may be empty.  Which
    attributes exist depends on the sub-command ([hasattr]); a field of
    an attribute the sub-command does not define is never looked at. *)
Record Namespace : Type := {
  mode : Mode;
  metallic : option string;
  occlusion : option string;
  height : option string;
  detail : option string;
  smoothness : option string;
  roughness : option string;
  invert_roughness : bool;
  default_smoothness : float;
  out : string
}.

(** [hasattr(args, attr)], by the options [add_common_inputs] and
    [add_smoothness_inputs] give each sub-parser. *)
Definition hasattr (args : Namespace) (a : Attr) : bool :=
  match a, mode args with
  | Metallic, _ | Smoothness, _ | Roughness, _ => true
  | Occlusion, (UrpTerrain | Hdrp) => true
  | Height, UrpTerrain => true
  | Detail, Hdrp => true
  | _, _ => false
  end.

Definition field (args : Namespace) (a : Attr) : option string :=
  match a with
  | Metallic => metallic args
  | Occlusion => occlusion args
  | Height => height args
  | Detail => detail args
  | Smoothness => smoothness args
  | Roughness => roughness args
  end.

(** [getattr(args, attr, None)] *)
Definition getattr (args : Namespace) (a : Attr) : option string :=
  if hasattr args a then field args a else None.

(** ** The script *)

Section Script.
Context {PIL : Imaging}.
Import OS.

Definition read_grayscale (w : fs) (path : option string)
    (fallback_value : Z) (target_size : option (Z * Z)) : Res Image.t :=
  match path with
  | None =>
      let target_size :=
        match target_size with
        | None => (1024, 1024)
        | Some sz => sz
        end in
      Image.new "L" target_size fallback_value
  | Some path =>
      if negb (isfile w path) then
        Raise (FileNotFoundError ("Input image not found: " ++ path))
      else
        img <~ ImageFile.open w path ;;
        let img :=
          if negb (existsb (String.eqb (Image.mode img)) ["L"; "LA"; "RGB"; "RGBA"])
          then convert img "RGBA" else img in
        let img_l := convert img "L" in
        match target_size with
        | Some sz =>
            if negb (Image.width img_l =? fst sz) || negb (Image.height img_l =? snd sz)
            then Ok (resize img_l sz)
            else Ok img_l
        | None => Ok img_l
        end
  end.

Fixpoint determine_target_size (w : fs) (paths : list string) : Res (Z * Z) :=
  match paths with
  | [] => Ok (1024, 1024)
  | p :: paths' =>
      if negb (String.eqb p "") && isfile w p then
        im <~ ImageFile.open w p ;;
        Ok (Image.width im, Image.height im)
      else determine_target_size w paths'
  end.

Definition ensure_uint8 (image_l : Image.t) : Image.t :=
  if negb (String.eqb (Image.mode image_l) "L") then convert image_l "L"
  else image_l.

Definition invert_l (image_l : Image.t) : Image.t :=
  Image.eval (ensure_uint8 image_l) (fun v => 255 - v).

Definition compose_rgba (r g b a : Image.t) : Res Image.t :=
  let r8 := ensure_uint8 r in
  let g8 := ensure_uint8 g in
  let b8 := ensure_uint8 b in
  let a8 := ensure_uint8 a in
  Image.merge "RGBA" [r8; g8; b8; a8].

Definition save_png (img : Image.t) (out_path : string) : M unit :=
  _ <- OSOps.makedirs (dirname out_path) true ;;
  ImageFile.save img out_path.

Definition clamp01 (value : float) : float :=
  py_max 0%float (py_min 1%float value).

(** [int(round(clamp01(args.default_smoothness) * 255))] *)
Definition default_val (args : Namespace) : Res Z :=
  py_round (clamp01 (default_smoothness args) * 255)%float.

Definition resolve_smoothness (w : fs) (args : Namespace)
    (target_size : Z * Z) : Res Image.t :=
  if truthy (getattr args Smoothness) then
    fallback_value <~ default_val args ;;
    read_grayscale w (smoothness args) fallback_value (Some target_size)
  else if truthy (getattr args Roughness) then
    rough_l <~ read_grayscale w (roughness args) 0 (Some target_size) ;;
    if invert_roughness args then Ok (invert_l rough_l)
    else Ok rough_l
  else
    value <~ default_val args ;;
    Image.new "L" target_size value.

(** The paths the target size is looked for in: the attributes the
    namespace has, in the loop's order, when given and not empty. *)
Definition candidate_paths (args : Namespace) : list string :=
  fold_left
    (fun acc attr =>
       if hasattr args attr then
         match field args attr with
         | Some p => if negb (String.eqb p "") then (acc ++ [p])%list else acc
         | None => acc
         end
       else acc)
    [Metallic; Occlusion; Height; Detail; Smoothness; Roughness] [].

(** [main], after [parse_args].  Each branch ends in [print_summary],
    which only writes to standard output and is left out; the value is
    the exit code [main] returns. *)
Definition main (args : Namespace) : M Z :=
  target_size <- inspect (fun w => determine_target_size w (candidate_paths args)) ;;
  match mode args with
  | UrpRa =>
      metallic_l <- inspect (fun w => read_grayscale w (metallic args) 0 (Some target_size)) ;;
      smooth_l <- inspect (fun w => resolve_smoothness w args target_size) ;;
      g_ignored <- inspect (fun _ => Image.new "L" target_size 0) ;;
      b_ignored <- inspect (fun _ => Image.new "L" target_size 0) ;;
      out_img <- inspect (fun _ => compose_rgba metallic_l g_ignored b_ignored smooth_l) ;;
      _ <- save_png out_img (out args) ;;
      ret 0
  | UrpTerrain =>
      metallic_l <- inspect (fun w => read_grayscale w (metallic args) 0 (Some target_size)) ;;
      ao_l <- inspect (fun w => read_grayscale w (occlusion args) 255 (Some target_size)) ;;
      height_l <- inspect (fun w => read_grayscale w (getattr args Height) 128 (Some target_size)) ;;
      smooth_l <- inspect (fun w => resolve_smoothness w args target_size) ;;
      out_img <- inspect (fun _ => compose_rgba metallic_l ao_l height_l smooth_l) ;;
      _ <- save_png out_img (out args) ;;
      ret 0
  | Hdrp =>
      metallic_l <- inspect (fun w => read_grayscale w (metallic args) 0 (Some target_size)) ;;
      ao_l <- inspect (fun w => read_grayscale w (occlusion args) 255 (Some target_size)) ;;
      detail_l <- inspect (fun w => read_grayscale w (getattr args Detail) 255 (Some target_size)) ;;
      smooth_l <- inspect (fun w => resolve_smoothness w args target_size) ;;
      out_img <- inspect (fun _ => compose_rgba metallic_l ao_l detail_l smooth_l) ;;
      _ <- save_png out_img (out args) ;;
      ret 0
  end.

(** *** The run, taken apart

    [main] is one straight line per mode; the properties below speak of
    its stages, named here: the four rasters handed to [compose_rgba],
    and the composed image handed to [save_png]. *)

(** What [read_grayscale] makes of a decoded file: the single-band
    image, and that image at the target size. *)
Definition to_gray (img : Image.t) : Image.t :=
  convert
    (if negb (existsb (String.eqb (Image.mode img)) ["L"; "LA"; "RGB"; "RGBA"])
     then convert img "RGBA" else img)
    "L".

Definition fit (img_l : Image.t) (sz : Z * Z) : Image.t :=
  if negb (Image.width img_l =? fst sz) || negb (Image.height img_l =? snd sz)
  then resize img_l sz else img_l.

(** A channel fit for composition at size [sz]: a well-formed
    single-band raster of exactly that size. *)
Definition channel_ok (sz : Z * Z) (im : Image.t) : Prop :=
  Image.mode im = "L" /\ Image.size im = sz /\ Image.valid im.

Definition channels (w : fs) (args : Namespace) (target_size : Z * Z)
    : Res (Image.t * Image.t * Image.t * Image.t) :=
  match mode args with
  | UrpRa =>
      metallic_l <~ read_grayscale w (metallic args) 0 (Some target_size) ;;
      smooth_l <~ resolve_smoothness w args target_size ;;
      g_ignored <~ Image.new "L" target_size 0 ;;
      b_ignored <~ Image.new "L" target_size 0 ;;
      Ok (metallic_l, g_ignored, b_ignored, smooth_l)
  | UrpTerrain =>
      metallic_l <~ read_grayscale w (metallic args) 0 (Some target_size) ;;
      ao_l <~ read_grayscale w (occlusion args) 255 (Some target_size) ;;
      height_l <~ read_grayscale w (getattr args Height) 128 (Some target_size) ;;
      smooth_l <~ resolve_smoothness w args target_size ;;
      Ok (metallic_l, ao_l, height_l, smooth_l)
  | Hdrp =>
      metallic_l <~ read_grayscale w (metallic args) 0 (Some target_size) ;;
      ao_l <~ read_grayscale w (occlusion args) 255 (Some target_size) ;;
      detail_l <~ read_grayscale w (getattr args Detail) 255 (Some target_size) ;;
      smooth_l <~ resolve_smoothness w args target_size ;;
      Ok (metallic_l, ao_l, detail_l, smooth_l)
  end.

Definition packed_image (w : fs) (args : Namespace) : Res Image.t :=
  target_size <~ determine_target_size w (candidate_paths args) ;;
  chans <~ channels w args target_size ;;
  let '(r, g, b, a) := chans in
  compose_rgba r g b a.

(** The status the process ends with: [sys.exit(main())], or 1 when an
    exception escapes. *)
Definition exit_status (r : Res Z) : Z :=
  match r with
  | Ok code => code
  | Raise _ => 1
  end.

End Script.

(** ** Notions the specification uses *)

(** The channel paths given on the command line, in the attribute order
    metallic, occlusion, height, detail, smoothness, roughness. *)
Definition supplied_paths (args : Namespace) : list string :=
  omap (getattr args) [Metallic; Occlusion; Height; Detail; Smoothness; Roughness].

(** The fallback constant of the three leading channels, by mode
    (section 4.5 of the specification). *)
Definition fallback_constants (m : Mode) : Z * Z * Z :=
  match m with
  | UrpTerrain => (0, 255, 128)
  | Hdrp => (0, 255, 255)
  | UrpRa => (0, 0, 0)
  end.

(** What [round(clamp(d, 0, 1) * 255)] is for a float [d], said
    without the float operations of the code: an integer from 0 to 255;
    255 when [d] is not below 1.0 (NaN included) and 0 when it is not
    above 0.0; and for [d] strictly between them, of mantissa [m] and
    exponent [e], an integer within [1/2 + 2^-44] of the exact product
    [255 * m * 2^e], the [2^-44] for the rounding of the float
    product. *)
Definition smoothness_level (d : float) (v : Z) : Prop :=
  0 <= v <= 255 /\
  (PrimFloat.ltb d 1 = false -> v = 255) /\
  (PrimFloat.ltb d 1 = true -> PrimFloat.ltb 0 d = false -> v = 0) /\
  (forall m e,
      Prim2SF d = S754_finite false m e -> PrimFloat.ltb d 1 = true ->
      2 * Z.abs (v * 2 ^ (- e) - 255 * Zpos m) <= 2 ^ (- e) + 2 ^ (- e - 43)).

(** The image of four uniform channels. *)
Definition uniform_rgba (sz : Z * Z) (r g b a : Z) : Image.t :=
  Image.mk "RGBA" sz
    [replicate (Image.area sz) r; replicate (Image.area sz) g;
     replicate (Image.area sz) b; replicate (Image.area sz) a].

(** The source the smoothness channel is taken from. *)
Definition smoothness_source (args : Namespace) : option string :=
  if truthy (getattr args Smoothness) then smoothness args
  else if truthy (getattr args Roughness) then roughness args
  else None.

(** The paths a run opens as channels: those of the mode's three leading
    channels when given, and the smoothness source. *)
Definition read_paths (args : Namespace) : list string :=
  omap id
    match mode args with
    | UrpRa => [metallic args; smoothness_source args]
    | UrpTerrain =>
        [metallic args; occlusion args; getattr args Height; smoothness_source args]
    | Hdrp =>
        [metallic args; occlusion args; getattr args Detail; smoothness_source args]
    end.

(** The error [read_grayscale] raises for a path that names no file. *)
Definition not_found (p : string) : exn :=
  FileNotFoundError ("Input image not found: " ++ p).

(** How loading the source [src] of a channel may fail: the path names
    no file, or a file that does not decode. *)
Definition load_error (w : OS.fs) (src : option string) (e : exn) : Prop :=
  (exists q, src = Some q /\ OS.isfile w q = false /\ e = not_found q)
  \/ (exists q, e = UnidentifiedImageError q).

(** How a run may fail on its inputs: one of the paths it reads names
    no file, or an input file does not decode. *)
Definition input_error (w : OS.fs) (args : Namespace) (e : exn) : Prop :=
  (exists q, q ∈ read_paths args /\ OS.isfile w q = false /\ e = not_found q)
  \/ (exists q, e = UnidentifiedImageError q).

(** How loading the source [src] of a channel fails: the path names no
    file, or it names a file that does not decode. *)
Definition load_failure (w : OS.fs) (src : option string) (e : exn) : Prop :=
  exists q,
    src = Some q /\
    ((OS.isfile w q = false /\ e = not_found q)
     \/ (OS.isfile w q = true /\
         ImageFile.open w q = Raise (UnidentifiedImageError q) /\
         e = UnidentifiedImageError q)).

(** The files a run opens: the first supplied path that is a file, for
    the target size, and the paths it reads as channels. *)
Definition opened (w : OS.fs) (args : Namespace) (q : string) : Prop :=
  List.find (OS.isfile w) (supplied_paths args) = Some q
  \/ (q ∈ read_paths args /\ OS.isfile w q = true).

(** How a run fails on its inputs: with the not-found error of a path
    it reads that names no file, or with the decode error of a file it
    opens that does not decode. *)
Definition input_failure (w : OS.fs) (args : Namespace) (e : exn) : Prop :=
  (exists q, q ∈ read_paths args /\ OS.isfile w q = false /\ e = not_found q)
  \/ (exists q,
        opened w args q /\
        ImageFile.open w q = Raise (UnidentifiedImageError q) /\
        e = UnidentifiedImageError q).

(** The namespace with other roughness options. *)
Definition with_roughness (args : Namespace) (r : option string) (inv : bool)
    : Namespace :=
  {| mode := mode args; metallic := metallic args; occlusion := occlusion args;
     height := height args; detail := detail args; smoothness := smoothness args;
     roughness := r; invert_roughness := inv;
     default_smoothness := default_smoothness args; out := out args |}.

(** The namespace with another smoothness option. *)
Definition with_smoothness (args : Namespace) (s : option string) : Namespace :=
  {| mode := mode args; metallic := metallic args; occlusion := occlusion args;
     height := height args; detail := detail args; smoothness := s;
     roughness := roughness args; invert_roughness := invert_roughness args;
     default_smoothness := default_smoothness args; out := out args |}.

(** ** A reference implementation of the imaging interface

    Used to run the script on concrete files: conversion keeps an image
    that already has the mode and otherwise spreads the first band over
    the bands of the new mode; resampling picks the nearest source
    sample.  Both saturate to 8 bits. *)

Module Reference.

Definition sample (plane : list Z) (i : nat) : Z :=
  Image.clip8 (nth i plane 0).

Definition convert (im : Image.t) (m : string) : Image.t :=
  if String.eqb m (Image.mode im) then im
  else
    Image.mk m (Image.size im)
      (replicate (Image.getmodebands m)
         (map (sample (nth 0 (Image.bands im) []))
            (seq 0 (Image.area (Image.size im))))).

(** Index in the source plane of the sample nearest to target index [i]. *)
Definition nearest (src dst : Z * Z) (i : nat) : nat :=
  let x := Z.of_nat i mod fst dst in
  let y := Z.of_nat i / fst dst in
  Z.to_nat ((y * snd src / snd dst) * fst src + x * fst src / fst dst).

Definition resize (im : Image.t) (sz : Z * Z) : Image.t :=
  Image.mk (Image.mode im) sz
    (map (fun plane =>
            map (fun i => sample plane (nearest (Image.size im) sz i))
              (seq 0 (Image.area sz)))
       (Image.bands im)).

End Reference.

(** ** Concrete files and command lines *)

Module Examples.

(** Single-band images of 1x1 and 2x1 samples. *)
Definition gray1 (v : Z) : Image.t := Image.mk "L" (1, 1) [[v]].
Definition gray2 (u v : Z) : Image.t := Image.mk "L" (2, 1) [[u; v]].

(** A directory [tex] with a smoothness map and a roughness map of one
    sample each, a metallic map of two, and a text file. *)
Definition disk : OS.fs :=
  <["tex" := OS.Dir]>
  (<["tex/smooth.png" := OS.File (OS.ImageData (gray1 200))]>
  (<["tex/rough.png" := OS.File (OS.ImageData (gray1 10))]>
  (<["tex/metal.png" := OS.File (OS.ImageData (gray2 40 60))]>
  (<["tex/notes.txt" := OS.File OS.OtherData]> ∅)))).

(** A sub-command with [--out o] and nothing else. *)
Definition bare (m : Mode) (o : string) : Namespace :=
  {| mode := m; metallic := None; occlusion := None; height := None;
     detail := None; smoothness := None; roughness := None;
     invert_roughness := false; default_smoothness := 0.5%float; out := o |}.

(** [--smoothness s --roughness r [--invert-roughness]] added to [bare]. *)
Definition smooth_rough (m : Mode) (s r : option string) (inv : bool)
    (o : string) : Namespace :=
  {| mode := m; metallic := None; occlusion := None; height := None;
     detail := None; smoothness := s; roughness := r;
     invert_roughness := inv; default_smoothness := 0.5%float; out := o |}.

(** [--metallic tex/metal.png] and, optionally, a smoothness path. *)
Definition with_metal (m : Mode) (s : option string) (o : string) : Namespace :=
  {| mode := m; metallic := Some "tex/metal.png"; occlusion := None;
     height := None; detail := None; smoothness := s; roughness := None;
     invert_roughness := false; default_smoothness := 0.5%float; out := o |}.

End Examples.


(** ** What a run may do to the file system *)

(** The entry at [q] is as it was, or a directory has appeared where
    there was nothing. *)
Definition dirs_added (w w' : OS.fs) (q : string) : Prop :=
  w' !! q = w !! q \/ (w !! q = None /\ w' !! q = Some OS.Dir).


(** Two file systems hold the same image file at [p], or no file at all
    in both: all the script can tell of an input path. *)
Definition same_input (w1 w2 : OS.fs) (p : string) : Prop :=
  OS.isfile w2 p = OS.isfile w1 p /\
  (OS.isfile w1 p = true -> ImageFile.open w2 p = ImageFile.open w1 p).


(** ** The summary a run prints

    Standard output is the list of the lines printed.  [repr_float]
    stands for Python's formatting of a float in an f-string, which the
    summary uses for the default smoothness only. *)

(** [x or y] and [x and y] on values that are a string or [None]. *)
Definition py_or (a b : option string) : option string :=
  if truthy a then a else b.
Definition py_and (a b : option string) : option string :=
  if truthy a then b else a.

(** A string or [None] inside an f-string. *)
Definition str_of (v : option string) : string :=
  match v with
  | Some s => s
  | None => "None"
  end.

(** The names of the sub-commands, the values of [args.mode]. *)
Definition mode_name (m : Mode) : string :=
  match m with
  | UrpTerrain => "urp-terrain"
  | Hdrp => "hdrp"
  | UrpRa => "urp-ra"
  end.

Definition print_summary (mode : string) (mapping : list (string * option string))
    (size : Z * Z) (out_path : string) : list string :=
  ["Mode: " ++ mode;
   "Resolution: " ++ (pretty (fst size) ++ "x" ++ pretty (snd size));
   "Output: " ++ out_path;
   "Channel mapping:"]
  ++ map (fun '(k, v) => "  - " ++ k ++ ": " ++ str_of v) mapping.

Section Summary.
Context {PIL : Imaging}.
Variable repr_float : float -> string.

(** The ["A (Smoothness)"] value of the three mappings. *)
Definition smoothness_entry (args : Namespace) : option string :=
  py_or
    (py_or (smoothness args)
       (if invert_roughness args
        then py_and (roughness args)
               (Some ("invert(" ++ str_of (roughness args) ++ ")"))
        else roughness args))
    (Some ("const " ++ repr_float (default_smoothness args))).

(** The dictionary handed to [print_summary], in insertion order. *)
Definition mapping (args : Namespace) : list (string * option string) :=
  match mode args with
  | UrpRa =>
      [("R (Metallic)", py_or (metallic args) (Some "const 0"));
       ("G (ignored)", Some "const 0");
       ("B (ignored)", Some "const 0");
       ("A (Smoothness)", smoothness_entry args)]
  | UrpTerrain =>
      [("R (Metallic)", py_or (metallic args) (Some "const 0"));
       ("G (AO)", py_or (occlusion args) (Some "const 1"));
       ("B (Height)", py_or (height args) (Some "const 0.5"));
       ("A (Smoothness)", smoothness_entry args)]
  | Hdrp =>
      [("R (Metallic)", py_or (metallic args) (Some "const 0"));
       ("G (AO)", py_or (occlusion args) (Some "const 1"));
       ("B (DetailMask)", py_or (detail args) (Some "const 1"));
       ("A (Smoothness)", smoothness_entry args)]
  end.

(** [main] with what it prints: the exit code and the lines of the
    summary. *)
Definition main_print (args : Namespace) : M (Z * list string) :=
  target_size <- inspect (fun w => determine_target_size w (candidate_paths args)) ;;
  match mode args with
  | UrpRa =>
      metallic_l <- inspect (fun w => read_grayscale w (metallic args) 0 (Some target_size)) ;;
      smooth_l <- inspect (fun w => resolve_smoothness w args target_size) ;;
      g_ignored <- inspect (fun _ => Image.new "L" target_size 0) ;;
      b_ignored <- inspect (fun _ => Image.new "L" target_size 0) ;;
      out_img <- inspect (fun _ => compose_rgba metallic_l g_ignored b_ignored smooth_l) ;;
      _ <- save_png out_img (out args) ;;
      ret (0, print_summary (mode_name (mode args)) (mapping args) target_size (out args))
  | UrpTerrain =>
      metallic_l <- inspect (fun w => read_grayscale w (metallic args) 0 (Some target_size)) ;;
      ao_l <- inspect (fun w => read_grayscale w (occlusion args) 255 (Some target_size)) ;;
      height_l <- inspect (fun w => read_grayscale w (getattr args Height) 128 (Some target_size)) ;;
      smooth_l <- inspect (fun w => resolve_smoothness w args target_size) ;;
      out_img <- inspect (fun _ => compose_rgba metallic_l ao_l height_l smooth_l) ;;
      _ <- save_png out_img (out args) ;;
      ret (0, print_summary (mode_name (mode args)) (mapping args) target_size (out args))
  | Hdrp =>
      metallic_l <- inspect (fun w => read_grayscale w (metallic args) 0 (Some target_size)) ;;
      ao_l <- inspect (fun w => read_grayscale w (occlusion args) 255 (Some target_size)) ;;
      detail_l <- inspect (fun w => read_grayscale w (getattr args Detail) 255 (Some target_size)) ;;
      smooth_l <- inspect (fun w => resolve_smoothness w args target_size) ;;
      out_img <- inspect (fun _ => compose_rgba metallic_l ao_l detail_l smooth_l) ;;
      _ <- save_png out_img (out args) ;;
      ret (0, print_summary (mode_name (mode args)) (mapping args) target_size (out args))
  end.

End Summary.

(** Where a leading channel comes from, as the summary words it: the
    path when one is given, the constant otherwise. *)
Definition channel_label (path : option string) (const : string) : string :=
  match path with
  | Some p => p
  | None => const
  end.

(** The wording for the smoothness channel: the source, marked when it
    is the roughness map taken inverted, or the default constant as
    given on the command line. *)
Definition smoothness_label (repr_float : float -> string) (args : Namespace) : string :=
  match smoothness_source args with
  | Some p =>
      if negb (truthy (smoothness args)) && invert_roughness args
      then "invert(" ++ p ++ ")" else p
  | None => "const " ++ repr_float (default_smoothness args)
  end.


(** The namespace with another [--default-smoothness]. *)
Definition with_default_smoothness (args : Namespace) (d : float) : Namespace :=
  {| mode := mode args; metallic := metallic args; occlusion := occlusion args;
     height := height args; detail := detail args; smoothness := smoothness args;
     roughness := roughness args; invert_roughness := invert_roughness args;
     default_smoothness := d; out := out args |}.


(** ** Paths in normal form

    The file system keys its entries by the path string.  Two strings
    name the same entry for certain only when they are equal; ["a//b"],
    ["./a/b"] and ["a/b"] are three keys.  The properties that depend on
    two paths being different entries are stated for plain paths:
    relative, the components separated by single slashes, none of them
    empty, ["."] or [".."].  Without links, two plain paths are the same
    entry only when they are the same string. *)

Fixpoint components (p : string) : list string :=
  match p with
  | EmptyString => [EmptyString]
  | String c p' =>
      if Ascii.eqb c OS.sep then EmptyString :: components p'
      else match components p' with
           | [] => [String c EmptyString]
           | x :: xs => String c x :: xs
           end
  end.

Definition plain_component (c : string) : bool :=
  negb (String.eqb c "") && negb (String.eqb c ".") && negb (String.eqb c "..").

Definition plain_path (p : string) : bool :=
  forallb plain_component (components p).

(** The output path is plain and every supplied input path is plain or
    the empty string, which names nothing. *)
Definition paths_plain (args : Namespace) : bool :=
  plain_path (out args)
  && forallb (fun p => String.eqb p "" || plain_path p) (supplied_paths args).

(** * Properties *)

(** ** Samples, tables and planes *)

Lemma clip8_uint8 v : Image.is_uint8 (Image.clip8 v).
Proof. unfold Image.is_uint8, Image.clip8. lia. Qed.

Lemma clip8_id v : Image.is_uint8 v -> Image.clip8 v = v.
Proof. unfold Image.is_uint8, Image.clip8. lia. Qed.

Lemma point_lut f v :
  Image.is_uint8 v -> Image.point (Image.lut f) v = Image.clip8 (f v).
Proof.
  intros [H0 H1]. unfold Image.point, Image.lut.
  set (g := fun i : nat => Image.clip8 (f (Z.of_nat i))).
  assert (Hlt : (Z.to_nat v < 256)%nat) by lia.
  rewrite (nth_indep _ 0 (g 0%nat)) by (rewrite length_map, length_seq; exact Hlt).
  rewrite (map_nth g), seq_nth by exact Hlt.
  unfold g. simpl. rewrite Z2Nat.id by lia. reflexivity.
Qed.

Lemma map_ext_Forall_uint8 (f g : Z -> Z) (p : list Z) :
  (forall v, Image.is_uint8 v -> f v = g v) ->
  Forall Image.is_uint8 p -> map f p = map g p.
Proof.
  intros Hfg Hp. induction Hp as [|v p Hv Hp IH]; simpl; [reflexivity|].
  rewrite (Hfg v Hv), IH. reflexivity.
Qed.

(** On a well-formed raster [Image.eval] applies the function itself,
    saturated, to every sample. *)
Lemma eval_bands im f :
  Image.valid im ->
  Image.bands (Image.eval im f)
  = map (map (fun v => Image.clip8 (f v))) (Image.bands im).
Proof.
  intros [_ Hb]. unfold Image.eval. simpl.
  induction Hb as [|p bs [_ Hp] Hb IH]; simpl; [reflexivity|].
  rewrite IH. f_equal. apply map_ext_Forall_uint8; [|exact Hp].
  intros v Hv. apply point_lut, Hv.
Qed.

Lemma eval_valid im f : Image.valid im -> Image.valid (Image.eval im f).
Proof.
  intros Hv. pose proof (eval_bands im f Hv) as Hb.
  destruct Hv as [Hn Hp]. split.
  - rewrite Hb, length_map. exact Hn.
  - rewrite Hb. simpl. apply Forall_forall. intros q Hq.
    apply list_elem_of_In, in_map_iff in Hq as (p & <- & Hin).
    rewrite Forall_forall in Hp. destruct (Hp p) as [Hl _].
    { apply list_elem_of_In, Hin. }
    split; [rewrite length_map; exact Hl|].
    apply Forall_forall. intros v Hv.
    apply list_elem_of_In, in_map_iff in Hv as (u & <- & _). apply clip8_uint8.
Qed.

Lemma solid_valid m sz c : Image.valid (Image.solid m sz c).
Proof.
  split; simpl.
  - apply length_replicate.
  - apply Forall_replicate. split; [apply length_replicate|].
    apply Forall_replicate, clip8_uint8.
Qed.

Lemma validb_valid im : ImageFile.validb im = true <-> Image.valid im.
Proof.
  unfold ImageFile.validb, Image.valid.
  rewrite andb_true_iff, Nat.eqb_eq, forallb_forall, Forall_forall.
  apply and_iff_compat_l. split.
  - intros H p Hp. apply list_elem_of_In, H in Hp.
    apply andb_true_iff in Hp as [Hl Hs]. apply Nat.eqb_eq in Hl.
    split; [exact Hl|]. apply Forall_forall. intros v Hv.
    rewrite forallb_forall in Hs. apply list_elem_of_In, Hs in Hv.
    unfold Image.is_uint8. lia.
  - intros H p Hp. apply list_elem_of_In, H in Hp as [Hl Hs].
    apply andb_true_iff. split; [apply Nat.eqb_eq, Hl|].
    apply forallb_forall. intros v Hv. rewrite Forall_forall in Hs.
    apply list_elem_of_In, Hs in Hv. unfold Image.is_uint8 in Hv. lia.
Qed.

(** ** The reference imaging implementation meets the interface *)

Lemma sampled_plane_ok (g : nat -> nat) (plane : list Z) (n : nat) :
  length (map (fun i => Reference.sample plane (g i)) (seq 0 n)) = n /\
  Forall Image.is_uint8 (map (fun i => Reference.sample plane (g i)) (seq 0 n)).
Proof.
  split; [rewrite length_map; apply length_seq|].
  apply Forall_forall. intros v Hv.
  apply list_elem_of_In, in_map_iff in Hv as (i & <- & _). apply clip8_uint8.
Qed.

Lemma reference_convert_mode im m : Image.mode (Reference.convert im m) = m.
Proof.
  unfold Reference.convert. destruct (String.eqb m (Image.mode im)) eqn:E.
  - apply String.eqb_eq in E. congruence.
  - reflexivity.
Qed.

Lemma reference_convert_size im m :
  Image.size (Reference.convert im m) = Image.size im.
Proof.
  unfold Reference.convert. destruct (String.eqb m (Image.mode im)); reflexivity.
Qed.

Lemma reference_convert_valid im m :
  Image.valid im -> Image.valid (Reference.convert im m).
Proof.
  intros Hv. unfold Reference.convert.
  destruct (String.eqb m (Image.mode im)); [exact Hv|].
  split; simpl; [apply length_replicate|].
  apply Forall_replicate.
  exact (sampled_plane_ok (fun i => i) _ _).
Qed.

Lemma reference_convert_same im : Reference.convert im (Image.mode im) = im.
Proof. unfold Reference.convert. rewrite String.eqb_refl. reflexivity. Qed.

Lemma reference_resize_valid im sz :
  Image.valid im -> Image.valid (Reference.resize im sz).
Proof.
  intros [Hn _]. split; simpl; [rewrite length_map; exact Hn|].
  apply Forall_forall. intros q Hq.
  apply list_elem_of_In, in_map_iff in Hq as (plane & <- & _).
  exact (sampled_plane_ok (Reference.nearest (Image.size im) sz) plane _).
Qed.

#[export] Instance reference_imaging : Imaging := {|
  convert := Reference.convert;
  resize := Reference.resize;
  convert_mode := reference_convert_mode;
  convert_size := reference_convert_size;
  convert_valid := reference_convert_valid;
  convert_same := reference_convert_same;
  resize_mode := fun _ _ => eq_refl;
  resize_size := fun _ _ => eq_refl;
  resize_valid := reference_resize_valid
|}.

(** ** [round] never fails on a clamped value *)

Lemma digits2_pos_size p : digits2_pos p = Pos.size p.
Proof. induction p; simpl; congruence. Qed.

Lemma digits2_upper p k : 0 <= k -> Zpos p < 2 ^ k -> Zpos (digits2_pos p) <= k.
Proof.
  intros Hk Hp. rewrite digits2_pos_size.
  pose proof (Pos.size_le p) as Hle.
  assert (H2 : 2 ^ Zpos (Pos.size p) <= 2 * Zpos p).
  { rewrite <- Pos2Z.inj_pow. change (2 * Zpos p) with (Zpos p~0). lia. }
  assert (H3 : 2 ^ Zpos (Pos.size p) < 2 ^ (k + 1)).
  { rewrite Z.pow_add_r by lia. lia. }
  apply Z.pow_lt_mono_r_iff in H3; lia.
Qed.

Lemma digits2_lower p : Zpos p < 2 ^ Zpos (digits2_pos p).
Proof.
  rewrite digits2_pos_size, <- Pos2Z.inj_pow. pose proof (Pos.size_gt p). lia.
Qed.

Lemma Zdigits2_upper m k : 0 <= k -> 0 <= m < 2 ^ k -> 0 <= Zdigits2 m <= k.
Proof.
  intros Hk [H0 H1]. destruct m as [|p|p]; simpl; try lia.
  split; [lia | apply digits2_upper; assumption].
Qed.

(** Shifting right by one halves a non-negative mantissa, rounding down. *)
Lemma shr_1_half mrs : 0 <= shr_m mrs -> 0 <= shr_m (shr_1 mrs) /\ 2 * shr_m (shr_1 mrs) <= shr_m mrs.
Proof.
  destruct mrs as [m r s]. simpl. destruct m as [|[p|p|]|p]; simpl; lia.
Qed.

Lemma iter_shr_1_div p : forall mrs,
  0 <= shr_m mrs ->
  0 <= shr_m (SpecFloat.iter_pos shr_1 p mrs) /\
  shr_m (SpecFloat.iter_pos shr_1 p mrs) * 2 ^ Zpos p <= shr_m mrs.
Proof.
  induction p as [p IH|p IH|]; intros mrs H; simpl SpecFloat.iter_pos.
  - destruct (shr_1_half mrs H) as [H1 H1'].
    destruct (IH _ H1) as [H2 H2']. destruct (IH _ H2) as [H3 H3'].
    split; [exact H3|].
    replace (Zpos p~1) with (Zpos p + Zpos p + 1) by lia.
    rewrite !Z.pow_add_r by lia.
    pose proof (Z.pow_pos_nonneg 2 (Zpos p) ltac:(lia) ltac:(lia)). nia.
  - destruct (IH _ H) as [H2 H2']. destruct (IH _ H2) as [H3 H3'].
    split; [exact H3|].
    replace (Zpos p~0) with (Zpos p + Zpos p) by lia.
    rewrite !Z.pow_add_r by lia.
    pose proof (Z.pow_pos_nonneg 2 (Zpos p) ltac:(lia) ltac:(lia)). nia.
  - destruct (shr_1_half mrs H). split; [assumption|]. change (2 ^ 1) with 2. lia.
Qed.

(** One normalisation step keeps a value below [b * 2^-e] below it. *)
Lemma shr_fexp_value m e l :
  0 <= m -> e <= -45 -> m <= 255 * 2 ^ (- e) ->
  let '(mrs', e') := shr_fexp prec emax m e l in
  0 <= shr_m mrs' /\ e <= e' <= -45 /\ shr_m mrs' * 2 ^ (e' - e) <= m.
Proof.
  intros H0 He Hm. unfold shr_fexp.
  assert (Hr : shr_m (shr_record_of_loc m l) = m) by (destruct l as [|[]]; reflexivity).
  assert (Hd : 0 <= Zdigits2 m <= 8 - e).
  { apply Zdigits2_upper; [lia|]. split; [exact H0|].
    replace (8 - e) with (8 + - e) by lia. rewrite Z.pow_add_r by lia.
    pose proof (Z.pow_pos_nonneg 2 (- e) ltac:(lia) ltac:(lia)).
    change (2 ^ 8) with 256. nia. }
  set (n := fexp prec emax (Zdigits2 m + e) - e).
  assert (Hn : e + n <= -45).
  { unfold n, fexp, SpecFloat.emin, prec, emax. lia. }
  unfold shr. destruct n as [|p|p] eqn:En.
  - rewrite Hr. replace (e - e) with 0 by lia. simpl. lia.
  - destruct (iter_shr_1_div p (shr_record_of_loc m l)) as [H1 H2]; [lia|].
    rewrite Hr in H2. replace (e + Zpos p - e) with (Zpos p) by lia.
    split; [exact H1|]. split; [|exact H2]. lia.
  - rewrite Hr. replace (e - e) with 0 by lia. simpl. lia.
Qed.

Lemma round_half_even_le255 m e :
  0 <= m -> e <= -45 -> m <= 255 * 2 ^ (- e) -> 0 <= round_half_even m e <= 255.
Proof.
  intros H0 He Hm. unfold round_half_even.
  replace (0 <=? e) with false by (symmetry; apply Z.leb_gt; lia).
  pose proof (Z.pow_pos_nonneg 2 (- e) ltac:(lia) ltac:(lia)) as Hd.
  set (d := 2 ^ (- e)) in *.
  pose proof (Z.div_mod m d ltac:(lia)) as Hdm.
  pose proof (Z.mod_pos_bound m d Hd) as Hr.
  assert (Hq : 0 <= m / d) by (apply Z.div_pos; lia).
  destruct (Z.compare_spec (2 * (m mod d)) d) as [E|E|E];
    [destruct (Z.even (m / d))| |]; nia.
Qed.

(** The product of a float below [255 * 2^-e] rounds to a float that is
    still at most 255. *)
Lemma binary_round_aux_le255 s m e :
  0 <= m -> e <= -45 -> m < 255 * 2 ^ (- e) ->
  match binary_round_aux prec emax s m e loc_Exact with
  | S754_zero _ => True
  | S754_finite _ m2 e2 => e2 <= -45 /\ Zpos m2 <= 255 * 2 ^ (- e2)
  | _ => False
  end.
Proof.
  intros H0 He Hm. unfold binary_round_aux.
  pose proof (shr_fexp_value m e loc_Exact H0 He ltac:(lia)) as H1.
  destruct (shr_fexp prec emax m e loc_Exact) as [mrs1 e1].
  destruct H1 as (Hp1 & He1 & Hv1).
  assert (Hs1 : shr_m mrs1 < 255 * 2 ^ (- e1)).
  { replace (- e) with (- e1 + (e1 - e)) in Hm by lia.
    rewrite Z.pow_add_r in Hm by lia.
    pose proof (Z.pow_pos_nonneg 2 (e1 - e) ltac:(lia) ltac:(lia)).
    pose proof (Z.pow_pos_nonneg 2 (- e1) ltac:(lia) ltac:(lia)). nia. }
  set (m1 := round_nearest_even (shr_m mrs1) (loc_of_shr_record mrs1)).
  assert (Hm1 : 0 <= m1 <= shr_m mrs1 + 1).
  { unfold m1. destruct (loc_of_shr_record mrs1) as [|[]]; simpl; try lia.
    destruct (Z.even (shr_m mrs1)); lia. }
  pose proof (shr_fexp_value m1 e1 loc_Exact ltac:(lia) ltac:(lia) ltac:(lia)) as H2.
  destruct (shr_fexp prec emax m1 e1 loc_Exact) as [mrs2 e2].
  destruct H2 as (Hp2 & He2 & Hv2).
  assert (Hs2 : shr_m mrs2 <= 255 * 2 ^ (- e2)).
  { assert (Hm1' : m1 <= 255 * 2 ^ (- e1)) by lia.
    replace (- e1) with (- e2 + (e2 - e1)) in Hm1' by lia.
    rewrite Z.pow_add_r in Hm1' by lia.
    pose proof (Z.pow_pos_nonneg 2 (e2 - e1) ltac:(lia) ltac:(lia)).
    pose proof (Z.pow_pos_nonneg 2 (- e2) ltac:(lia) ltac:(lia)). nia. }
  destruct (shr_m mrs2) as [|p|p] eqn:E; [exact I | | lia].
  replace (e2 <=? emax - prec) with true
    by (symmetry; apply Z.leb_le; unfold emax, prec; lia).
  split; [lia | exact Hs2].
Qed.

Lemma bounded_mantissa m e : bounded prec emax m e = true -> Zpos m < 2 ^ 53.
Proof.
  unfold bounded, canonical_mantissa, fexp, SpecFloat.emin, prec, emax.
  intros H. apply andb_prop in H as [H _]. apply Z.eqb_eq in H.
  pose proof (digits2_lower m) as Hl.
  assert (Hd : Zpos (digits2_pos m) <= 53) by lia.
  eapply Z.lt_le_trans; [exact Hl|]. apply Z.pow_le_mono_r; lia.
Qed.

(** A positive float below 1.0 has an exponent of at most -53. *)
Lemma lt_one_exponent m e :
  bounded prec emax m e = true ->
  SFltb (S754_finite false m e) (Prim2SF 1) = true -> e <= -53.
Proof.
  intros Hb. change (Prim2SF 1) with (S754_finite false 4503599627370496 (-52)).
  unfold SFltb, SFcompare.
  destruct (e ?= -52) eqn:E.
  - apply Z.compare_eq in E. subst e.
    unfold bounded, canonical_mantissa, fexp, SpecFloat.emin, prec, emax in Hb.
    apply andb_prop in Hb as [Hb _]. apply Z.eqb_eq in Hb.
    assert (Hd : Zpos (digits2_pos m) = 53) by lia.
    rewrite digits2_pos_size in Hd.
    pose proof (Pos.size_le m) as Hs.
    assert (Hz : 2 ^ Zpos (Pos.size m) <= 2 * Zpos m).
    { rewrite <- Pos2Z.inj_pow. change (2 * Zpos m) with (Zpos m~0). lia. }
    rewrite Hd in Hz.
    intros H.
    destruct (PosDef.Pos.compare_cont Eq m 4503599627370496) eqn:C; try discriminate.
    assert (C' : (m < 4503599627370496)%positive) by exact C.
    apply Pos2Z.pos_lt_pos in C'.
    change (2 ^ 53) with 9007199254740992 in Hz. clear - Hz C'. lia.
  - intros _. rewrite Z.compare_lt_iff in E. lia.
  - discriminate.
Qed.

Lemma shr_1_upper mrs : 0 <= shr_m mrs -> shr_m mrs <= 2 * shr_m (shr_1 mrs) + 1.
Proof.
  destruct mrs as [m r s]. simpl. destruct m as [|[p|p|]|p]; simpl; lia.
Qed.

Lemma iter_shr_1_upper p : forall mrs,
  0 <= shr_m mrs ->
  shr_m mrs < (shr_m (SpecFloat.iter_pos shr_1 p mrs) + 1) * 2 ^ Zpos p.
Proof.
  induction p as [p IH|p IH|]; intros mrs H; simpl SpecFloat.iter_pos.
  - pose proof (shr_1_half mrs H) as [H1 _].
    pose proof (shr_1_upper mrs H) as U1.
    destruct (iter_shr_1_div p _ H1) as [H2 _].
    pose proof (IH _ H1) as U2. pose proof (IH _ H2) as U3.
    replace (Zpos p~1) with (Zpos p + Zpos p + 1) by lia.
    rewrite !Z.pow_add_r by lia.
    pose proof (Z.pow_pos_nonneg 2 (Zpos p) ltac:(lia) ltac:(lia)).
    change (2 ^ 1) with 2. nia.
  - destruct (iter_shr_1_div p _ H) as [H2 _].
    pose proof (IH _ H) as U2. pose proof (IH _ H2) as U3.
    replace (Zpos p~0) with (Zpos p + Zpos p) by lia.
    rewrite !Z.pow_add_r by lia.
    pose proof (Z.pow_pos_nonneg 2 (Zpos p) ltac:(lia) ltac:(lia)). nia.
  - pose proof (shr_1_upper mrs H). change (2 ^ 1) with 2. lia.
Qed.

(** One normalisation step truncates: the mantissa it keeps, scaled
    back, is the largest multiple not above the one it was given. *)
Lemma shr_fexp_trunc m e l :
  0 <= m -> e <= -45 -> m <= 255 * 2 ^ (- e) ->
  let '(mrs', e') := shr_fexp prec emax m e l in
  0 <= shr_m mrs' /\ e <= e' <= -45 /\
  shr_m mrs' * 2 ^ (e' - e) <= m < (shr_m mrs' + 1) * 2 ^ (e' - e).
Proof.
  intros H0 He Hm. unfold shr_fexp.
  assert (Hr : shr_m (shr_record_of_loc m l) = m) by (destruct l as [|[]]; reflexivity).
  assert (Hd : 0 <= Zdigits2 m <= 8 - e).
  { apply Zdigits2_upper; [lia|]. split; [exact H0|].
    replace (8 - e) with (8 + - e) by lia. rewrite Z.pow_add_r by lia.
    pose proof (Z.pow_pos_nonneg 2 (- e) ltac:(lia) ltac:(lia)).
    change (2 ^ 8) with 256. nia. }
  set (n := fexp prec emax (Zdigits2 m + e) - e).
  assert (Hn : e + n <= -45).
  { unfold n, fexp, SpecFloat.emin, prec, emax. lia. }
  unfold shr. destruct n as [|p|p] eqn:En.
  - rewrite Hr. replace (e - e) with 0 by lia. simpl. lia.
  - destruct (iter_shr_1_div p (shr_record_of_loc m l)) as [H1 H2]; [lia|].
    pose proof (iter_shr_1_upper p (shr_record_of_loc m l) ltac:(lia)) as H3.
    rewrite Hr in H2, H3. replace (e + Zpos p - e) with (Zpos p) by lia.
    split; [exact H1|]. split; [lia|]. split; [exact H2|exact H3].
  - rewrite Hr. replace (e - e) with 0 by lia. simpl. lia.
Qed.

(** [round_half_even m e] is an integer nearest to [m * 2^e]. *)
Lemma round_half_even_near m e :
  0 <= m -> e < 0 ->
  2 * Z.abs (round_half_even m e * 2 ^ (- e) - m) <= 2 ^ (- e).
Proof.
  intros H0 He. unfold round_half_even.
  replace (0 <=? e) with false by (symmetry; apply Z.leb_gt; lia).
  pose proof (Z.pow_pos_nonneg 2 (- e) ltac:(lia) ltac:(lia)) as Hd.
  set (d := 2 ^ (- e)) in *.
  pose proof (Z.div_mod m d ltac:(lia)) as Hdm.
  pose proof (Z.mod_pos_bound m d Hd) as Hr.
  destruct (Z.compare_spec (2 * (m mod d)) d) as [E|E|E];
    [destruct (Z.even (m / d))| |]; nia.
Qed.

(** The correctly rounded product, as a pair: the result of
    [binary_round_aux] is within two units of its last place of the
    exact product. *)
Lemma binary_round_aux_near s m e :
  0 <= m -> e <= -45 -> m < 255 * 2 ^ (- e) ->
  match binary_round_aux prec emax s m e loc_Exact with
  | S754_zero _ => m < 2 * 2 ^ (- e - 45)
  | S754_finite _ m2 e2 =>
      e <= e2 <= -45 /\ Zpos m2 <= 255 * 2 ^ (- e2) /\
      Z.abs (Zpos m2 * 2 ^ (e2 - e) - m) < 2 * 2 ^ (e2 - e)
  | _ => False
  end.
Proof.
  intros H0 He Hm. unfold binary_round_aux.
  pose proof (shr_fexp_trunc m e loc_Exact H0 He ltac:(lia)) as H1.
  destruct (shr_fexp prec emax m e loc_Exact) as [mrs1 e1].
  destruct H1 as (Hp1 & He1 & Hv1 & Hu1).
  assert (Hs1 : shr_m mrs1 < 255 * 2 ^ (- e1)).
  { replace (- e) with (- e1 + (e1 - e)) in Hm by lia.
    rewrite Z.pow_add_r in Hm by lia.
    pose proof (Z.pow_pos_nonneg 2 (e1 - e) ltac:(lia) ltac:(lia)).
    pose proof (Z.pow_pos_nonneg 2 (- e1) ltac:(lia) ltac:(lia)). nia. }
  set (m1 := round_nearest_even (shr_m mrs1) (loc_of_shr_record mrs1)).
  assert (Hm1 : shr_m mrs1 <= m1 <= shr_m mrs1 + 1).
  { unfold m1. destruct (loc_of_shr_record mrs1) as [|[]]; simpl; try lia.
    destruct (Z.even (shr_m mrs1)); lia. }
  pose proof (shr_fexp_trunc m1 e1 loc_Exact ltac:(lia) ltac:(lia) ltac:(lia)) as H2.
  destruct (shr_fexp prec emax m1 e1 loc_Exact) as [mrs2 e2].
  destruct H2 as (Hp2 & He2 & Hv2 & Hu2).
  assert (Hs2 : shr_m mrs2 <= 255 * 2 ^ (- e2)).
  { assert (Hm1' : m1 <= 255 * 2 ^ (- e1)) by lia.
    replace (- e1) with (- e2 + (e2 - e1)) in Hm1' by lia.
    rewrite Z.pow_add_r in Hm1' by lia.
    pose proof (Z.pow_pos_nonneg 2 (e2 - e1) ltac:(lia) ltac:(lia)).
    pose proof (Z.pow_pos_nonneg 2 (- e2) ltac:(lia) ltac:(lia)). nia. }
  assert (Hab : 2 ^ (e2 - e) = 2 ^ (e2 - e1) * 2 ^ (e1 - e)).
  { rewrite <- Z.pow_add_r by lia. f_equal. lia. }
  pose proof (Z.pow_pos_nonneg 2 (e2 - e1) ltac:(lia) ltac:(lia)) as Hb.
  pose proof (Z.pow_pos_nonneg 2 (e1 - e) ltac:(lia) ltac:(lia)) as Ha.
  set (a := 2 ^ (e1 - e)) in *. set (b := 2 ^ (e2 - e1)) in *.
  assert (Hnear : Z.abs (shr_m mrs2 * (b * a) - m) < 2 * (b * a)) by nia.
  destruct (shr_m mrs2) as [|p|p] eqn:E; [ | | lia].
  - assert (Hle : b * a <= 2 ^ (- e - 45)).
    { rewrite <- Hab. apply Z.pow_le_mono_r; lia. }
    nia.
  - replace (e2 <=? emax - prec) with true
      by (symmetry; apply Z.leb_le; unfold emax, prec; lia).
    split; [lia|]. split; [exact Hs2|]. rewrite Hab. exact Hnear.
Qed.

Section Properties.
Context {PIL : Imaging}.
Import OS.

(** [clamp01] yields 1.0, 0.0, or its argument when that lies strictly
    between them. *)
Lemma clamp01_cases d :
  clamp01 d = 1%float \/ clamp01 d = 0%float \/
  (clamp01 d = d /\ exists m e, Prim2SF d = S754_finite false m e /\
      bounded prec emax m e = true /\ e <= -53).
Proof.
  unfold clamp01, py_min, py_max.
  destruct (PrimFloat.ltb d 1) eqn:H1.
  - destruct (PrimFloat.ltb 0 d) eqn:H0; [|right; left; reflexivity].
    right; right. split; [reflexivity|].
    rewrite ltb_spec in H0, H1.
    pose proof (Prim2SF_valid d) as Hv.
    change (Prim2SF 0) with (S754_zero false) in H0.
    destruct (Prim2SF d) as [s|s| |s m e]; try discriminate.
    + destruct s; discriminate.
    + destruct s; [discriminate|].
      exists m, e. split; [reflexivity|]. split; [exact Hv|].
      exact (lt_one_exponent m e Hv H1).
  - left. reflexivity.
Qed.

(** [round(clamp01(d) * 255)] is an integer from 0 to 255, for every
    float [d], NaN and the infinities included. *)
Lemma round_clamp01_range d :
  exists v, py_round (clamp01 d * 255)%float = Ok v /\ 0 <= v <= 255.
Proof.
  destruct (clamp01_cases d) as [H|[H|[H (m & e & Hd & Hb & He)]]]; rewrite H.
  - exists 255. split; [reflexivity | lia].
  - exists 0. split; [reflexivity | lia].
  - unfold py_round. rewrite mul_spec, Hd.
    change (Prim2SF 255) with (S754_finite false 8972014882652160 (-45)).
    unfold SF64mul, SFmul.
    pose proof (bounded_mantissa m e Hb) as Hm.
    assert (Hlt : Zpos (m * 8972014882652160) < 255 * 2 ^ (- (e + -45))).
    { rewrite Pos2Z.inj_mul.
      replace (- (e + -45)) with (45 + - e) by lia.
      rewrite Z.pow_add_r by lia.
      assert (2 ^ 53 <= 2 ^ (- e)) by (apply Z.pow_le_mono_r; lia).
      change 8972014882652160 with (255 * 2 ^ 45).
      pose proof (Z.pow_pos_nonneg 2 45 ltac:(lia) ltac:(lia)). nia. }
    pose proof (binary_round_aux_le255 (xorb false false)
                  (Zpos (m * 8972014882652160)) (e + -45)
                  ltac:(lia) ltac:(lia) Hlt) as Hr.
    destruct (binary_round_aux prec emax (xorb false false)
                (Zpos (m * 8972014882652160)) (e + -45) loc_Exact)
      as [s|s| |s m2 e2] eqn:E; try contradiction.
    + exists 0. split; [reflexivity | lia].
    + destruct Hr as [He2 Hm2].
      assert (Hs : s = false).
      { revert E. unfold binary_round_aux.
        destruct (shr_fexp _ _ _ _ _) as [mrs1 e1].
        destruct (shr_fexp _ _ _ _ _) as [mrs2 e2'].
        destruct (shr_m mrs2); try discriminate.
        destruct (_ <=? _); [|discriminate]. intros [= <- _ _]. reflexivity. }
      subst s. eexists. split; [reflexivity|].
      apply round_half_even_le255; [lia | exact He2 | exact Hm2].
Qed.

(** For a float strictly between 0.0 and 1.0, with mantissa [m] and
    exponent [e], the integer [round(clamp01(d) * 255)] is within
    [1/2 + 2^-44] of the exact product [255 * m * 2^e]. *)
Lemma round_clamp01_near d m e v :
  Prim2SF d = S754_finite false m e ->
  PrimFloat.ltb d 1 = true ->
  py_round (clamp01 d * 255)%float = Ok v ->
  2 * Z.abs (v * 2 ^ (- e) - 255 * Zpos m) <= 2 ^ (- e) + 2 ^ (- e - 43).
Proof.
  intros Hd H1.
  assert (Hc : clamp01 d = d).
  { unfold clamp01, py_min, py_max. rewrite H1.
    assert (H0 : PrimFloat.ltb 0 d = true).
    { rewrite ltb_spec, Hd. reflexivity. }
    rewrite H0. reflexivity. }
  rewrite Hc.
  pose proof (Prim2SF_valid d) as Hb. rewrite Hd in Hb.
  assert (He : e <= -53).
  { apply (lt_one_exponent m e Hb). rewrite ltb_spec, Hd in H1. exact H1. }
  unfold py_round. rewrite mul_spec, Hd.
  change (Prim2SF 255) with (S754_finite false 8972014882652160 (-45)).
  unfold SF64mul, SFmul.
  pose proof (bounded_mantissa m e Hb) as Hm.
  assert (HM : Zpos (m * 8972014882652160) = 255 * Zpos m * 2 ^ 45).
  { rewrite Pos2Z.inj_mul. change 8972014882652160 with (255 * 2 ^ 45). lia. }
  pose proof (Z.pow_pos_nonneg 2 45 ltac:(lia) ltac:(lia)) as P45.
  assert (HX : 2 ^ (- (e + -45)) = 2 ^ (- e) * 2 ^ 45).
  { rewrite <- Z.pow_add_r by lia. f_equal. lia. }
  assert (HY : 2 ^ (- e) = 2 ^ (- e - 43) * 2 ^ 43).
  { rewrite <- Z.pow_add_r by lia. f_equal. lia. }
  assert (H53 : 2 ^ 53 <= 2 ^ (- e)) by (apply Z.pow_le_mono_r; lia).
  assert (Hlt : Zpos (m * 8972014882652160) < 255 * 2 ^ (- (e + -45))).
  { rewrite HM, HX. nia. }
  pose proof (binary_round_aux_near (xorb false false)
                (Zpos (m * 8972014882652160)) (e + -45)
                ltac:(lia) ltac:(lia) Hlt) as Hr.
  destruct (binary_round_aux prec emax (xorb false false)
              (Zpos (m * 8972014882652160)) (e + -45) loc_Exact)
    as [s|s| |s m2 e2] eqn:E; try contradiction.
  - intros [= <-].
    replace (- (e + -45) - 45) with (- e) in Hr by lia.
    rewrite HM in Hr. change (2 ^ 43) with 8796093022208 in HY.
    change (2 ^ 45) with 35184372088832 in *. lia.
  - destruct Hr as (He2 & Hm2 & Hn).
    assert (Hs : s = false).
    { revert E. unfold binary_round_aux.
      destruct (shr_fexp _ _ _ _ _) as [mrs1 e1].
      destruct (shr_fexp _ _ _ _ _) as [mrs2 e2'].
      destruct (shr_m mrs2); try discriminate.
      destruct (_ <=? _); [|discriminate]. intros [= <- _ _]. reflexivity. }
    subst s. intros [= <-].
    pose proof (round_half_even_near (Zpos m2) e2 ltac:(lia) ltac:(lia)) as Hv.
    set (v := round_half_even (Zpos m2) e2) in *.
    set (c := 2 ^ (e2 - (e + -45))) in *.
    assert (Hc0 : 0 < c) by (apply Z.pow_pos_nonneg; lia).
    assert (HcD : c * 2 ^ (- e2) = 2 ^ (- e) * 2 ^ 45).
    { unfold c. rewrite <- Z.pow_add_r, <- HX by lia. f_equal. lia. }
    assert (Hcle : c <= 2 ^ (- e)).
    { unfold c. apply Z.pow_le_mono_r; lia. }
    rewrite HM in Hn.
    set (X := 2 ^ (- e)) in *. set (Y := 2 ^ (- e - 43)) in *.
    set (D := 2 ^ (- e2)) in *.
    change (2 ^ 43) with 8796093022208 in HY.
    change (2 ^ 45) with 35184372088832 in *.
    assert (Hv' : 2 * Z.abs (v * D * c - Zpos m2 * c) <= D * c).
    { replace (v * D * c - Zpos m2 * c) with ((v * D - Zpos m2) * c) by ring.
      rewrite Z.abs_mul, (Z.abs_eq c) by lia. nia. }
    assert (Hfin : 2 * Z.abs (v * (X * 35184372088832) - 255 * Zpos m * 35184372088832)
                   <= X * 35184372088832 + 4 * X).
    { rewrite <- HcD. lia. }
    lia.
Qed.

Lemma round_clamp01_total d : exists v, py_round (clamp01 d * 255)%float = Ok v.
Proof. destruct (round_clamp01_range d) as (v & H & _). eauto. Qed.

Lemma default_val_total args : exists v, default_val args = Ok v.
Proof. apply round_clamp01_total. Qed.

Lemma default_val_range args v :
  default_val args = Ok v -> Image.is_uint8 v.
Proof.
  unfold default_val. destruct (round_clamp01_range (default_smoothness args))
    as (v' & -> & Hr). intros [= <-]. exact Hr.
Qed.

(** *** Files and loading *)

Lemma isfile_empty w : isfile w "" = false.
Proof. reflexivity. Qed.

Lemma open_decodable w p im :
  ImageFile.open w p = Ok im -> ImageFile.decodable im = true.
Proof.
  unfold ImageFile.open.
  destruct (lookup w p) as [[|[im'|]]|]; try discriminate.
  destruct (ImageFile.decodable im') eqn:E; [|discriminate].
  intros [= <-]. exact E.
Qed.

Lemma decodable_valid im :
  ImageFile.decodable im = true ->
  Image.valid im /\ 0 < Image.width im /\ 0 < Image.height im.
Proof.
  unfold ImageFile.decodable. rewrite !andb_true_iff, validb_valid, !Z.ltb_lt.
  tauto.
Qed.

Lemma to_gray_props img :
  Image.valid img ->
  Image.mode (to_gray img) = "L" /\ Image.size (to_gray img) = Image.size img
  /\ Image.valid (to_gray img).
Proof.
  intros Hv. unfold to_gray. split; [apply convert_mode|]. split.
  - rewrite convert_size. destruct (negb _); [apply convert_size | reflexivity].
  - apply convert_valid. destruct (negb _); [apply convert_valid|]; exact Hv.
Qed.

Lemma fit_props img_l sz :
  Image.valid img_l ->
  Image.mode (fit img_l sz) = Image.mode img_l /\ Image.size (fit img_l sz) = sz
  /\ Image.valid (fit img_l sz).
Proof.
  intros Hv. unfold fit.
  destruct (negb (Image.width img_l =? fst sz) || negb (Image.height img_l =? snd sz)) eqn:E.
  - split; [apply resize_mode|]. split; [apply resize_size | apply resize_valid, Hv].
  - apply orb_false_iff in E as [E1 E2].
    apply negb_false_iff, Z.eqb_eq in E1. apply negb_false_iff, Z.eqb_eq in E2.
    split; [reflexivity|]. split; [|exact Hv].
    unfold Image.width, Image.height in *. destruct (Image.size img_l), sz.
    simpl in *. congruence.
Qed.

(** A raster that has the target size already is passed on as it is,
    any other is resampled. *)
Lemma fit_same img_l : fit img_l (Image.size img_l) = img_l.
Proof.
  unfold fit, Image.width, Image.height. rewrite !Z.eqb_refl. reflexivity.
Qed.

Lemma fit_resampled img_l sz :
  Image.size img_l <> sz -> fit img_l sz = resize img_l sz.
Proof.
  intros Hne. unfold fit.
  destruct (negb (Image.width img_l =? fst sz) || negb (Image.height img_l =? snd sz)) eqn:E;
    [reflexivity|].
  apply orb_false_iff in E as [E1 E2].
  apply negb_false_iff, Z.eqb_eq in E1. apply negb_false_iff, Z.eqb_eq in E2.
  exfalso. apply Hne. unfold Image.width, Image.height in *.
  destruct (Image.size img_l), sz. simpl in *. congruence.
Qed.

(** [read_grayscale] on a given path, case by case. *)
Lemma read_grayscale_missing w p fb t :
  isfile w p = false ->
  read_grayscale w (Some p) fb t
  = Raise (FileNotFoundError ("Input image not found: " ++ p)).
Proof. intros H. unfold read_grayscale. rewrite H. reflexivity. Qed.

Lemma read_grayscale_file w p fb sz :
  isfile w p = true ->
  read_grayscale w (Some p) fb (Some sz)
  = (img <~ ImageFile.open w p ;; Ok (fit (to_gray img) sz)).
Proof.
  intros H. unfold read_grayscale. rewrite H. simpl.
  destruct (ImageFile.open w p) as [img|e]; [|reflexivity]. simpl.
  unfold fit, to_gray. destruct (_ || _); reflexivity.
Qed.

Lemma read_grayscale_Some_inv w p fb sz im :
  read_grayscale w (Some p) fb (Some sz) = Ok im ->
  isfile w p = true /\
  exists img, ImageFile.open w p = Ok img /\ im = fit (to_gray img) sz.
Proof.
  intros H. destruct (isfile w p) eqn:E.
  - split; [reflexivity|]. rewrite read_grayscale_file in H by exact E.
    destruct (ImageFile.open w p) as [img|e]; [|discriminate].
    simpl in H. injection H as <-. eauto.
  - rewrite read_grayscale_missing in H by exact E. discriminate.
Qed.

Lemma read_grayscale_None w fb sz :
  0 <= fst sz -> 0 <= snd sz ->
  read_grayscale w None fb (Some sz) = Ok (Image.solid "L" sz fb).
Proof.
  intros H0 H1. unfold read_grayscale, Image.new.
  replace (fst sz <? 0) with false by (symmetry; apply Z.ltb_ge; exact H0).
  replace (snd sz <? 0) with false by (symmetry; apply Z.ltb_ge; exact H1).
  reflexivity.
Qed.

(** Whatever [read_grayscale] returns for a target size is a
    well-formed single-band raster of that size. *)
Lemma read_grayscale_props w path fb sz im :
  read_grayscale w path fb (Some sz) = Ok im ->
  Image.mode im = "L" /\ Image.size im = sz /\ Image.valid im.
Proof.
  destruct path as [p|].
  - intros H. apply read_grayscale_Some_inv in H as (_ & img & Ho & ->).
    apply open_decodable, decodable_valid in Ho as (Hv & _).
    destruct (to_gray_props img Hv) as (Hm & _ & Hv').
    destruct (fit_props (to_gray img) sz Hv') as (Hm' & Hs' & Hv'').
    split; [congruence|]. split; assumption.
  - unfold read_grayscale, Image.new. destruct (_ || _); [discriminate|].
    intros [= <-]. split; [reflexivity|]. split; [reflexivity|apply solid_valid].
Qed.


(** *** The target size *)

Lemma candidate_fold args attrs acc :
  fold_left
    (fun acc attr =>
       if hasattr args attr then
         match field args attr with
         | Some p => if negb (String.eqb p "") then (acc ++ [p])%list else acc
         | None => acc
         end
       else acc) attrs acc
  = (acc ++ List.filter (fun p => negb (String.eqb p "")) (omap (getattr args) attrs))%list.
Proof.
  revert acc. induction attrs as [|a attrs IH]; intros acc; simpl.
  - symmetry. apply app_nil_r.
  - rewrite IH. unfold getattr at 2.
    destruct (hasattr args a); [|reflexivity].
    destruct (field args a) as [p|]; [|reflexivity]. simpl.
    destruct (negb (String.eqb p "")); [|reflexivity].
    rewrite <- app_assoc. reflexivity.
Qed.

(** The loop of [main] keeps the supplied paths that are not empty. *)
Lemma candidate_paths_supplied args :
  candidate_paths args
  = List.filter (fun p => negb (String.eqb p "")) (supplied_paths args).
Proof. unfold candidate_paths. rewrite candidate_fold. reflexivity. Qed.

Lemma determine_target_size_find w paths :
  determine_target_size w paths
  = match List.find (isfile w) paths with
    | Some p => im <~ ImageFile.open w p ;; Ok (Image.width im, Image.height im)
    | None => Ok (1024, 1024)
    end.
Proof.
  induction paths as [|p paths IH]; simpl; [reflexivity|].
  destruct (String.eqb p "") eqn:E.
  - apply String.eqb_eq in E. subst p. rewrite isfile_empty. simpl. exact IH.
  - simpl. destruct (isfile w p); [reflexivity | exact IH].
Qed.

Lemma find_isfile_nonempty w paths :
  List.find (isfile w) (List.filter (fun p => negb (String.eqb p "")) paths)
  = List.find (isfile w) paths.
Proof.
  induction paths as [|p paths IH]; simpl; [reflexivity|].
  destruct (String.eqb p "") eqn:E; simpl.
  - apply String.eqb_eq in E. subst p. rewrite isfile_empty. exact IH.
  - destruct (isfile w p); [reflexivity | exact IH].
Qed.

Lemma target_size_positive w paths sz :
  determine_target_size w paths = Ok sz -> 0 < fst sz /\ 0 < snd sz.
Proof.
  rewrite determine_target_size_find.
  destruct (List.find (isfile w) paths) as [p|].
  - destruct (ImageFile.open w p) as [im|e] eqn:Ho; [|discriminate].
    simpl. intros [= <-].
    apply open_decodable, decodable_valid in Ho. simpl. tauto.
  - intros [= <-]. simpl. lia.
Qed.

(** *** Inversion and composition *)

Lemma ensure_uint8_L im : Image.mode im = "L" -> ensure_uint8 im = im.
Proof. intros H. unfold ensure_uint8. rewrite H. reflexivity. Qed.

Lemma invert_l_bands im :
  Image.mode im = "L" -> Image.valid im ->
  Image.bands (invert_l im) = map (map (fun v => 255 - v)) (Image.bands im).
Proof.
  intros Hm Hv. unfold invert_l. rewrite ensure_uint8_L by exact Hm.
  rewrite eval_bands by exact Hv.
  destruct Hv as [_ Hb].
  induction Hb as [|p bs [_ Hp] Hb IH]; simpl; [reflexivity|].
  rewrite IH. f_equal. apply map_ext_Forall_uint8; [|exact Hp].
  intros v Hv. apply clip8_id. unfold Image.is_uint8 in *. lia.
Qed.

Lemma invert_l_props im :
  Image.mode im = "L" -> Image.valid im ->
  Image.mode (invert_l im) = "L" /\ Image.size (invert_l im) = Image.size im
  /\ Image.valid (invert_l im).
Proof.
  intros Hm Hv. unfold invert_l. rewrite ensure_uint8_L by exact Hm.
  split; [exact Hm|]. split; [reflexivity | apply eval_valid, Hv].
Qed.

Lemma compose_rgba_L r g b a sz :
  Image.mode r = "L" -> Image.mode g = "L" ->
  Image.mode b = "L" -> Image.mode a = "L" ->
  Image.size r = sz -> Image.size g = sz ->
  Image.size b = sz -> Image.size a = sz ->
  compose_rgba r g b a
  = Ok (Image.mk "RGBA" sz [Image.plane r; Image.plane g; Image.plane b; Image.plane a]).
Proof.
  intros Hr Hg Hb Ha Sr Sg Sb Sa. unfold compose_rgba.
  rewrite !ensure_uint8_L by assumption.
  unfold Image.merge. simpl. rewrite Hr, Hg, Hb, Ha. simpl.
  rewrite Sr, Sg, Sb, Sa. rewrite !bool_decide_eq_true_2 by reflexivity.
  reflexivity.
Qed.


(** *** The smoothness channel *)

Lemma truthy_Some s : truthy (Some s) = true <-> s <> "".
Proof.
  simpl. rewrite negb_true_iff. split.
  - intros H ->. discriminate.
  - intros H. apply String.eqb_neq, H.
Qed.

Lemma getattr_smoothness args : getattr args Smoothness = smoothness args.
Proof. unfold getattr, hasattr. destruct (mode args); reflexivity. Qed.

Lemma getattr_roughness args : getattr args Roughness = roughness args.
Proof. unfold getattr, hasattr. destruct (mode args); reflexivity. Qed.

Lemma resolve_smoothness_smooth w args sz :
  truthy (smoothness args) = true ->
  resolve_smoothness w args sz
  = read_grayscale w (smoothness args) 0 (Some sz).
Proof.
  intros H. unfold resolve_smoothness. rewrite getattr_smoothness, H.
  destruct (default_val_total args) as [v ->]. simpl.
  destruct (smoothness args); [reflexivity | discriminate].
Qed.

Lemma resolve_smoothness_rough w args sz :
  truthy (smoothness args) = false -> truthy (roughness args) = true ->
  resolve_smoothness w args sz
  = (rough_l <~ read_grayscale w (roughness args) 0 (Some sz) ;;
     Ok (if invert_roughness args then invert_l rough_l else rough_l)).
Proof.
  intros Hs Hr. unfold resolve_smoothness.
  rewrite getattr_smoothness, getattr_roughness, Hs, Hr.
  destruct (read_grayscale w (roughness args) 0 (Some sz)); simpl; [|reflexivity].
  destruct (invert_roughness args); reflexivity.
Qed.

Lemma resolve_smoothness_const w args sz :
  truthy (smoothness args) = false -> truthy (roughness args) = false ->
  resolve_smoothness w args sz
  = (v <~ default_val args ;; Image.new "L" sz v).
Proof.
  intros Hs Hr. unfold resolve_smoothness.
  rewrite getattr_smoothness, getattr_roughness, Hs, Hr. reflexivity.
Qed.

Lemma new_props m sz c im :
  Image.new m sz c = Ok im ->
  im = Image.solid m sz c /\ 0 <= fst sz /\ 0 <= snd sz.
Proof.
  unfold Image.new. destruct (fst sz <? 0) eqn:E0; [discriminate|].
  destruct (snd sz <? 0) eqn:E1; [discriminate|]. simpl.
  intros [= <-]. apply Z.ltb_ge in E0, E1. auto.
Qed.

Lemma new_ok m sz c :
  0 <= fst sz -> 0 <= snd sz -> Image.new m sz c = Ok (Image.solid m sz c).
Proof.
  intros H0 H1. unfold Image.new.
  replace (fst sz <? 0) with false by (symmetry; apply Z.ltb_ge; exact H0).
  replace (snd sz <? 0) with false by (symmetry; apply Z.ltb_ge; exact H1).
  reflexivity.
Qed.

Lemma resolve_smoothness_props w args sz im :
  resolve_smoothness w args sz = Ok im ->
  Image.mode im = "L" /\ Image.size im = sz /\ Image.valid im.
Proof.
  destruct (truthy (smoothness args)) eqn:Hs.
  - rewrite resolve_smoothness_smooth by exact Hs. apply read_grayscale_props.
  - destruct (truthy (roughness args)) eqn:Hr.
    + rewrite resolve_smoothness_rough by assumption.
      destruct (read_grayscale w (roughness args) 0 (Some sz)) as [rough|e] eqn:E;
        [|discriminate].
      apply read_grayscale_props in E as (Hm & Hz & Hv). simpl.
      destruct (invert_roughness args); intros [= <-]; [|auto].
      destruct (invert_l_props rough Hm Hv) as (Hm' & Hz' & Hv').
      split; [exact Hm'|]. split; [congruence | exact Hv'].
    + rewrite resolve_smoothness_const by assumption.
      destruct (default_val args) as [v|e]; [|discriminate]. simpl.
      intros H. apply new_props in H as [-> _].
      split; [reflexivity|]. split; [reflexivity | apply solid_valid].
Qed.

(** *** The four channels and the composed image *)

Lemma channels_props w args sz r g b a :
  channels w args sz = Ok (r, g, b, a) ->
  channel_ok sz r /\ channel_ok sz g /\ channel_ok sz b /\ channel_ok sz a.
Proof.
  unfold channels, channel_ok.
  destruct (mode args).
  - destruct (read_grayscale w (metallic args) 0 (Some sz)) as [m|] eqn:E1; [|discriminate].
    destruct (read_grayscale w (occlusion args) 255 (Some sz)) as [o|] eqn:E2; [|discriminate].
    destruct (read_grayscale w (getattr args Height) 128 (Some sz)) as [h|] eqn:E3; [|discriminate].
    destruct (resolve_smoothness w args sz) as [s|] eqn:E4; [|discriminate].
    simpl. intros [= <- <- <- <-].
    apply read_grayscale_props in E1, E2, E3. apply resolve_smoothness_props in E4.
    auto.
  - destruct (read_grayscale w (metallic args) 0 (Some sz)) as [m|] eqn:E1; [|discriminate].
    destruct (read_grayscale w (occlusion args) 255 (Some sz)) as [o|] eqn:E2; [|discriminate].
    destruct (read_grayscale w (getattr args Detail) 255 (Some sz)) as [h|] eqn:E3; [|discriminate].
    destruct (resolve_smoothness w args sz) as [s|] eqn:E4; [|discriminate].
    simpl. intros [= <- <- <- <-].
    apply read_grayscale_props in E1, E2, E3. apply resolve_smoothness_props in E4.
    auto.
  - destruct (read_grayscale w (metallic args) 0 (Some sz)) as [m|] eqn:E1; [|discriminate].
    destruct (resolve_smoothness w args sz) as [s|] eqn:E4; [|discriminate].
    simpl. destruct (Image.new "L" sz 0) as [z|] eqn:E2; [|discriminate].
    simpl. intros [= <- <- <- <-].
    apply read_grayscale_props in E1. apply resolve_smoothness_props in E4.
    apply new_props in E2 as [-> _].
    pose proof (solid_valid "L" sz 0). auto 10.
Qed.

(** [main] composes the four channels and hands the image to
    [save_png]; nothing is written before. *)
Lemma main_packed args w :
  main args w
  = match packed_image w args with
    | Ok out_img => (_ <- save_png out_img (out args) ;; ret 0) w
    | Raise e => (Raise e, w)
    end.
Proof.
  unfold main, packed_image, channels, bind, inspect.
  destruct (determine_target_size w (candidate_paths args)) as [sz|]; [|reflexivity].
  simpl. destruct (mode args).
  - destruct (read_grayscale w (metallic args) 0 (Some sz)); [|reflexivity]. simpl.
    destruct (read_grayscale w (occlusion args) 255 (Some sz)); [|reflexivity]. simpl.
    destruct (read_grayscale w (getattr args Height) 128 (Some sz)); [|reflexivity]. simpl.
    destruct (resolve_smoothness w args sz); [|reflexivity]. simpl.
    destruct (compose_rgba _ _ _ _); reflexivity.
  - destruct (read_grayscale w (metallic args) 0 (Some sz)); [|reflexivity]. simpl.
    destruct (read_grayscale w (occlusion args) 255 (Some sz)); [|reflexivity]. simpl.
    destruct (read_grayscale w (getattr args Detail) 255 (Some sz)); [|reflexivity]. simpl.
    destruct (resolve_smoothness w args sz); [|reflexivity]. simpl.
    destruct (compose_rgba _ _ _ _); reflexivity.
  - destruct (read_grayscale w (metallic args) 0 (Some sz)); [|reflexivity]. simpl.
    destruct (resolve_smoothness w args sz); [|reflexivity]. simpl.
    destruct (Image.new "L" sz 0); [|reflexivity]. simpl.
    destruct (compose_rgba _ _ _ _); reflexivity.
Qed.


(** *** Inversion (C10, C2) *)

Lemma map_map_invert (p : list Z) :
  map (fun v => 255 - v) (map (fun v => 255 - v) p) = p.
Proof.
  induction p as [|v p IH]; simpl; [reflexivity|].
  rewrite IH. f_equal. lia.
Qed.

(** C10: channel inversion is an involution.  For every 8-bit
    single-channel raster [c] (mode ["L"], well-formed),
    [invert_l (invert_l c)] is [c] itself: same mode, same size, the
    same value at every pixel. *)
Theorem invert_l_involutive (c : Image.t) :
  Image.mode c = "L" -> Image.valid c -> invert_l (invert_l c) = c.
Proof.
  intros Hm Hv.
  destruct (invert_l_props c Hm Hv) as (Hm' & Hs' & Hv').
  pose proof (invert_l_bands (invert_l c) Hm' Hv') as Hb.
  rewrite (invert_l_bands c Hm Hv) in Hb.
  assert (Hbands : Image.bands (invert_l (invert_l c)) = Image.bands c).
  { rewrite Hb. clear. induction (Image.bands c) as [|p bs IH]; simpl; [reflexivity|].
    rewrite IH, map_map_invert. reflexivity. }
  destruct (invert_l_props (invert_l c) Hm' Hv') as (Hm'' & Hs'' & _).
  destruct (invert_l (invert_l c)) as [m2 s2 b2], c as [m0 s0 b0].
  simpl in *. congruence.
Qed.

(** The sample at a pixel of an inverted single-band raster. *)
Lemma getpixel_inverted (a rough : Image.t) (x y : Z) :
  Image.mode rough = "L" -> Image.valid rough ->
  Image.size a = Image.size rough ->
  Image.bands a = map (map (fun v => 255 - v)) (Image.bands rough) ->
  0 <= x < Image.width rough -> 0 <= y < Image.height rough ->
  Image.getpixel a 0 x y = 255 - Image.getpixel rough 0 x y.
Proof.
  intros Hm [Hn Hp] Hsz Hb Hx Hy. unfold Image.getpixel, Image.width in *.
  rewrite Hb, Hsz. rewrite Hm in Hn.
  destruct (Image.bands rough) as [|p [|q bs]]; try discriminate.
  apply Forall_inv in Hp as [Hlen _]. simpl.
  set (i := Z.to_nat (y * fst (Image.size rough) + x)).
  assert (Hi : (i < length p)%nat).
  { rewrite Hlen. unfold i, Image.area, Image.height in *.
    apply Z2Nat.inj_lt; nia. }
  rewrite (nth_indep _ 0 (255 - 0)) by (rewrite length_map; exact Hi).
  apply (map_nth (fun v => 255 - v)).
Qed.

(** C2: the roughness inversion law.  When a roughness path is
    supplied and no smoothness path is, and the roughness image loads
    as the channel [rough], the resolved smoothness channel has the size
    of [rough] and, at every pixel, the value [255 - v] when
    [--invert-roughness] is set and the value [v] unchanged when it is
    not, [v] being the value of [rough] at that pixel. *)
Theorem roughness_inversion (w : fs) (args : Namespace) (sz : Z * Z)
    (r : string) (rough : Image.t) :
  smoothness args = None ->
  roughness args = Some r ->
  read_grayscale w (Some r) 0 (Some sz) = Ok rough ->
  exists a,
    resolve_smoothness w args sz = Ok a /\
    Image.mode a = "L" /\ Image.size a = Image.size rough /\
    forall x y,
      0 <= x < Image.width rough -> 0 <= y < Image.height rough ->
      Image.getpixel a 0 x y
      = if invert_roughness args
        then 255 - Image.getpixel rough 0 x y
        else Image.getpixel rough 0 x y.
Proof.
  intros Hs Hr Hread.
  assert (Ht : truthy (roughness args) = true).
  { rewrite Hr. apply truthy_Some. intros ->.
    apply read_grayscale_Some_inv in Hread as [Hf _].
    rewrite isfile_empty in Hf. discriminate. }
  rewrite resolve_smoothness_rough by (rewrite ?Hs; auto).
  rewrite Hr, Hread. simpl.
  apply read_grayscale_props in Hread as (Hm & Hz & Hv).
  destruct (invert_roughness args).
  - exists (invert_l rough). split; [reflexivity|].
    destruct (invert_l_props rough Hm Hv) as (Hm' & Hz' & _).
    split; [exact Hm'|]. split; [exact Hz'|].
    intros x y Hx Hy. apply getpixel_inverted; try assumption.
    apply invert_l_bands; assumption.
  - exists rough. auto.
Qed.

(** *** Smoothness before roughness (C1) *)

(** C1, amended: the smoothness priority law.  When a smoothness path
    that is not the empty string is supplied, the resolved 4th channel
    is the loaded smoothness channel, whatever roughness path and
    [--invert-roughness] flag come with it: replacing them changes
    nothing.  When the smoothness path supplied is the empty string, it
    counts as not supplied: the channel is what it is without the
    smoothness option, and a roughness path that is not empty is loaded
    and used, inverted when the flag is set. *)
Theorem smoothness_priority (w : fs) (args : Namespace) (sz : Z * Z)
    (s : string) :
  smoothness args = Some s ->
  (s <> "" ->
   resolve_smoothness w args sz = read_grayscale w (Some s) 0 (Some sz) /\
   forall r inv,
     resolve_smoothness w (with_roughness args r inv) sz
     = resolve_smoothness w args sz)
  /\ (s = "" ->
      resolve_smoothness w args sz
      = resolve_smoothness w (with_smoothness args None) sz /\
      forall r,
        roughness args = Some r -> r <> "" ->
        resolve_smoothness w args sz
        = (rough_l <~ read_grayscale w (Some r) 0 (Some sz) ;;
           Ok (if invert_roughness args then invert_l rough_l else rough_l))).
Proof.
  intros Hs. split.
  - intros Hne.
    assert (Ht : truthy (smoothness args) = true)
      by (rewrite Hs; apply truthy_Some, Hne).
    split.
    + rewrite resolve_smoothness_smooth by exact Ht. rewrite Hs. reflexivity.
    + intros r inv. rewrite !resolve_smoothness_smooth by exact Ht. reflexivity.
  - intros ->.
    assert (Ht : truthy (smoothness args) = false) by (rewrite Hs; reflexivity).
    split.
    + destruct (truthy (roughness args)) eqn:Er.
      * rewrite !resolve_smoothness_rough by (assumption || reflexivity).
        reflexivity.
      * rewrite !resolve_smoothness_const by (assumption || reflexivity).
        reflexivity.
    + intros r Hr Hne.
      assert (Er : truthy (roughness args) = true)
        by (rewrite Hr; apply truthy_Some, Hne).
      rewrite resolve_smoothness_rough by assumption. rewrite Hr. reflexivity.
Qed.


(** *** Writing the result *)

Lemma save_ok img p w w' :
  ImageFile.save img p w = (Ok tt, w') ->
  w' !! p = Some (File (ImageData img)).
Proof.
  unfold ImageFile.save.
  destruct (String.eqb p ""); [discriminate|].
  destruct (ends_with_sep p || isdir w p); [discriminate|].
  destruct (check_parent w p); [|discriminate].
  destruct (ImageFile.png_mode (Image.mode img)); [|discriminate].
  intros [= <-]. apply lookup_insert_eq.
Qed.

Lemma save_png_ok img p w w' :
  save_png img p w = (Ok tt, w') ->
  w' !! p = Some (File (ImageData img)).
Proof.
  unfold save_png, bind.
  destruct (OSOps.makedirs (dirname p) true w) as [[[]|e] w1]; [|discriminate].
  apply save_ok.
Qed.

(** A run that ends normally returns 0 and leaves the composed image
    in the output file. *)
Lemma main_ok args w code w' :
  main args w = (Ok code, w') ->
  code = 0 /\
  exists out_img,
    packed_image w args = Ok out_img /\
    w' !! out args = Some (File (ImageData out_img)).
Proof.
  rewrite main_packed.
  destruct (packed_image w args) as [out_img|e]; [|discriminate].
  unfold bind, ret.
  destruct (save_png out_img (out args) w) as [[[]|e] w1] eqn:E; [|discriminate].
  intros [= <- <-]. split; [reflexivity|].
  exists out_img. split; [reflexivity|]. eapply save_png_ok, E.
Qed.

(** A run that fails before composition leaves the file system as it
    was. *)
Lemma main_not_packed args w e :
  packed_image w args = Raise e -> main args w = (Raise e, w).
Proof. intros H. rewrite main_packed, H. reflexivity. Qed.

Lemma packed_image_inv w args out_img :
  packed_image w args = Ok out_img ->
  exists sz r g b a,
    determine_target_size w (candidate_paths args) = Ok sz /\
    channels w args sz = Ok (r, g, b, a) /\
    out_img = Image.mk "RGBA" sz [Image.plane r; Image.plane g; Image.plane b; Image.plane a].
Proof.
  unfold packed_image.
  destruct (determine_target_size w (candidate_paths args)) as [sz|]; [|discriminate].
  simpl. destruct (channels w args sz) as [[[[r g] b] a]|] eqn:E; [|discriminate].
  simpl. intros H.
  destruct (channels_props w args sz r g b a E)
    as ((Mr & Sr & _) & (Mg & Sg & _) & (Mb & Sb & _) & (Ma & Sa & _)).
  rewrite (compose_rgba_L r g b a sz) in H by assumption.
  injection H as <-. exists sz, r, g, b, a. auto.
Qed.

Lemma open_isfile w p img : ImageFile.open w p = Ok img -> isfile w p = true.
Proof.
  unfold ImageFile.open, isfile.
  destruct (lookup w p) as [[|c]|]; try discriminate. reflexivity.
Qed.

(** *** The target resolution (C3) *)

(** C3: the target resolution is the (width, height) of the first
    supplied path that exists on disk, the candidates being taken in
    the order metallic, occlusion, height, detail, smoothness,
    roughness, and 1024x1024 when none exists; a loaded channel comes
    out at the target size, resampled when the decoded image has
    another size and as it is otherwise; the composed image has the
    target size. *)
Theorem target_resolution (w : fs) (args : Namespace) :
  determine_target_size w (candidate_paths args)
  = match List.find (isfile w) (supplied_paths args) with
    | Some p => im <~ ImageFile.open w p ;; Ok (Image.width im, Image.height im)
    | None => Ok (1024, 1024)
    end
  /\ (forall p fb sz img,
        ImageFile.open w p = Ok img ->
        read_grayscale w (Some p) fb (Some sz) = Ok (fit (to_gray img) sz)
        /\ Image.size (fit (to_gray img) sz) = sz
        /\ (Image.size img <> sz -> fit (to_gray img) sz = resize (to_gray img) sz)
        /\ (Image.size img = sz -> fit (to_gray img) sz = to_gray img))
  /\ (forall sz out_img,
        determine_target_size w (candidate_paths args) = Ok sz ->
        packed_image w args = Ok out_img ->
        Image.size out_img = sz).
Proof.
  split; [|split].
  - rewrite determine_target_size_find, candidate_paths_supplied.
    rewrite find_isfile_nonempty. reflexivity.
  - intros p fb sz img Ho.
    pose proof (open_isfile w p img Ho) as Hf.
    pose proof Ho as Hd. apply open_decodable, decodable_valid in Hd as (Hv & _).
    destruct (to_gray_props img Hv) as (_ & Hs & Hv').
    split; [rewrite read_grayscale_file, Ho by exact Hf; reflexivity|].
    split; [apply fit_props, Hv'|]. split.
    + intros Hne. apply fit_resampled. congruence.
    + intros <-. rewrite <- Hs. apply fit_same.
  - intros sz out_img Hsz Hp.
    apply packed_image_inv in Hp as (sz' & r & g & b & a & Hsz' & _ & ->).
    simpl. congruence.
Qed.

(** *** Composition (C5) *)

(** C5: each of the four single-channel rasters handed to composition
    has exactly the target resolution of the run, and composing four
    single-channel rasters of one resolution [sz] gives one raster of
    four components and resolution [sz] whose channel [i] is input
    raster [i]. *)
Theorem composition_invariant :
  (forall w args sz r g b a,
      channels w args sz = Ok (r, g, b, a) ->
      Image.size r = sz /\ Image.size g = sz /\
      Image.size b = sz /\ Image.size a = sz)
  /\ (forall r g b a sz,
        channel_ok sz r -> channel_ok sz g -> channel_ok sz b -> channel_ok sz a ->
        exists out_img,
          compose_rgba r g b a = Ok out_img /\
          Image.mode out_img = "RGBA" /\ Image.size out_img = sz /\
          Image.bands out_img
          = [Image.plane r; Image.plane g; Image.plane b; Image.plane a]).
Proof.
  split.
  - intros w args sz r g b a H.
    destruct (channels_props w args sz r g b a H)
      as ((_ & Sr & _) & (_ & Sg & _) & (_ & Sb & _) & (_ & Sa & _)).
    auto.
  - intros r g b a sz (Mr & Sr & _) (Mg & Sg & _) (Mb & Sb & _) (Ma & Sa & _).
    eexists. split; [apply compose_rgba_L; eassumption|]. auto.
Qed.


(** *** The unused channels of urp-ra (C7) *)

Lemma plane_solid sz c :
  Image.plane (Image.solid "L" sz c) = replicate (Image.area sz) (Image.clip8 c).
Proof. reflexivity. Qed.

(** C7: in urp-ra mode, whatever the inputs, the 2nd (G) and 3rd (B)
    channel of the composed image are 0 at every pixel, and a run that
    ends normally has written that image to the output path. *)
Theorem urp_ra_unused_channels (w : fs) (args : Namespace) :
  mode args = UrpRa ->
  (forall out_img,
      packed_image w args = Ok out_img ->
      Image.mode out_img = "RGBA" /\
      nth 1 (Image.bands out_img) [] = replicate (Image.area (Image.size out_img)) 0 /\
      nth 2 (Image.bands out_img) [] = replicate (Image.area (Image.size out_img)) 0)
  /\ (forall code w',
        main args w = (Ok code, w') ->
        exists out_img,
          packed_image w args = Ok out_img /\
          w' !! out args = Some (File (ImageData out_img))).
Proof.
  intros Hmode. split.
  - intros out_img Hp.
    apply packed_image_inv in Hp as (sz & r & g & b & a & _ & Hc & ->).
    unfold channels in Hc. rewrite Hmode in Hc.
    destruct (read_grayscale w (metallic args) 0 (Some sz)); [|discriminate].
    destruct (resolve_smoothness w args sz); [|discriminate].
    simpl in Hc. destruct (Image.new "L" sz 0) as [z|] eqn:E; [|discriminate].
    apply new_props in E as [-> _].
    simpl in Hc. injection Hc as <- <- <- <-.
    split; [reflexivity|]. split; reflexivity.
  - intros code w' Hrun. apply main_ok in Hrun as [_ H]. exact H.
Qed.

(** *** No inputs at all (C4) *)

Lemma supplied_none args :
  supplied_paths args = [] -> forall a, getattr args a = None.
Proof.
  unfold supplied_paths. simpl. intros H a.
  destruct (getattr args Metallic) eqn:E1; [discriminate|].
  destruct (getattr args Occlusion) eqn:E2; [discriminate|].
  destruct (getattr args Height) eqn:E3; [discriminate|].
  destruct (getattr args Detail) eqn:E4; [discriminate|].
  destruct (getattr args Smoothness) eqn:E5; [discriminate|].
  destruct (getattr args Roughness) eqn:E6; [discriminate|].
  destruct a; assumption.
Qed.



Lemma compose_solids sz c1 c2 c3 c4 :
  Image.is_uint8 c1 -> Image.is_uint8 c2 ->
  Image.is_uint8 c3 -> Image.is_uint8 c4 ->
  compose_rgba (Image.solid "L" sz c1) (Image.solid "L" sz c2)
    (Image.solid "L" sz c3) (Image.solid "L" sz c4)
  = Ok (uniform_rgba sz c1 c2 c3 c4).
Proof.
  intros H1 H2 H3 H4.
  rewrite (compose_rgba_L _ _ _ _ sz) by reflexivity.
  rewrite !plane_solid, !clip8_id by assumption. reflexivity.
Qed.

Lemma no_inputs_channels w args sz v :
  supplied_paths args = [] ->
  0 <= fst sz -> 0 <= snd sz ->
  default_val args = Ok v ->
  channels w args sz
  = let '(c1, c2, c3) := fallback_constants (mode args) in
    Ok (Image.solid "L" sz c1, Image.solid "L" sz c2,
        Image.solid "L" sz c3, Image.solid "L" sz v).
Proof.
  intros Hnone H0 H1 Hv.
  pose proof (supplied_none args Hnone) as Hg.
  assert (Hsm : resolve_smoothness w args sz = Ok (Image.solid "L" sz v)).
  { pose proof (Hg Smoothness) as Hs. pose proof (Hg Roughness) as Hr.
    rewrite getattr_smoothness in Hs. rewrite getattr_roughness in Hr.
    rewrite resolve_smoothness_const by (rewrite ?Hs, ?Hr; reflexivity).
    rewrite Hv. simpl. apply new_ok; assumption. }
  assert (Hm : metallic args = None).
  { pose proof (Hg Metallic) as H. unfold getattr, hasattr in H.
    destruct (mode args); exact H. }
  unfold channels. rewrite Hm, Hsm.
  pose proof (Hg Occlusion) as Ho. pose proof (Hg Height) as Hh.
  pose proof (Hg Detail) as Hd. unfold getattr, hasattr in Ho.
  destruct (mode args) eqn:Emode; cbn [fallback_constants]; cbn in Ho.
  - rewrite Ho, Hh, !read_grayscale_None by assumption. reflexivity.
  - rewrite Ho, Hd, !read_grayscale_None by assumption. reflexivity.
  - rewrite read_grayscale_None, new_ok by assumption. reflexivity.
Qed.

Lemma default_val_level args v :
  default_val args = Ok v -> smoothness_level (default_smoothness args) v.
Proof.
  unfold default_val. intros Hv.
  destruct (round_clamp01_range (default_smoothness args)) as (v' & Hv' & Hr).
  assert (v' = v) by congruence. subst v'.
  split; [exact Hr|]. split; [|split].
  - intros H1. unfold clamp01, py_min, py_max in Hv. rewrite H1 in Hv.
    vm_compute in Hv. congruence.
  - intros H1 H0. unfold clamp01, py_min, py_max in Hv. rewrite H1, H0 in Hv.
    vm_compute in Hv. congruence.
  - intros m e Hd H1. apply (round_clamp01_near _ m e v Hd H1 Hv).
Qed.

(** C4: with no channel input path supplied at all, the composed
    image is 1024x1024 and every channel is uniform: the first three
    at the fallback constant of the mode, the A channel at
    [round(clamp(default_smoothness, 0, 1) * 255)], which is the value
    the code computes and is the level [smoothness_level] describes
    (255 from 1.0 upwards, 0 from 0.0 downwards, the integer nearest to
    255 times the float in between), and [main] hands exactly this
    image to [save_png]; for urp-terrain with default smoothness 0.5 the
    channels are R=0, G=255, B=128, A=128. *)
Theorem no_inputs_defaults (w : fs) (args : Namespace) :
  supplied_paths args = [] ->
  (exists v,
      default_val args = Ok v /\
      smoothness_level (default_smoothness args) v /\
      let '(c1, c2, c3) := fallback_constants (mode args) in
      packed_image w args = Ok (uniform_rgba (1024, 1024) c1 c2 c3 v) /\
      main args w
      = (_ <- save_png (uniform_rgba (1024, 1024) c1 c2 c3 v) (out args) ;; ret 0) w)
  /\ (mode args = UrpTerrain -> default_smoothness args = 0.5%float ->
      packed_image w args = Ok (uniform_rgba (1024, 1024) 0 255 128 128)).
Proof.
  intros Hnone.
  destruct (default_val_total args) as [v Hv].
  pose proof (default_val_range args v Hv) as Hr.
  assert (Hsz : determine_target_size w (candidate_paths args) = Ok (1024, 1024)).
  { rewrite candidate_paths_supplied, Hnone. reflexivity. }
  assert (Hp : let '(c1, c2, c3) := fallback_constants (mode args) in
               packed_image w args = Ok (uniform_rgba (1024, 1024) c1 c2 c3 v)).
  { unfold packed_image. rewrite Hsz. cbn [res_bind].
    rewrite (no_inputs_channels w args (1024, 1024) v Hnone) by (simpl; lia || exact Hv).
    unfold Image.is_uint8 in Hr.
    destruct (mode args); cbn [fallback_constants res_bind];
      apply compose_solids; unfold Image.is_uint8; lia. }
  split.
  - exists v. split; [exact Hv|]. split; [apply default_val_level, Hv|].
    destruct (fallback_constants (mode args)) as [[c1 c2] c3].
    split; [exact Hp|]. rewrite main_packed, Hp. reflexivity.
  - intros Hmode Hhalf.
    assert (Hv' : default_val args = Ok 128).
    { unfold default_val. rewrite Hhalf. reflexivity. }
    assert (E : v = 128) by congruence. subst v.
    rewrite Hmode in Hp. exact Hp.
Qed.


(** *** Writing to a bare file name (C9) *)

(** [os.makedirs("")] raises: there is no directory of that name to
    create, and none to forgive. *)
Lemma makedirs_empty exist_ok w :
  OSOps.makedirs "" exist_ok w = (Raise (FileNotFoundError ""), w).
Proof. unfold OSOps.makedirs. simpl. destruct exist_ok; reflexivity. Qed.

(** C9, at the failing input: for the output path ["out.png"], and
    for every output path without a directory part, [save_png] raises
    [FileNotFoundError] from [os.makedirs("")] and writes nothing, so a
    run that composed its image ends with that error, the file system
    unchanged. *)
Theorem save_png_bare_filename (img : Image.t) (w : fs) :
  save_png img "out.png" w = (Raise (FileNotFoundError ""), w)
  /\ (forall out_path,
        dirname out_path = "" ->
        save_png img out_path w = (Raise (FileNotFoundError ""), w))
  /\ (forall args,
        dirname (out args) = "" ->
        packed_image w args = Ok img ->
        main args w = (Raise (FileNotFoundError ""), w)).
Proof.
  assert (H : forall out_path, dirname out_path = "" ->
              save_png img out_path w = (Raise (FileNotFoundError ""), w)).
  { intros out_path Hd. unfold save_png, bind.
    rewrite Hd, makedirs_empty. reflexivity. }
  split; [apply H; reflexivity|]. split; [exact H|].
  intros args Hd Hp. rewrite main_packed, Hp. unfold bind.
  rewrite (H _ Hd). reflexivity.
Qed.


(** *** Missing inputs (C6, C8) *)

Lemma open_file_cases w p :
  isfile w p = true ->
  (exists im, ImageFile.open w p = Ok im)
  \/ ImageFile.open w p = Raise (UnidentifiedImageError p).
Proof.
  unfold isfile, ImageFile.open.
  destruct (lookup w p) as [[|[im|]]|]; try discriminate; intros _.
  - destruct (ImageFile.decodable im); eauto.
  - right. reflexivity.
Qed.

(** Loading a channel either succeeds, and then its path, if any,
    names a file, or fails with a [load_error]. *)
Lemma read_step w path fb sz :
  0 <= fst sz -> 0 <= snd sz ->
  match read_grayscale w path fb (Some sz) with
  | Ok _ => forall q, path = Some q -> isfile w q = true
  | Raise e => load_error w path e
  end.
Proof.
  intros H0 H1. destruct path as [p|].
  - destruct (isfile w p) eqn:E.
    + rewrite read_grayscale_file by exact E.
      destruct (open_file_cases w p E) as [[im ->] | ->]; simpl.
      * intros q [= <-]. exact E.
      * right. eauto.
    + rewrite read_grayscale_missing by exact E. left. exists p. auto.
  - rewrite read_grayscale_None by assumption. intros q. discriminate.
Qed.

Lemma resolve_step w args sz :
  0 <= fst sz -> 0 <= snd sz ->
  match resolve_smoothness w args sz with
  | Ok _ => forall q, smoothness_source args = Some q -> isfile w q = true
  | Raise e => load_error w (smoothness_source args) e
  end.
Proof.
  intros H0 H1. unfold smoothness_source.
  rewrite getattr_smoothness, getattr_roughness.
  destruct (truthy (smoothness args)) eqn:Hs.
  - rewrite resolve_smoothness_smooth by exact Hs. apply read_step; assumption.
  - destruct (truthy (roughness args)) eqn:Hr.
    + rewrite resolve_smoothness_rough by assumption.
      pose proof (read_step w (roughness args) 0 sz H0 H1) as H.
      destruct (read_grayscale w (roughness args) 0 (Some sz)); exact H.
    + rewrite resolve_smoothness_const by assumption.
      destruct (default_val_total args) as [v ->]. simpl.
      rewrite new_ok by assumption. intros q. discriminate.
Qed.

Lemma load_error_input w args src e :
  src ∈ match mode args with
        | UrpRa => [metallic args; smoothness_source args]
        | UrpTerrain =>
            [metallic args; occlusion args; getattr args Height; smoothness_source args]
        | Hdrp =>
            [metallic args; occlusion args; getattr args Detail; smoothness_source args]
        end ->
  load_error w src e -> input_error w args e.
Proof.
  intros Hin [(q & -> & Hf & ->) | H]; [left | right; exact H].
  exists q. split; [|auto]. unfold read_paths.
  apply list_elem_of_omap. exists (Some q). auto.
Qed.

(** One load of [channels], [R] being what [read_step] or [resolve_step]
    says of it: a failure ends the run with an input error, and the
    proof goes on with the success. *)
Ltac load_step R Herr :=
  match type of R with
  | match ?r with _ => _ end =>
      destruct r;
      [|eexists; split; [reflexivity|];
        eapply Herr; [|exact R]; rewrite !elem_of_cons; auto 10]
  end.

(** All loads went well although [p], one of the sources, names no file. *)
Ltac all_loaded Hsrc :=
  exfalso;
  match goal with
  | Hf : isfile ?w ?p = false |- _ =>
      assert (isfile w p = true); [|congruence]
  end;
  rewrite !elem_of_cons in Hsrc;
  repeat (destruct Hsrc as [Hsrc | Hsrc]; [now eauto|]);
  inversion Hsrc.

(** With a path it reads missing, a run gets no channels. *)
Lemma channels_missing w args sz p :
  0 <= fst sz -> 0 <= snd sz ->
  p ∈ read_paths args -> isfile w p = false ->
  exists e, channels w args sz = Raise e /\ input_error w args e.
Proof.
  intros H0 H1 Hin Hf. unfold read_paths in Hin.
  apply list_elem_of_omap in Hin as (src & Hsrc & Hid). simpl in Hid. subst src.
  pose proof (load_error_input w args) as Herr.
  pose proof (read_step w (metallic args) 0 sz H0 H1) as R1.
  pose proof (read_step w (occlusion args) 255 sz H0 H1) as R2.
  pose proof (read_step w (getattr args Height) 128 sz H0 H1) as R3.
  pose proof (read_step w (getattr args Detail) 255 sz H0 H1) as R3'.
  pose proof (resolve_step w args sz H0 H1) as R4.
  unfold channels.
  destruct (mode args).
  - load_step R1 Herr. load_step R2 Herr. load_step R3 Herr. load_step R4 Herr.
    all_loaded Hsrc.
  - load_step R1 Herr. load_step R2 Herr. load_step R3' Herr. load_step R4 Herr.
    all_loaded Hsrc.
  - load_step R1 Herr. load_step R4 Herr.
    all_loaded Hsrc.
Qed.

Lemma target_size_error w paths e :
  determine_target_size w paths = Raise e ->
  exists q, e = UnidentifiedImageError q.
Proof.
  rewrite determine_target_size_find.
  destruct (List.find (isfile w) paths) as [p|] eqn:E; [|discriminate].
  apply find_some in E as [_ E].
  destruct (open_file_cases w p E) as [[im ->] | ->]; [discriminate|].
  intros [= <-]. eauto.
Qed.

Lemma read_failure w path fb sz e :
  0 <= fst sz -> 0 <= snd sz ->
  read_grayscale w path fb (Some sz) = Raise e -> load_failure w path e.
Proof.
  intros H0 H1. destruct path as [q|].
  - intros H. exists q. split; [reflexivity|].
    destruct (isfile w q) eqn:Hf.
    + right. split; [reflexivity|].
      rewrite read_grayscale_file in H by exact Hf.
      destruct (open_file_cases w q Hf) as [[im Ho]|Ho]; rewrite Ho in H.
      * discriminate.
      * cbn [res_bind] in H. injection H as <-. auto.
    + left. split; [reflexivity|].
      rewrite read_grayscale_missing in H by exact Hf. injection H as <-.
      reflexivity.
  - rewrite read_grayscale_None by assumption. discriminate.
Qed.

Lemma resolve_failure w args sz e :
  0 <= fst sz -> 0 <= snd sz ->
  resolve_smoothness w args sz = Raise e ->
  load_failure w (smoothness_source args) e.
Proof.
  intros H0 H1. unfold smoothness_source.
  rewrite getattr_smoothness, getattr_roughness.
  destruct (truthy (smoothness args)) eqn:Es.
  - rewrite resolve_smoothness_smooth by exact Es. apply read_failure; assumption.
  - destruct (truthy (roughness args)) eqn:Er.
    + rewrite resolve_smoothness_rough by assumption.
      destruct (read_grayscale w (roughness args) 0 (Some sz)) as [im|e'] eqn:Hr;
        cbn [res_bind]; [discriminate|].
      intros [= <-]. apply (read_failure _ _ _ _ _ H0 H1 Hr).
    + rewrite resolve_smoothness_const by assumption.
      destruct (default_val_total args) as [v ->]. cbn [res_bind].
      rewrite new_ok by assumption. discriminate.
Qed.

Lemma load_failure_input w args src e :
  src ∈ match mode args with
        | UrpRa => [metallic args; smoothness_source args]
        | UrpTerrain =>
            [metallic args; occlusion args; getattr args Height; smoothness_source args]
        | Hdrp =>
            [metallic args; occlusion args; getattr args Detail; smoothness_source args]
        end ->
  load_failure w src e -> input_failure w args e.
Proof.
  intros Hin (q & -> & H).
  assert (Hq : q ∈ read_paths args).
  { unfold read_paths. apply list_elem_of_omap. exists (Some q). auto. }
  destruct H as [[Hf ->]|(Hf & Ho & ->)].
  - left. exists q. auto.
  - right. exists q. split; [right; auto|auto].
Qed.

Lemma channels_failure w args sz e :
  0 <= fst sz -> 0 <= snd sz ->
  channels w args sz = Raise e -> input_failure w args e.
Proof.
  intros H1 H2.
  pose proof (fun e => read_failure w (metallic args) 0 sz e H1 H2) as Rm.
  pose proof (fun e => read_failure w (occlusion args) 255 sz e H1 H2) as Ro.
  pose proof (fun e => read_failure w (getattr args Height) 128 sz e H1 H2) as Rh.
  pose proof (fun e => read_failure w (getattr args Detail) 255 sz e H1 H2) as Rd.
  pose proof (fun e => resolve_failure w args sz e H1 H2) as Rs.
  pose proof (load_failure_input w args) as Herr.
  unfold channels. rewrite !new_ok by assumption.
  destruct (mode args); cbn [res_bind].
  - destruct (read_grayscale w (metallic args) _ _); cbn [res_bind];
      [|intros [= <-]; eapply Herr; [|apply Rm; reflexivity];
        rewrite !elem_of_cons; auto 10].
    destruct (read_grayscale w (occlusion args) _ _); cbn [res_bind];
      [|intros [= <-]; eapply Herr; [|apply Ro; reflexivity];
        rewrite !elem_of_cons; auto 10].
    destruct (read_grayscale w (getattr args Height) _ _); cbn [res_bind];
      [|intros [= <-]; eapply Herr; [|apply Rh; reflexivity];
        rewrite !elem_of_cons; auto 10].
    destruct (resolve_smoothness w args sz); cbn [res_bind];
      [discriminate|intros [= <-]; eapply Herr; [|apply Rs; reflexivity];
        rewrite !elem_of_cons; auto 10].
  - destruct (read_grayscale w (metallic args) _ _); cbn [res_bind];
      [|intros [= <-]; eapply Herr; [|apply Rm; reflexivity];
        rewrite !elem_of_cons; auto 10].
    destruct (read_grayscale w (occlusion args) _ _); cbn [res_bind];
      [|intros [= <-]; eapply Herr; [|apply Ro; reflexivity];
        rewrite !elem_of_cons; auto 10].
    destruct (read_grayscale w (getattr args Detail) _ _); cbn [res_bind];
      [|intros [= <-]; eapply Herr; [|apply Rd; reflexivity];
        rewrite !elem_of_cons; auto 10].
    destruct (resolve_smoothness w args sz); cbn [res_bind];
      [discriminate|intros [= <-]; eapply Herr; [|apply Rs; reflexivity];
        rewrite !elem_of_cons; auto 10].
  - destruct (read_grayscale w (metallic args) _ _); cbn [res_bind];
      [|intros [= <-]; eapply Herr; [|apply Rm; reflexivity];
        rewrite !elem_of_cons; auto 10].
    destruct (resolve_smoothness w args sz); cbn [res_bind];
      [discriminate|intros [= <-]; eapply Herr; [|apply Rs; reflexivity];
        rewrite !elem_of_cons; auto 10].
Qed.

(** The target size fails only on the first supplied path that is a
    file, when that file does not decode. *)
Lemma target_size_failure w args e :
  determine_target_size w (candidate_paths args) = Raise e ->
  exists q,
    List.find (isfile w) (supplied_paths args) = Some q /\
    ImageFile.open w q = Raise (UnidentifiedImageError q) /\
    e = UnidentifiedImageError q.
Proof.
  rewrite determine_target_size_find, candidate_paths_supplied, find_isfile_nonempty.
  destruct (List.find (isfile w) (supplied_paths args)) as [q|] eqn:Hf; [|discriminate].
  intros H. exists q. split; [reflexivity|].
  apply find_some in Hf as [_ Hq].
  destruct (open_file_cases w q Hq) as [[im Ho]|Ho]; rewrite Ho in H.
  - discriminate.
  - cbn [res_bind] in H. injection H as <-. auto.
Qed.

Lemma packed_image_failure w args e :
  packed_image w args = Raise e -> input_failure w args e.
Proof.
  unfold packed_image.
  destruct (determine_target_size w (candidate_paths args)) as [sz|e'] eqn:Hd;
    cbn [res_bind].
  - apply target_size_positive in Hd as [H1 H2].
    destruct (channels w args sz) as [[[[r g] b] a]|e'] eqn:Hc; cbn [res_bind].
    + apply channels_props in Hc as ((?&?&?) & (?&?&?) & (?&?&?) & (?&?&?)).
      rewrite (compose_rgba_L r g b a sz) by assumption. discriminate.
    + intros [= <-]. apply (channels_failure w args sz); [lia|lia|exact Hc].
  - intros [= <-]. apply target_size_failure in Hd as (q & Hf & Ho & ->).
    right. exists q. split; [left; exact Hf|auto].
Qed.

Lemma find_app_not_found {A} (f : A -> bool) (l l' : list A) :
  Forall (fun x => f x = false) l' -> List.find f (l ++ l') = List.find f l.
Proof.
  intros H. induction l as [|x l IH]; cbn [app List.find].
  - induction H as [|y l' Hy _ IH]; [reflexivity|]. cbn [List.find]. rewrite Hy. exact IH.
  - destruct (f x); [reflexivity|exact IH].
Qed.

(** A roughness path that names no file, next to a smoothness path that
    is not empty, is as good as absent. *)
Lemma shadowed_roughness_target w args s r inv :
  smoothness args = Some s -> roughness args = Some r -> isfile w r = false ->
  determine_target_size w (candidate_paths (with_roughness args None inv))
  = determine_target_size w (candidate_paths args).
Proof.
  intros Hs Hr Hf.
  rewrite !determine_target_size_find, !candidate_paths_supplied, !find_isfile_nonempty.
  assert (E : supplied_paths args
              = (supplied_paths (with_roughness args None inv) ++ [r])%list).
  { unfold supplied_paths, getattr, hasattr, field. cbn. rewrite Hs, Hr.
    destruct (mode args); cbn;
      destruct (metallic args); destruct (occlusion args);
      destruct (height args); destruct (detail args); reflexivity. }
  rewrite E, find_app_not_found; [reflexivity|].
  constructor; [exact Hf|constructor].
Qed.

Lemma shadowed_roughness_packed w args s r inv :
  smoothness args = Some s -> s <> "" ->
  roughness args = Some r -> isfile w r = false ->
  packed_image w (with_roughness args None inv) = packed_image w args.
Proof.
  intros Hs Hne Hr Hf. unfold packed_image.
  rewrite (shadowed_roughness_target w args s r inv Hs Hr Hf).
  destruct (determine_target_size w (candidate_paths args)) as [sz|e]; [|reflexivity].
  cbn [res_bind].
  assert (Ht : truthy (smoothness args) = true)
    by (rewrite Hs; apply truthy_Some, Hne).
  assert (Hc : channels w (with_roughness args None inv) sz = channels w args sz).
  { unfold channels.
    rewrite (resolve_smoothness_smooth w (with_roughness args None inv)) by exact Ht.
    rewrite (resolve_smoothness_smooth w args) by exact Ht. reflexivity. }
  rewrite Hc. reflexivity.
Qed.

(** C6, amended: if one of the paths a run reads (the metallic,
    occlusion, height or detail path given for its mode, and the
    source of the smoothness channel: the smoothness path if given and
    not empty, else the roughness path if given and not empty) names no
    existing file, the run fails before composition: it raises, the
    process status is not zero and the file system is left as it was,
    so no output file is written.  The error is [FileNotFoundError]
    naming a missing path the run reads, or the decode error of a file
    the run opens (the first supplied path that is a file, or a path it
    reads) that does not decode.  A roughness path that names no file,
    given next to a smoothness path that is not empty, does not fail the
    run: the run is the one without the roughness path. *)
Theorem missing_input_fails (w : fs) (args : Namespace) :
  (forall p,
      p ∈ read_paths args -> isfile w p = false ->
      exists e,
        main args w = (Raise e, w) /\
        exit_status (Raise e) <> 0 /\
        input_failure w args e)
  /\ (forall s r,
        smoothness args = Some s -> s <> "" ->
        roughness args = Some r -> isfile w r = false ->
        main args w = main (with_roughness args None (invert_roughness args)) w).
Proof.
  split.
  - intros p Hin Hf.
    assert (H : exists e, packed_image w args = Raise e).
    { unfold packed_image.
      destruct (determine_target_size w (candidate_paths args)) as [sz|e] eqn:E.
      - apply target_size_positive in E as [H0 H1]. cbn [res_bind].
        destruct (channels_missing w args sz p) as (e & -> & _);
          try lia; try assumption.
        exists e. reflexivity.
      - exists e. reflexivity. }
    destruct H as (e & Hp). exists e.
    split; [apply main_not_packed, Hp|]. split; [simpl; lia|].
    apply packed_image_failure, Hp.
  - intros s r Hs Hne Hr Hf.
    rewrite !main_packed.
    rewrite (shadowed_roughness_packed w args s r _ Hs Hne Hr Hf). reflexivity.
Qed.


Lemma smoothness_source_None args :
  smoothness_source args = None ->
  truthy (smoothness args) = false /\ truthy (roughness args) = false.
Proof.
  unfold smoothness_source. rewrite getattr_smoothness, getattr_roughness.
  destruct (truthy (smoothness args)) eqn:Hs.
  - intros H. rewrite H in Hs. discriminate.
  - destruct (truthy (roughness args)) eqn:Hr; [|auto].
    intros H. rewrite H in Hr. discriminate.
Qed.

(** C8, amended: a fallback constant stands in only for a channel
    without a source.  Every path string handed to the loader
    (whatever is given as metallic, occlusion, height or detail, the
    empty string included) and the source of the smoothness channel
    (the smoothness string when not empty, else the roughness string
    when not empty) raises [FileNotFoundError] when it names no
    existing file; a channel that loads is uniform only when it has no
    path, and comes from an existing file otherwise.  An empty
    smoothness or roughness string counts as not given. *)
Theorem no_fallback_for_missing (w : fs) :
  (forall p fb t,
      isfile w p = false ->
      read_grayscale w (Some p) fb t = Raise (not_found p))
  /\ (forall args sz q,
        smoothness_source args = Some q -> isfile w q = false ->
        resolve_smoothness w args sz = Raise (not_found q))
  /\ (forall path fb sz im,
        read_grayscale w path fb (Some sz) = Ok im ->
        (path = None /\ im = Image.solid "L" sz fb)
        \/ (exists p, path = Some p /\ isfile w p = true))
  /\ (forall args sz im,
        resolve_smoothness w args sz = Ok im ->
        (smoothness_source args = None /\
         exists v, default_val args = Ok v /\ im = Image.solid "L" sz v)
        \/ (exists q, smoothness_source args = Some q /\ isfile w q = true)).
Proof.
  split; [|split; [|split]].
  - intros p fb t Hf. apply read_grayscale_missing, Hf.
  - intros args sz q Hsrc Hf. revert Hsrc. unfold smoothness_source.
    rewrite getattr_smoothness, getattr_roughness.
    destruct (truthy (smoothness args)) eqn:Hs.
    + intros Hq. rewrite resolve_smoothness_smooth, Hq by exact Hs.
      apply read_grayscale_missing, Hf.
    + destruct (truthy (roughness args)) eqn:Hr; [|discriminate].
      intros Hq. rewrite resolve_smoothness_rough, Hq by assumption.
      rewrite read_grayscale_missing by exact Hf. reflexivity.
  - intros [p|] fb sz im H.
    + right. apply read_grayscale_Some_inv in H as [Hf _]. eauto.
    + left. split; [reflexivity|].
      unfold read_grayscale in H. apply new_props in H as [-> _]. reflexivity.
  - intros args sz im H.
    destruct (smoothness_source args) as [q|] eqn:Hsrc.
    + right. exists q. split; [reflexivity|].
      revert Hsrc H. unfold smoothness_source.
      rewrite getattr_smoothness, getattr_roughness.
      destruct (truthy (smoothness args)) eqn:Hs.
      * intros Hq. rewrite resolve_smoothness_smooth, Hq by exact Hs.
        intros H. apply read_grayscale_Some_inv in H as [Hf _]. exact Hf.
      * destruct (truthy (roughness args)) eqn:Hr; [|discriminate].
        intros Hq. rewrite resolve_smoothness_rough, Hq by assumption.
        destruct (read_grayscale w (Some q) 0 (Some sz)) eqn:E; [|discriminate].
        intros _. apply read_grayscale_Some_inv in E as [Hf _]. exact Hf.
    + left. split; [reflexivity|].
      apply smoothness_source_None in Hsrc as [Hs Hr].
      rewrite resolve_smoothness_const in H by assumption.
      destruct (default_val args) as [v|]; [|discriminate].
      simpl in H. apply new_props in H as [-> _]. eauto.
Qed.


(** *** [os.makedirs] needs no more fuel than it is given *)

Lemma rstrip_length p : (String.length (rstrip p) <= String.length p)%nat.
Proof.
  induction p as [|c p IH]; simpl; [lia|].
  destruct (rstrip p); [destruct (Ascii.eqb c sep)|]; simpl in *; lia.
Qed.

Lemma rpartition_length p :
  (String.length (fst (rpartition p)) + String.length (snd (rpartition p))
   = String.length p)%nat.
Proof.
  induction p as [|c p IH]; simpl; [reflexivity|].
  destruct (rpartition p) as [[|c' h] t]; simpl in *.
  - destruct (Ascii.eqb c sep); simpl; lia.
  - lia.
Qed.

Lemma split_length p :
  (String.length (fst (split p)) + String.length (snd (split p))
   <= String.length p)%nat.
Proof.
  unfold split. pose proof (rpartition_length p) as H.
  destruct (rpartition p) as [h t]. simpl in *.
  assert (String.length (strip_head h) <= String.length h)%nat; [|lia].
  unfold strip_head. pose proof (rstrip_length h).
  destruct (rstrip h); simpl in *; lia.
Qed.

Lemma mkdir_leaf_no_recursion_error name exist_ok w :
  fst (OSOps.mkdir_leaf name exist_ok w) <> Raise RecursionError.
Proof.
  unfold OSOps.mkdir_leaf, try_except, OSOps.mkdir.
  destruct (String.eqb name ""); simpl.
  - destruct (negb exist_ok || negb (isdir w name)); discriminate.
  - destruct (lookup w name); simpl.
    + destruct (negb exist_ok || negb (isdir w name)); discriminate.
    + unfold check_parent.
      destruct (String.eqb (dirname name) ""); [discriminate|].
      destruct (lookup w (dirname name)) as [[|c]|]; simpl;
        try discriminate;
        destruct (negb exist_ok || negb (isdir w name)); discriminate.
Qed.

Lemma makedirs_rec_no_recursion_error fuel : forall name exist_ok w,
  (String.length name < fuel)%nat ->
  fst (OSOps.makedirs_rec fuel name exist_ok w) <> Raise RecursionError.
Proof.
  induction fuel as [|fuel IH]; intros name exist_ok w Hlen; [lia|].
  simpl. pose proof (split_length name) as Hs.
  destruct (split name) as [head0 tail0]. simpl in Hs.
  assert (Hhead : forall head tail,
             (String.length head + String.length tail <= String.length name)%nat ->
             fst ((if negb (String.eqb head "") && negb (String.eqb tail "")
                      && negb (exists_ w head)
                   then
                     (_ <- try_except (OSOps.makedirs_rec fuel head exist_ok)
                             is_FileExistsError (fun _ => ret tt) ;;
                      if String.eqb tail "." then ret tt
                      else OSOps.mkdir_leaf name exist_ok) w
                   else OSOps.mkdir_leaf name exist_ok w))
             <> Raise RecursionError).
  { intros head tail Hle.
    destruct (negb (String.eqb head "") && negb (String.eqb tail "")
              && negb (exists_ w head)) eqn:E;
      [|apply mkdir_leaf_no_recursion_error].
    apply andb_true_iff in E as [E _]. apply andb_true_iff in E as [_ Et].
    apply negb_true_iff, String.eqb_neq in Et.
    assert (Hlt : (String.length head < fuel)%nat).
    { destruct tail; [congruence|]. simpl in Hle. lia. }
    specialize (IH head exist_ok w Hlt).
    unfold bind, try_except.
    destruct (OSOps.makedirs_rec fuel head exist_ok w) as [[[]|e] w1]; simpl in *.
    - destruct (String.eqb tail "."); [discriminate|].
      apply mkdir_leaf_no_recursion_error.
    - destruct (is_FileExistsError e) eqn:Ee; simpl.
      + destruct (String.eqb tail "."); [discriminate|].
        apply mkdir_leaf_no_recursion_error.
      + exact IH. }
  destruct (String.eqb tail0 "") eqn:Et.
  - pose proof (split_length head0) as Hs'.
    destruct (split head0) as [head tail]. simpl in Hs'.
    apply Hhead. lia.
  - apply Hhead. exact Hs.
Qed.

(** [os.makedirs] never runs out of fuel. *)
Lemma makedirs_no_recursion_error name exist_ok w :
  fst (OSOps.makedirs name exist_ok w) <> Raise RecursionError.
Proof.
  unfold OSOps.makedirs. apply makedirs_rec_no_recursion_error. lia.
Qed.

End Properties.

(** * Further properties of the script *)

Section Coverage.
Context {PIL : Imaging}.
Import OS.

(** ** Clamping and the default smoothness *)

Lemma SFltb_SFleb x y : SFltb x y = true -> SFleb x y = true.
Proof. unfold SFltb, SFleb. destruct (SFcompare x y) as [[]|]; congruence. Qed.

(** X1: [clamp01] maps every float, NaN and the infinities included,
    into the unit interval and leaves a value it has clamped as it
    is. *)
Theorem clamp01_unit_interval (d : float) :
  PrimFloat.leb 0 (clamp01 d) = true /\
  PrimFloat.leb (clamp01 d) 1 = true /\
  clamp01 (clamp01 d) = clamp01 d.
Proof.
  assert (H : (clamp01 d = d /\ PrimFloat.ltb d 1 = true /\
               PrimFloat.ltb 0 d = true) \/
              clamp01 d = 0%float \/ clamp01 d = 1%float).
  { unfold clamp01, py_min, py_max.
    destruct (PrimFloat.ltb d 1) eqn:H1.
    - destruct (PrimFloat.ltb 0 d) eqn:H0; auto.
    - right; right. reflexivity. }
  destruct H as [(E & H1 & H0) | [E | E]].
  - rewrite !E. split; [|split].
    + rewrite leb_spec. apply SFltb_SFleb. rewrite <- ltb_spec. exact H0.
    + rewrite leb_spec. apply SFltb_SFleb. rewrite <- ltb_spec. exact H1.
    + reflexivity.
  - rewrite !E. repeat split; reflexivity.
  - rewrite !E. repeat split; reflexivity.
Qed.

(** X2: the constant smoothness value [int(round(clamp01(d) * 255))]
    exists for every float [d] and lies between 0 and 255; it is 255
    when [d] is not below 1.0 (NaN included) and 0 when [d] is below 1.0
    and not above 0.0. *)
Theorem default_val_byte (args : Namespace) :
  exists v,
    default_val args = Ok v /\ 0 <= v <= 255 /\
    (PrimFloat.ltb (default_smoothness args) 1 = false -> v = 255) /\
    (PrimFloat.ltb (default_smoothness args) 1 = true ->
     PrimFloat.ltb 0 (default_smoothness args) = false -> v = 0).
Proof.
  unfold default_val.
  destruct (round_clamp01_range (default_smoothness args)) as (v & Hv & Hr).
  exists v. split; [exact Hv|]. split; [exact Hr|]. split.
  - intros H1. unfold clamp01, py_min, py_max in Hv. rewrite H1 in Hv.
    vm_compute in Hv. congruence.
  - intros H1 H0. unfold clamp01, py_min, py_max in Hv. rewrite H1, H0 in Hv.
    vm_compute in Hv. congruence.
Qed.

(** ** Normalising and composing rasters *)

(** X3: [ensure_uint8] returns a single-band ["L"] image of the same
    size, well-formed when its argument is; it returns an ["L"] image
    unchanged, so applying it twice is applying it once. *)
Theorem ensure_uint8_normalises (im : Image.t) :
  Image.mode (ensure_uint8 im) = "L" /\
  Image.size (ensure_uint8 im) = Image.size im /\
  (Image.valid im -> Image.valid (ensure_uint8 im)) /\
  (Image.mode im = "L" -> ensure_uint8 im = im) /\
  ensure_uint8 (ensure_uint8 im) = ensure_uint8 im.
Proof.
  assert (Hm : Image.mode (ensure_uint8 im) = "L").
  { unfold ensure_uint8. destruct (String.eqb (Image.mode im) "L") eqn:E; simpl.
    - apply String.eqb_eq, E.
    - apply convert_mode. }
  split; [exact Hm|]. split; [|split; [|split]].
  - unfold ensure_uint8. destruct (negb _); [apply convert_size | reflexivity].
  - intros Hv. unfold ensure_uint8. destruct (negb _); [apply convert_valid|]; exact Hv.
  - apply ensure_uint8_L.
  - apply ensure_uint8_L, Hm.
Qed.

(** X4: [compose_rgba] accepts rasters of any mode and succeeds exactly
    when the last three have the size of the first: the result is then
    the RGBA image of that size whose planes are the four normalised
    inputs in order; otherwise it raises [ValueError], "size
    mismatch". *)
Theorem compose_rgba_sizes (r g b a : Image.t) :
  (Image.size g = Image.size r /\ Image.size b = Image.size r /\
   Image.size a = Image.size r ->
   compose_rgba r g b a
   = Ok (Image.mk "RGBA" (Image.size r)
           [Image.plane (ensure_uint8 r); Image.plane (ensure_uint8 g);
            Image.plane (ensure_uint8 b); Image.plane (ensure_uint8 a)]))
  /\ (~ (Image.size g = Image.size r /\ Image.size b = Image.size r /\
         Image.size a = Image.size r) ->
      compose_rgba r g b a = Raise (ValueError "size mismatch")).
Proof.
  assert (Hmode : forall im, Image.mode (ensure_uint8 im) = "L").
  { intros im. unfold ensure_uint8.
    destruct (String.eqb (Image.mode im) "L") eqn:E; simpl;
      [apply String.eqb_eq, E | apply convert_mode]. }
  assert (Hsize : forall im, Image.size (ensure_uint8 im) = Image.size im).
  { intros im. unfold ensure_uint8.
    destruct (negb _); [apply convert_size | reflexivity]. }
  split.
  - intros (Hg & Hb & Ha). unfold compose_rgba, Image.merge. simpl.
    rewrite !Hmode, !Hsize. simpl. rewrite Hg, Hb, Ha.
    rewrite !bool_decide_eq_true_2 by reflexivity. reflexivity.
  - intros Hne. unfold compose_rgba, Image.merge. simpl.
    rewrite !Hmode, !Hsize. simpl.
    rewrite (bool_decide_eq_true_2 (Image.size r = Image.size r)) by reflexivity.
    simpl.
    destruct (bool_decide (Image.size g = Image.size r)) eqn:Eg; [|reflexivity].
    destruct (bool_decide (Image.size b = Image.size r)) eqn:Eb; [|reflexivity].
    destruct (bool_decide (Image.size a = Image.size r)) eqn:Ea; [|reflexivity].
    exfalso. apply Hne.
    apply bool_decide_eq_true_1 in Eg, Eb, Ea. auto.
Qed.


(** ** Loading a channel without a target size *)

(** X5: whatever [read_grayscale] returns is a well-formed single-band
    ["L"] raster.  With a target size it has that size; without one a
    constant channel is 1024x1024 and a file keeps the size it decodes
    to. *)
Theorem read_grayscale_shape (w : fs) (path : option string) (fb : Z)
    (t : option (Z * Z)) (im : Image.t) :
  read_grayscale w path fb t = Ok im ->
  Image.mode im = "L" /\ Image.valid im /\
  match t, path with
  | Some sz, _ => Image.size im = sz
  | None, None => Image.size im = (1024, 1024)
  | None, Some p =>
      exists img, ImageFile.open w p = Ok img /\ Image.size im = Image.size img
  end.
Proof.
  destruct t as [sz|].
  - intros H. destruct (read_grayscale_props _ _ _ _ _ H) as (Hm & Hs & Hv). auto.
  - destruct path as [p|].
    + unfold read_grayscale. destruct (negb (isfile w p)); [discriminate|].
      destruct (ImageFile.open w p) as [img|e] eqn:Ho; [|discriminate].
      cbn [res_bind]. intros [= <-].
      apply open_decodable, decodable_valid in Ho as (Hv & _).
      destruct (to_gray_props img Hv) as (Hm & Hs & Hv').
      split; [exact Hm|]. split; [exact Hv'|]. exists img. split; [reflexivity|exact Hs].
    + unfold read_grayscale, Image.new. destruct (_ || _); [discriminate|].
      intros [= <-]. split; [reflexivity|]. split; [apply solid_valid|reflexivity].
Qed.

(** ** The target size *)

(** X6: paths that name no file (missing ones, directories, the empty
    string) in front of the list have no influence on the target size;
    a list of such paths only gives 1024x1024. *)
Theorem determine_target_size_skips (w : fs) (l1 l2 : list string) :
  Forall (fun p => isfile w p = false) l1 ->
  determine_target_size w (l1 ++ l2) = determine_target_size w l2 /\
  determine_target_size w l1 = Ok (1024, 1024).
Proof.
  induction 1 as [|p l1 Hp _ [IH1 IH2]]; [split; reflexivity|].
  simpl. rewrite Hp, andb_false_r. auto.
Qed.


(** ** How a run can fail before it writes *)

Lemma channels_error w args sz e :
  0 <= fst sz -> 0 <= snd sz ->
  channels w args sz = Raise e -> input_error w args e.
Proof.
  intros H1 H2.
  pose proof (read_step w (metallic args) 0 sz H1 H2) as Rm.
  pose proof (read_step w (occlusion args) 255 sz H1 H2) as Ro.
  pose proof (read_step w (getattr args Height) 128 sz H1 H2) as Rh.
  pose proof (read_step w (getattr args Detail) 255 sz H1 H2) as Rd.
  pose proof (resolve_step w args sz H1 H2) as Rs.
  pose proof (load_error_input w args) as Herr.
  unfold channels. rewrite !new_ok by assumption.
  destruct (mode args); cbn [res_bind].
  - destruct (read_grayscale w (metallic args) _ _); cbn [res_bind];
      [|intros [= <-]; eapply Herr; [|exact Rm]; rewrite !elem_of_cons; auto 10].
    destruct (read_grayscale w (occlusion args) _ _); cbn [res_bind];
      [|intros [= <-]; eapply Herr; [|exact Ro]; rewrite !elem_of_cons; auto 10].
    destruct (read_grayscale w (getattr args Height) _ _); cbn [res_bind];
      [|intros [= <-]; eapply Herr; [|exact Rh]; rewrite !elem_of_cons; auto 10].
    destruct (resolve_smoothness w args sz); cbn [res_bind];
      [discriminate|intros [= <-]; eapply Herr; [|exact Rs]; rewrite !elem_of_cons; auto 10].
  - destruct (read_grayscale w (metallic args) _ _); cbn [res_bind];
      [|intros [= <-]; eapply Herr; [|exact Rm]; rewrite !elem_of_cons; auto 10].
    destruct (read_grayscale w (occlusion args) _ _); cbn [res_bind];
      [|intros [= <-]; eapply Herr; [|exact Ro]; rewrite !elem_of_cons; auto 10].
    destruct (read_grayscale w (getattr args Detail) _ _); cbn [res_bind];
      [|intros [= <-]; eapply Herr; [|exact Rd]; rewrite !elem_of_cons; auto 10].
    destruct (resolve_smoothness w args sz); cbn [res_bind];
      [discriminate|intros [= <-]; eapply Herr; [|exact Rs]; rewrite !elem_of_cons; auto 10].
  - destruct (read_grayscale w (metallic args) _ _); cbn [res_bind];
      [|intros [= <-]; eapply Herr; [|exact Rm]; rewrite !elem_of_cons; auto 10].
    destruct (resolve_smoothness w args sz); cbn [res_bind];
      [discriminate|intros [= <-]; eapply Herr; [|exact Rs]; rewrite !elem_of_cons; auto 10].
Qed.

Lemma channels_compose w args sz r g b a :
  channels w args sz = Ok (r, g, b, a) ->
  compose_rgba r g b a
  = Ok (Image.mk "RGBA" sz [Image.plane r; Image.plane g; Image.plane b; Image.plane a]).
Proof.
  intros H. apply channels_props in H as ((?&?&?) & (?&?&?) & (?&?&?) & (?&?&?)).
  apply compose_rgba_L; assumption.
Qed.

(** X7: a run that fails before the write step fails on its inputs: a
    path it reads names no file, or an input file does not decode.
    Composition, the constant channels and the default smoothness value
    never make it fail, and the file system is left as it was. *)
Theorem run_fails_only_on_inputs (w : fs) (args : Namespace) (e : exn) :
  packed_image w args = Raise e ->
  input_error w args e /\ main args w = (Raise e, w).
Proof.
  intros H. split; [|apply main_not_packed, H].
  unfold packed_image in H.
  destruct (determine_target_size w (candidate_paths args)) as [sz|e'] eqn:Hd;
    cbn [res_bind] in H.
  - apply target_size_positive in Hd as [H1 H2].
    destruct (channels w args sz) as [[[[r g] b] a]|e'] eqn:Hc; cbn [res_bind] in H.
    + rewrite (channels_compose _ _ _ _ _ _ _ Hc) in H. discriminate.
    + injection H as <-. apply (channels_error w args sz); [lia|lia|exact Hc].
  - injection H as <-. right. apply (target_size_error _ _ _ Hd).
Qed.


(** ** Runs whose inputs all decode *)

Lemma read_decodes w p fb sz img :
  ImageFile.open w p = Ok img ->
  read_grayscale w (Some p) fb (Some sz) = Ok (fit (to_gray img) sz).
Proof.
  intros Ho. rewrite read_grayscale_file by apply (open_isfile _ _ _ Ho).
  rewrite Ho. reflexivity.
Qed.

Lemma read_total w path fb sz :
  0 <= fst sz -> 0 <= snd sz ->
  (forall p, path = Some p -> exists img, ImageFile.open w p = Ok img) ->
  exists im, read_grayscale w path fb (Some sz) = Ok im.
Proof.
  intros H1 H2 H. destruct path as [p|].
  - destruct (H p eq_refl) as [img Ho]. eexists. apply read_decodes, Ho.
  - eexists. apply read_grayscale_None; assumption.
Qed.

Lemma resolve_total w args sz :
  0 <= fst sz -> 0 <= snd sz ->
  (forall p, smoothness_source args = Some p -> exists img, ImageFile.open w p = Ok img) ->
  exists im, resolve_smoothness w args sz = Ok im.
Proof.
  intros H1 H2 H. unfold smoothness_source in H.
  rewrite getattr_smoothness, getattr_roughness in H.
  destruct (truthy (smoothness args)) eqn:Es.
  - rewrite resolve_smoothness_smooth by exact Es.
    apply read_total; assumption.
  - destruct (truthy (roughness args)) eqn:Er.
    + rewrite resolve_smoothness_rough by assumption.
      destruct (read_total w (roughness args) 0 sz H1 H2 H) as [im ->].
      cbn [res_bind]. eauto.
    + rewrite resolve_smoothness_const by assumption.
      destruct (default_val_total args) as [v ->]. cbn [res_bind].
      rewrite new_ok by assumption. eauto.
Qed.

Lemma channels_total w args sz :
  0 <= fst sz -> 0 <= snd sz ->
  (forall p, p ∈ read_paths args -> exists img, ImageFile.open w p = Ok img) ->
  exists r g b a, channels w args sz = Ok (r, g, b, a).
Proof.
  intros H1 H2 H.
  assert (Hsrc : forall src,
             src ∈ match mode args with
                   | UrpRa => [metallic args; smoothness_source args]
                   | UrpTerrain =>
                       [metallic args; occlusion args; getattr args Height;
                        smoothness_source args]
                   | Hdrp =>
                       [metallic args; occlusion args; getattr args Detail;
                        smoothness_source args]
                   end ->
             forall p, src = Some p -> exists img, ImageFile.open w p = Ok img).
  { intros src Hin p ->. apply H. unfold read_paths.
    apply list_elem_of_omap. exists (Some p). split; [exact Hin|reflexivity]. }
  unfold channels. rewrite !new_ok by assumption.
  destruct (mode args); cbn [res_bind].
  - destruct (read_total w (metallic args) 0 sz H1 H2) as [r ->];
      [apply Hsrc; rewrite !elem_of_cons; auto 10|].
    destruct (read_total w (occlusion args) 255 sz H1 H2) as [g ->];
      [apply Hsrc; rewrite !elem_of_cons; auto 10|].
    destruct (read_total w (getattr args Height) 128 sz H1 H2) as [b ->];
      [apply Hsrc; rewrite !elem_of_cons; auto 10|].
    destruct (resolve_total w args sz H1 H2) as [a ->];
      [apply Hsrc; rewrite !elem_of_cons; auto 10|].
    cbn [res_bind]. eauto.
  - destruct (read_total w (metallic args) 0 sz H1 H2) as [r ->];
      [apply Hsrc; rewrite !elem_of_cons; auto 10|].
    destruct (read_total w (occlusion args) 255 sz H1 H2) as [g ->];
      [apply Hsrc; rewrite !elem_of_cons; auto 10|].
    destruct (read_total w (getattr args Detail) 255 sz H1 H2) as [b ->];
      [apply Hsrc; rewrite !elem_of_cons; auto 10|].
    destruct (resolve_total w args sz H1 H2) as [a ->];
      [apply Hsrc; rewrite !elem_of_cons; auto 10|].
    cbn [res_bind]. eauto.
  - destruct (read_total w (metallic args) 0 sz H1 H2) as [r ->];
      [apply Hsrc; rewrite !elem_of_cons; auto 10|].
    destruct (resolve_total w args sz H1 H2) as [a ->];
      [apply Hsrc; rewrite !elem_of_cons; auto 10|].
    cbn [res_bind]. eauto.
Qed.

(** The first supplied path that is a file is one the run reads, when
    all the paths it reads are files. *)
Lemma first_file_is_read w args p0 :
  (forall p, p ∈ read_paths args -> isfile w p = true) ->
  List.find (isfile w) (supplied_paths args) = Some p0 ->
  p0 ∈ read_paths args.
Proof.
  unfold read_paths, supplied_paths, smoothness_source.
  rewrite getattr_smoothness, getattr_roughness.
  unfold getattr, hasattr, field.
  destruct (mode args); cbn;
    destruct (metallic args) as [m|]; destruct (occlusion args) as [o|];
    destruct (height args) as [h|]; destruct (detail args) as [d|];
    destruct (smoothness args) as [s|]; destruct (roughness args) as [r|];
    cbn; intros H;
    repeat match goal with
      | |- context [isfile w ?x] => destruct (isfile w x) eqn:?
      end;
    try discriminate; intros [= <-];
    try (rewrite !elem_of_cons; now auto 10);
    revert H;
    repeat match goal with
      | Hf : isfile w ?x = true |- context [String.eqb ?x ""] =>
          let E := fresh "E" in
          destruct (String.eqb x "") eqn:E;
          [apply String.eqb_eq in E; subst x; rewrite isfile_empty in Hf;
           discriminate|]
      | |- context [String.eqb ?x ""] => destruct (String.eqb x "") eqn:?
      end;
    cbn; intros H;
    try (rewrite !elem_of_cons; now auto 10);
    exfalso;
    match goal with
    | Hf : isfile w ?x = false, E : String.eqb ?x "" = false |- _ =>
        rewrite H in Hf; [discriminate|rewrite !elem_of_cons; now auto 10]
    end.
Qed.


Lemma target_size_total w args :
  (forall p, p ∈ read_paths args -> exists img, ImageFile.open w p = Ok img) ->
  exists sz, determine_target_size w (candidate_paths args) = Ok sz.
Proof.
  intros H.
  rewrite determine_target_size_find, candidate_paths_supplied, find_isfile_nonempty.
  destruct (List.find (isfile w) (supplied_paths args)) as [p0|] eqn:Hf; [|eauto].
  apply first_file_is_read in Hf.
  - destruct (H p0 Hf) as [img ->]. cbn [res_bind]. eauto.
  - intros p Hp. destruct (H p Hp) as [img Ho]. apply (open_isfile _ _ _ Ho).
Qed.

Lemma channel_plane sz im :
  channel_ok sz im ->
  length (Image.plane im) = Image.area sz /\ Forall Image.is_uint8 (Image.plane im).
Proof.
  intros (Hm & Hs & Hl & Hb). unfold Image.plane.
  rewrite Hm in Hl. rewrite Hs in Hb.
  destruct (Image.bands im) as [|p [|q bs]]; try discriminate.
  apply Forall_inv in Hb. exact Hb.
Qed.

(** X8: when every path the run reads decodes as an image, the run
    gets as far as the write step: the target size and the four channels
    exist and compose to a well-formed RGBA raster of at least one
    pixel, and what is left of the run is [save_png] on it.  Paths that
    are supplied but not read (a roughness path next to a smoothness
    path) need not decode, or exist. *)
Theorem run_composes_when_inputs_decode (w : fs) (args : Namespace) :
  (forall p, p ∈ read_paths args -> exists img, ImageFile.open w p = Ok img) ->
  exists out_img,
    packed_image w args = Ok out_img /\
    Image.mode out_img = "RGBA" /\ Image.valid out_img /\
    0 < Image.width out_img /\ 0 < Image.height out_img /\
    main args w = (_ <- save_png out_img (out args) ;; ret 0) w.
Proof.
  intros H.
  destruct (target_size_total w args H) as [sz Hd].
  destruct (target_size_positive _ _ _ Hd) as [H1 H2].
  destruct (channels_total w args sz) as (r & g & b & a & Hc); [lia|lia|exact H|].
  pose proof (channels_compose _ _ _ _ _ _ _ Hc) as Hcomp.
  assert (Hp : packed_image w args
               = Ok (Image.mk "RGBA" sz
                       [Image.plane r; Image.plane g; Image.plane b; Image.plane a])).
  { unfold packed_image. rewrite Hd. cbn [res_bind]. rewrite Hc. cbn [res_bind].
    exact Hcomp. }
  eexists. split; [exact Hp|]. split; [reflexivity|].
  apply channels_props in Hc as (Hr & Hg & Hb & Ha).
  split; [|split; [exact H1|split; [exact H2|]]].
  - split; [reflexivity|]. cbn [Image.bands Image.size].
    repeat (apply Forall_cons; split; [apply channel_plane; assumption|]).
    apply Forall_nil. exact I.
  - rewrite main_packed, Hp. reflexivity.
Qed.


(** ** The file system under [save_png] *)

Lemma dirs_added_refl w q : dirs_added w w q.
Proof. left. reflexivity. Qed.

Lemma dirs_added_trans w1 w2 w3 q :
  dirs_added w1 w2 q -> dirs_added w2 w3 q -> dirs_added w1 w3 q.
Proof.
  unfold dirs_added. intros [H1|[H1 H1']] [H2|[H2 H2']]; try (left; congruence).
  - right. split; congruence.
  - right. split; congruence.
Qed.

Lemma lookup_None_raw w p : p <> "" -> lookup w p = None -> w !! p = None.
Proof.
  intros Hp. unfold lookup. destruct (String.eqb p "") eqn:E.
  - apply String.eqb_eq in E. contradiction.
  - destruct (is_root p); [discriminate|auto].
Qed.

Lemma mkdir_frame name w q : dirs_added w (snd (OSOps.mkdir name w)) q.
Proof.
  unfold OSOps.mkdir. destruct (String.eqb name "") eqn:E; [apply dirs_added_refl|].
  destruct (lookup w name) eqn:L; [apply dirs_added_refl|].
  destruct (check_parent w name); [|apply dirs_added_refl].
  cbn [snd]. apply String.eqb_neq in E.
  destruct (decide (q = name)) as [->|Hq].
  - right. split; [apply lookup_None_raw; assumption|apply lookup_insert_eq].
  - left. apply lookup_insert_ne. congruence.
Qed.

Lemma mkdir_leaf_frame name exist_ok w q :
  dirs_added w (snd (OSOps.mkdir_leaf name exist_ok w)) q.
Proof.
  pose proof (mkdir_frame name w q) as H.
  unfold OSOps.mkdir_leaf, try_except.
  destruct (OSOps.mkdir name w) as [[u|e] w1]; cbn [snd] in *; [exact H|].
  destruct (is_OSError e); [|exact H].
  destruct (negb exist_ok || negb (isdir w1 name)); exact H.
Qed.

Lemma makedirs_rec_frame fuel : forall name exist_ok w q,
  dirs_added w (snd (OSOps.makedirs_rec fuel name exist_ok w)) q.
Proof.
  induction fuel as [|fuel IH]; intros name exist_ok w q; [apply dirs_added_refl|].
  cbn [OSOps.makedirs_rec].
  destruct (split name) as [head0 tail0].
  destruct (if String.eqb tail0 "" then split head0 else (head0, tail0)) as [head tail].
  destruct (negb (String.eqb head "") && negb (String.eqb tail "")
            && negb (exists_ w head)); [|apply mkdir_leaf_frame].
  unfold bind, try_except.
  pose proof (IH head exist_ok w q) as H.
  destruct (OSOps.makedirs_rec fuel head exist_ok w) as [[u|e] w1]; cbn [snd] in H.
  - destruct (String.eqb tail "."); [exact H|].
    eapply dirs_added_trans; [exact H|apply mkdir_leaf_frame].
  - destruct (is_FileExistsError e); [|exact H].
    unfold ret. destruct (String.eqb tail "."); [exact H|].
    eapply dirs_added_trans; [exact H|apply mkdir_leaf_frame].
Qed.

Lemma save_frame im path w q :
  q <> path -> snd (ImageFile.save im path w) !! q = w !! q.
Proof.
  intros Hq. unfold ImageFile.save.
  destruct (String.eqb path ""); [reflexivity|].
  destruct (ends_with_sep path || isdir w path); [reflexivity|].
  destruct (check_parent w path); [|reflexivity].
  destruct (ImageFile.png_mode (Image.mode im)); cbn [snd].
  - apply lookup_insert_ne. congruence.
  - destruct (exists_ w path); [apply lookup_insert_ne; congruence|reflexivity].
Qed.

Lemma save_raise im path w e :
  ImageFile.png_mode (Image.mode im) = true ->
  fst (ImageFile.save im path w) = Raise e ->
  snd (ImageFile.save im path w) = w.
Proof.
  intros Hm. unfold ImageFile.save.
  destruct (String.eqb path ""); [reflexivity|].
  destruct (ends_with_sep path || isdir w path); [reflexivity|].
  destruct (check_parent w path); [|reflexivity].
  rewrite Hm. discriminate.
Qed.

Lemma save_png_unfold img p w :
  save_png img p w
  = match OSOps.makedirs (dirname p) true w with
    | (Ok _, w1) => ImageFile.save img p w1
    | (Raise e, w1) => (Raise e, w1)
    end.
Proof. reflexivity. Qed.

Lemma save_png_others img p w q :
  q <> p -> dirs_added w (snd (save_png img p w)) q.
Proof.
  intros Hq. rewrite save_png_unfold. unfold OSOps.makedirs.
  pose proof (makedirs_rec_frame (S (String.length (dirname p))) (dirname p) true w q)
    as H.
  destruct (OSOps.makedirs_rec _ (dirname p) true w) as [[u|e1] w1];
    cbn [snd] in H; [|exact H].
  eapply dirs_added_trans; [exact H|]. left. apply save_frame, Hq.
Qed.

Lemma save_png_raise img p w e q :
  ImageFile.png_mode (Image.mode img) = true ->
  fst (save_png img p w) = Raise e ->
  dirs_added w (snd (save_png img p w)) q.
Proof.
  rewrite save_png_unfold. unfold OSOps.makedirs.
  pose proof (makedirs_rec_frame (S (String.length (dirname p))) (dirname p) true w q)
    as H.
  destruct (OSOps.makedirs_rec _ (dirname p) true w) as [[u|e1] w1];
    cbn [snd] in H; [|intros; exact H].
  intros Hm He. rewrite (save_raise _ _ _ _ Hm He). exact H.
Qed.

(** X9: for a plain [out_path], [save_png] never removes or alters the
    entry of another plain path: it holds what it held, or a directory
    made on the way.  When the call raises on an image of a mode the PNG
    writer takes, that is true of [out_path] as well: nothing was
    written. *)
Theorem save_png_frame (img : Image.t) (out_path : string) (w : fs) :
  plain_path out_path = true ->
  (forall q,
      plain_path q = true -> q <> out_path ->
      dirs_added w (snd (save_png img out_path w)) q)
  /\ (forall e,
        ImageFile.png_mode (Image.mode img) = true ->
        fst (save_png img out_path w) = Raise e ->
        forall q, dirs_added w (snd (save_png img out_path w)) q).
Proof.
  intros _. split.
  - intros q _. apply save_png_others.
  - intros e Hm He q. apply (save_png_raise _ _ _ e); assumption.
Qed.

Lemma main_save args w out_img :
  packed_image w args = Ok out_img ->
  fst (main args w)
  = match fst (save_png out_img (out args) w) with
    | Ok _ => Ok 0
    | Raise e => Raise e
    end
  /\ snd (main args w) = snd (save_png out_img (out args) w).
Proof.
  intros Hp. rewrite main_packed, Hp. unfold bind, ret.
  destruct (save_png out_img (out args) w) as [[u|e] w1]; split; reflexivity.
Qed.

Lemma packed_image_mode w args out_img :
  packed_image w args = Ok out_img -> Image.mode out_img = "RGBA".
Proof.
  intros H. apply packed_image_inv in H as (sz & r & g & b & a & _ & _ & ->).
  reflexivity.
Qed.

(** X10: with the output path and the supplied input paths plain, a
    run never removes or alters the entry of a plain path other than its
    output path: it holds what it held, or a directory made for the
    output.  A run that raises has not written the output either: it
    leaves every file as it was, and at most new directories behind. *)
Theorem run_frame (args : Namespace) (w : fs) :
  paths_plain args = true ->
  (forall q,
      plain_path q = true -> q <> out args ->
      dirs_added w (snd (main args w)) q)
  /\ (forall e,
        fst (main args w) = Raise e ->
        forall q, dirs_added w (snd (main args w)) q).
Proof.
  intros _. destruct (packed_image w args) as [out_img|e0] eqn:Hp.
  - destruct (main_save _ _ _ Hp) as [Hf Hs]. rewrite Hf, Hs. split.
    + intros q _. apply save_png_others.
    + intros e He q.
      destruct (fst (save_png out_img (out args) w)) as [u|e1] eqn:Hr; [discriminate|].
      apply (save_png_raise _ _ _ e1); [|exact Hr].
      rewrite (packed_image_mode _ _ _ Hp). reflexivity.
  - rewrite (main_not_packed _ _ _ Hp). cbn [fst snd].
    split; intros; apply dirs_added_refl.
Qed.


(** ** Writing into a directory that is there, or one level short *)

Lemma rstrip_tail s : rstrip s <> "" -> snd (rpartition (rstrip s)) <> "".
Proof.
  induction s as [|c s IH]; [intros H; exact H|].
  cbn [rstrip]. destruct (rstrip s) as [|c' r] eqn:E.
  - destruct (Ascii.eqb c sep) eqn:Ec; [intros H; exact H|].
    intros _. cbn [rpartition]. rewrite Ec. discriminate.
  - intros _. specialize (IH ltac:(discriminate)).
    change (rpartition (String c (String c' r)))
      with (match rpartition (String c' r) with
            | (EmptyString, t) =>
                if Ascii.eqb c sep then (String c EmptyString, t)
                else (EmptyString, String c t)
            | (h, t) => (String c h, t)
            end).
    destruct (rpartition (String c' r)) as [[|ch h] t]; cbn [snd] in IH.
    + destruct (Ascii.eqb c sep); [exact IH|discriminate].
    + exact IH.
Qed.

Lemma rpartition_slashes d : rstrip d = "" -> rpartition d = (d, "").
Proof.
  induction d as [|c d IH]; [reflexivity|].
  cbn [rstrip rpartition]. destruct (rstrip d) as [|c' r]; [|discriminate].
  destruct (Ascii.eqb c sep); [|discriminate].
  intros _. rewrite IH by reflexivity. destruct d; reflexivity.
Qed.

Lemma dirname_shape p :
  dirname p = "" \/ is_root (dirname p) = true \/ snd (rpartition (dirname p)) <> "".
Proof.
  unfold dirname, split. destruct (rpartition p) as [h t]. cbn [fst].
  unfold strip_head. destruct (rstrip h) as [|c r] eqn:E.
  - destruct h as [|c h]; [left; reflexivity|].
    right; left. unfold is_root. rewrite E. reflexivity.
  - right; right. rewrite <- E. apply rstrip_tail. rewrite E. discriminate.
Qed.

Lemma lookup_root w d : is_root d = true -> lookup w d = Some Dir.
Proof.
  intros H. unfold lookup. rewrite H.
  unfold is_root in H. destruct (String.eqb d ""); [discriminate|reflexivity].
Qed.

Lemma mkdir_leaf_present d w :
  isdir w d = true -> OSOps.mkdir_leaf d true w = (Ok tt, w).
Proof.
  intros Hd. unfold OSOps.mkdir_leaf, try_except, OSOps.mkdir.
  assert (Hl : lookup w d = Some Dir).
  { unfold isdir in Hd. destruct (lookup w d) as [[|c]|]; congruence. }
  destruct (String.eqb d "") eqn:E.
  - apply String.eqb_eq in E. subst. discriminate.
  - rewrite Hl. cbn. rewrite Hd. reflexivity.
Qed.

Lemma mkdir_leaf_absent d w :
  d <> "" -> lookup w d = None ->
  dirname d = "" \/ isdir w (dirname d) = true ->
  OSOps.mkdir_leaf d true w = (Ok tt, <[d := Dir]> w).
Proof.
  intros Hd Hl Hp. unfold OSOps.mkdir_leaf, try_except, OSOps.mkdir.
  apply String.eqb_neq in Hd. rewrite Hd, Hl.
  assert (Hc : check_parent w d = Ok tt).
  { unfold check_parent. destruct Hp as [-> | Hp]; [reflexivity|].
    destruct (String.eqb (dirname d) ""); [reflexivity|].
    unfold isdir in Hp. destruct (lookup w (dirname d)) as [[|c]|]; congruence. }
  rewrite Hc. reflexivity.
Qed.

Lemma makedirs_rec_leaf fuel d w :
  is_root d = true \/ snd (rpartition d) <> "" ->
  dirname d = "" \/ exists_ w (dirname d) = true ->
  OSOps.makedirs_rec (S fuel) d true w = OSOps.mkdir_leaf d true w.
Proof.
  intros Hs Hp. cbn [OSOps.makedirs_rec].
  destruct Hs as [Hr | Ht].
  - assert (Hd : rpartition d = (d, "")).
    { apply rpartition_slashes. unfold is_root in Hr.
      apply andb_true_iff in Hr as [_ Hr]. apply String.eqb_eq, Hr. }
    assert (Hsp : split d = (d, "")).
    { unfold split. rewrite Hd. unfold strip_head.
      unfold is_root in Hr. apply andb_true_iff in Hr as [_ Hr].
      apply String.eqb_eq in Hr. rewrite Hr. reflexivity. }
    rewrite Hsp. cbn. rewrite Hsp. cbn. rewrite andb_false_r. reflexivity.
  - assert (Hsp : split d = (dirname d, snd (rpartition d))).
    { unfold dirname, split. destruct (rpartition d); reflexivity. }
    rewrite Hsp. apply String.eqb_neq in Ht. rewrite Ht.
    destruct Hp as [-> | Hp]; [reflexivity|].
    rewrite Hp. cbn [negb]. rewrite andb_false_r. reflexivity.
Qed.

Lemma isdir_exists w d : isdir w d = true -> exists_ w d = true.
Proof. unfold isdir, exists_. destruct (lookup w d) as [[|c]|]; congruence. Qed.

Lemma makedirs_one_level p w :
  dirname p <> "" ->
  isfile w (dirname p) = false ->
  dirname (dirname p) = "" \/ isdir w (dirname (dirname p)) = true ->
  OSOps.makedirs (dirname p) true w
  = (Ok tt, if exists_ w (dirname p) then w else <[dirname p := Dir]> w).
Proof.
  intros Hd Hf Hp. unfold OSOps.makedirs.
  rewrite makedirs_rec_leaf.
  - destruct (exists_ w (dirname p)) eqn:He.
    + apply mkdir_leaf_present. unfold exists_ in He. unfold isfile in Hf.
      unfold isdir. destruct (lookup w (dirname p)) as [[|c]|]; congruence.
    + apply mkdir_leaf_absent; [exact Hd| |exact Hp].
      unfold exists_ in He. destruct (lookup w (dirname p)); congruence.
  - destruct (dirname_shape p) as [H|[H|H]]; [contradiction|auto|auto].
  - destruct Hp as [Hp|Hp]; [auto|right; apply isdir_exists, Hp].
Qed.


Lemma dirname_shorter p :
  p <> "" -> ends_with_sep p = false -> dirname p <> p.
Proof.
  intros Hp He Heq.
  pose proof (split_length p) as Hl.
  assert (Ht : snd (split p) <> "").
  { unfold ends_with_sep in He. apply String.eqb_neq in Hp. rewrite Hp in He.
    cbn [negb andb] in He. apply String.eqb_neq in He.
    unfold split. destruct (rpartition p); exact He. }
  fold (dirname p) in Hl. rewrite Heq in Hl.
  destruct (snd (split p)); [contradiction|]. cbn [String.length] in Hl. lia.
Qed.

Lemma save_written img p w :
  p <> "" -> ends_with_sep p = false -> isdir w p = false ->
  dirname p = "" \/ isdir w (dirname p) = true ->
  ImageFile.png_mode (Image.mode img) = true ->
  ImageFile.save img p w = (Ok tt, <[p := File (ImageData img)]> w).
Proof.
  intros Hp He Hd Hpar Hm. unfold ImageFile.save.
  apply String.eqb_neq in Hp. rewrite Hp, He, Hd. cbn [orb].
  assert (Hc : check_parent w p = Ok tt).
  { unfold check_parent. destruct Hpar as [-> | Hpar]; [reflexivity|].
    destruct (String.eqb (dirname p) ""); [reflexivity|].
    unfold isdir in Hpar. destruct (lookup w (dirname p)) as [[|c]|]; congruence. }
  rewrite Hc, Hm. reflexivity.
Qed.

Lemma lookup_insert_other w d p :
  d <> p -> lookup (<[d := Dir]> w) p = lookup w p.
Proof.
  intros H. unfold lookup. destruct (String.eqb p ""); [reflexivity|].
  destruct (is_root p); [reflexivity|]. apply lookup_insert_ne, H.
Qed.

Lemma save_after_makedirs img p w :
  dirname p <> "" ->
  ends_with_sep p = false -> isdir w p = false ->
  isfile w (dirname p) = false ->
  ImageFile.png_mode (Image.mode img) = true ->
  ImageFile.save img p (if exists_ w (dirname p) then w else <[dirname p := Dir]> w)
  = (Ok tt,
     <[p := File (ImageData img)]>
       (if exists_ w (dirname p) then w else <[dirname p := Dir]> w)).
Proof.
  intros Hd He Hp Hf Hm.
  assert (Hne : p <> "") by (intros ->; apply Hd; reflexivity).
  apply save_written; try assumption.
  - destruct (exists_ w (dirname p)); [exact Hp|].
    unfold isdir. rewrite lookup_insert_other by (apply dirname_shorter; assumption).
    exact Hp.
  - right. destruct (exists_ w (dirname p)) eqn:Hex.
    + unfold exists_ in Hex. unfold isfile in Hf. unfold isdir.
      destruct (lookup w (dirname p)) as [[|c]|]; congruence.
    + unfold isdir, lookup. apply String.eqb_neq in Hd. rewrite Hd.
      destruct (is_root (dirname p)); [reflexivity|].
      rewrite lookup_insert_eq. reflexivity.
Qed.

(** X11: when [out_path] is plain, its directory part is not empty and
    names a directory, or names nothing while its own parent is there,
    and [out_path] itself is no directory, [save_png] succeeds: it makes
    the missing directory, writes the image at [out_path], and changes
    nothing else. *)
Theorem save_png_writes (img : Image.t) (out_path : string) (w : fs) :
  plain_path out_path = true ->
  dirname out_path <> "" ->
  ends_with_sep out_path = false -> isdir w out_path = false ->
  isfile w (dirname out_path) = false ->
  dirname (dirname out_path) = "" \/ isdir w (dirname (dirname out_path)) = true ->
  ImageFile.png_mode (Image.mode img) = true ->
  save_png img out_path w
  = (Ok tt,
     <[out_path := File (ImageData img)]>
       (if exists_ w (dirname out_path) then w
        else <[dirname out_path := Dir]> w)).
Proof.
  intros _ Hd He Hp Hf Hpar Hm.
  rewrite save_png_unfold, makedirs_one_level by assumption.
  apply save_after_makedirs; assumption.
Qed.

(** X12: a whole run, its output path and supplied input paths plain.
    When every path the run reads decodes as an image and the output
    path can be written as above, the run ends with status 0, the file
    at the output path holds the composed RGBA image, whose size is the
    target size, and nothing else has changed but the output directory,
    made when it was missing. *)
Theorem run_succeeds (args : Namespace) (w : fs) :
  paths_plain args = true ->
  (forall p, p ∈ read_paths args -> exists img, ImageFile.open w p = Ok img) ->
  dirname (out args) <> "" ->
  ends_with_sep (out args) = false -> isdir w (out args) = false ->
  isfile w (dirname (out args)) = false ->
  dirname (dirname (out args)) = "" \/ isdir w (dirname (dirname (out args))) = true ->
  exists out_img,
    packed_image w args = Ok out_img /\
    determine_target_size w (candidate_paths args) = Ok (Image.size out_img) /\
    exit_status (fst (main args w)) = 0 /\
    snd (main args w)
    = <[out args := File (ImageData out_img)]>
        (if exists_ w (dirname (out args)) then w
         else <[dirname (out args) := Dir]> w).
Proof.
  intros _ Hin Hd He Hp Hf Hpar.
  destruct (target_size_total w args Hin) as [sz Hsz].
  destruct (target_size_positive _ _ _ Hsz) as [H1 H2].
  destruct (channels_total w args sz) as (r & g & b & a & Hc); [lia|lia|exact Hin|].
  assert (Hpk : packed_image w args
                = Ok (Image.mk "RGBA" sz
                        [Image.plane r; Image.plane g; Image.plane b; Image.plane a])).
  { unfold packed_image. rewrite Hsz. cbn [res_bind]. rewrite Hc. cbn [res_bind].
    apply (channels_compose _ _ _ _ _ _ _ Hc). }
  eexists. split; [exact Hpk|]. split; [exact Hsz|].
  destruct (main_save _ _ _ Hpk) as [Hfst Hsnd]. rewrite Hfst, Hsnd.
  rewrite save_png_unfold, makedirs_one_level by assumption.
  rewrite save_after_makedirs by (try assumption; reflexivity).
  split; reflexivity.
Qed.


(** ** Running again *)

Lemma dirs_added_same_input w w' p : dirs_added w w' p -> same_input w w' p.
Proof.
  unfold dirs_added, same_input, isfile, ImageFile.open, lookup.
  destruct (String.eqb p ""); [auto|]. destruct (is_root p); [auto|].
  intros [-> | [-> ->]]; [auto|]. split; [reflexivity|discriminate].
Qed.

Lemma read_grayscale_same w1 w2 path fb t :
  (forall p, path = Some p -> same_input w1 w2 p) ->
  read_grayscale w2 path fb t = read_grayscale w1 path fb t.
Proof.
  intros H. destruct path as [p|]; [|reflexivity].
  destruct (H p eq_refl) as [Hf Ho]. unfold read_grayscale. rewrite Hf.
  destruct (isfile w1 p); [|reflexivity]. rewrite Ho by reflexivity. reflexivity.
Qed.

Lemma determine_target_size_same w1 w2 paths :
  Forall (same_input w1 w2) paths ->
  determine_target_size w2 paths = determine_target_size w1 paths.
Proof.
  induction 1 as [|p paths [Hf Ho] _ IH]; [reflexivity|].
  cbn [determine_target_size]. rewrite Hf, IH.
  destruct (isfile w1 p); [|rewrite !andb_false_r; reflexivity].
  rewrite Ho by reflexivity. reflexivity.
Qed.

Lemma supplied_getattr args a p :
  getattr args a = Some p -> p ∈ supplied_paths args.
Proof.
  intros H. unfold supplied_paths. apply list_elem_of_omap. exists a.
  split; [|exact H]. destruct a; rewrite !elem_of_cons; auto 10.
Qed.

Lemma resolve_smoothness_same w1 w2 args sz :
  (forall p, p ∈ supplied_paths args -> same_input w1 w2 p) ->
  resolve_smoothness w2 args sz = resolve_smoothness w1 args sz.
Proof.
  intros H. unfold resolve_smoothness.
  rewrite (read_grayscale_same w1 w2 (roughness args)).
  2:{ intros p Hp. apply H, (supplied_getattr args Roughness).
      rewrite getattr_roughness. exact Hp. }
  destruct (truthy (getattr args Smoothness)); [|reflexivity].
  destruct (default_val args); [|reflexivity]. cbn [res_bind].
  apply read_grayscale_same. intros p Hp.
  apply H, (supplied_getattr args Smoothness).
  rewrite getattr_smoothness. exact Hp.
Qed.

Lemma channels_same w1 w2 args sz :
  (forall p, p ∈ supplied_paths args -> same_input w1 w2 p) ->
  channels w2 args sz = channels w1 args sz.
Proof.
  intros H. unfold channels.
  rewrite (resolve_smoothness_same w1 w2) by exact H.
  rewrite (read_grayscale_same w1 w2 (metallic args))
    by (intros p Hp; apply H, (supplied_getattr args Metallic); exact Hp).
  rewrite (read_grayscale_same w1 w2 (getattr args Height))
    by (intros p Hp; apply H, (supplied_getattr args Height); exact Hp).
  rewrite (read_grayscale_same w1 w2 (getattr args Detail))
    by (intros p Hp; apply H, (supplied_getattr args Detail); exact Hp).
  destruct (mode args) eqn:Em; try reflexivity.
  - rewrite (read_grayscale_same w1 w2 (occlusion args)); [reflexivity|].
    intros p Hp. apply H, (supplied_getattr args Occlusion).
    unfold getattr, hasattr. rewrite Em. exact Hp.
  - rewrite (read_grayscale_same w1 w2 (occlusion args)); [reflexivity|].
    intros p Hp. apply H, (supplied_getattr args Occlusion).
    unfold getattr, hasattr. rewrite Em. exact Hp.
Qed.

Lemma packed_image_same w1 w2 args :
  (forall p, p ∈ supplied_paths args -> same_input w1 w2 p) ->
  packed_image w2 args = packed_image w1 args.
Proof.
  intros H. unfold packed_image.
  rewrite (determine_target_size_same w1 w2).
  - destruct (determine_target_size w1 (candidate_paths args)); [|reflexivity].
    cbn [res_bind]. rewrite (channels_same w1 w2) by exact H. reflexivity.
  - rewrite candidate_paths_supplied. apply Forall_forall. intros p Hp.
    apply H. apply list_elem_of_In in Hp. apply filter_In in Hp as [Hp _].
    apply list_elem_of_In. exact Hp.
Qed.


Lemma main_others args w q :
  q <> out args -> dirs_added w (snd (main args w)) q.
Proof.
  intros Hq. destruct (packed_image w args) as [out_img|e0] eqn:Hp.
  - destruct (main_save _ _ _ Hp) as [_ ->]. apply save_png_others, Hq.
  - rewrite (main_not_packed _ _ _ Hp). apply dirs_added_refl.
Qed.

Lemma main_same_inputs args w p :
  out args ∉ supplied_paths args ->
  p ∈ supplied_paths args -> same_input w (snd (main args w)) p.
Proof.
  intros Hout Hp. apply dirs_added_same_input, main_others.
  intros ->. contradiction.
Qed.

(** X13: with the output path and the supplied input paths plain, and
    the output path none of the supplied input paths, a run, whether it
    succeeds or fails, leaves the file system such that running again
    composes the same image, or fails on its inputs with the same
    error. *)
Theorem rerun_same_image (args : Namespace) (w : fs) :
  paths_plain args = true ->
  out args ∉ supplied_paths args ->
  packed_image (snd (main args w)) args = packed_image w args.
Proof.
  intros _ Hout. apply packed_image_same. intros p Hp.
  apply main_same_inputs; assumption.
Qed.

Lemma read_paths_supplied args p :
  p ∈ read_paths args -> p ∈ supplied_paths args.
Proof.
  unfold read_paths. intros Hp.
  apply list_elem_of_omap in Hp as (src & Hin & Hsrc). cbn in Hsrc. subst src.
  assert (Hs : smoothness_source args = Some p -> p ∈ supplied_paths args).
  { unfold smoothness_source. rewrite getattr_smoothness, getattr_roughness.
    destruct (truthy (smoothness args)).
    - intros H. apply (supplied_getattr args Smoothness).
      rewrite getattr_smoothness. exact H.
    - destruct (truthy (roughness args)); [|discriminate].
      intros H. apply (supplied_getattr args Roughness).
      rewrite getattr_roughness. exact H. }
  assert (Hm : metallic args = Some p -> p ∈ supplied_paths args).
  { intros H. apply (supplied_getattr args Metallic). exact H. }
  destruct (mode args) eqn:Em; rewrite !elem_of_cons, elem_of_nil in Hin;
    repeat match goal with
      | H : _ \/ _ |- _ => destruct H as [H | H]
      end;
    try contradiction; try (apply Hs; congruence); try (apply Hm; congruence).
  - apply (supplied_getattr args Occlusion). unfold getattr, hasattr.
    rewrite Em. cbn. congruence.
  - apply (supplied_getattr args Height). congruence.
  - apply (supplied_getattr args Occlusion). unfold getattr, hasattr.
    rewrite Em. cbn. congruence.
  - apply (supplied_getattr args Detail). congruence.
Qed.

Lemma main_written args w :
  (forall p, p ∈ read_paths args -> exists img, ImageFile.open w p = Ok img) ->
  dirname (out args) <> "" ->
  ends_with_sep (out args) = false -> isdir w (out args) = false ->
  isfile w (dirname (out args)) = false ->
  dirname (dirname (out args)) = "" \/ isdir w (dirname (dirname (out args))) = true ->
  exists out_img,
    packed_image w args = Ok out_img /\
    main args w
    = (Ok 0,
       <[out args := File (ImageData out_img)]>
         (if exists_ w (dirname (out args)) then w
          else <[dirname (out args) := Dir]> w)).
Proof.
  intros Hin Hd He Hp Hf Hpar.
  destruct (target_size_total w args Hin) as [sz Hsz].
  destruct (target_size_positive _ _ _ Hsz) as [H1 H2].
  destruct (channels_total w args sz) as (r & g & b & a & Hc); [lia|lia|exact Hin|].
  assert (Hpk : packed_image w args
                = Ok (Image.mk "RGBA" sz
                        [Image.plane r; Image.plane g; Image.plane b; Image.plane a])).
  { unfold packed_image. rewrite Hsz. cbn [res_bind]. rewrite Hc. cbn [res_bind].
    apply (channels_compose _ _ _ _ _ _ _ Hc). }
  eexists. split; [exact Hpk|].
  rewrite main_packed, Hpk. unfold bind.
  rewrite save_png_unfold, makedirs_one_level by assumption.
  rewrite save_after_makedirs by (try assumption; reflexivity).
  reflexivity.
Qed.

Lemma isdir_insert_file w p c x :
  isdir w p = false -> isdir w x = true ->
  isdir (<[p := File c]> w) x = true.
Proof.
  intros Hp Hx. assert (Hne : x <> p) by congruence.
  unfold isdir, lookup in *. destruct (String.eqb x ""); [exact Hx|].
  destruct (is_root x); [reflexivity|].
  rewrite lookup_insert_ne by congruence. exact Hx.
Qed.

Lemma isdir_made w d :
  d <> "" -> isfile w d = false ->
  isdir (if exists_ w d then w else <[d := Dir]> w) d = true.
Proof.
  intros Hd Hf. destruct (exists_ w d) eqn:Hex.
  - unfold exists_ in Hex. unfold isfile in Hf. unfold isdir.
    destruct (lookup w d) as [[|c]|]; congruence.
  - unfold isdir, lookup. apply String.eqb_neq in Hd. rewrite Hd.
    destruct (is_root d); [reflexivity|]. rewrite lookup_insert_eq. reflexivity.
Qed.

Lemma isdir_kept w d x :
  isdir w x = true ->
  isdir (if exists_ w d then w else <[d := Dir]> w) x = true.
Proof.
  intros Hx. destruct (exists_ w d); [exact Hx|].
  unfold isdir, lookup in *. destruct (String.eqb x ""); [exact Hx|].
  destruct (is_root x); [reflexivity|].
  destruct (decide (d = x)) as [->|Hne].
  - rewrite lookup_insert_eq. reflexivity.
  - rewrite lookup_insert_ne by exact Hne. exact Hx.
Qed.

Lemma isdir_file w p c :
  isdir w p = false -> isdir (<[p := File c]> w) p = false.
Proof.
  unfold isdir, lookup. destruct (String.eqb p ""); [auto|].
  destruct (is_root p); [auto|]. intros _. rewrite lookup_insert_eq. reflexivity.
Qed.

Lemma isdir_not_file w d : isdir w d = true -> isfile w d = false.
Proof. unfold isdir, isfile. destruct (lookup w d) as [[|c]|]; congruence. Qed.

(** X14: running twice.  Under the conditions of a successful run, the
    paths plain, and with an output path that is none of the supplied
    input paths, the second run succeeds as well and leaves the file
    system exactly as the first run left it: the same image at the
    output path, nothing added. *)
Theorem rerun_idempotent (args : Namespace) (w : fs) :
  paths_plain args = true ->
  (forall p, p ∈ read_paths args -> exists img, ImageFile.open w p = Ok img) ->
  dirname (out args) <> "" ->
  ends_with_sep (out args) = false -> isdir w (out args) = false ->
  isfile w (dirname (out args)) = false ->
  dirname (dirname (out args)) = "" \/ isdir w (dirname (dirname (out args))) = true ->
  out args ∉ supplied_paths args ->
  fst (main args w) = Ok 0 /\
  main args (snd (main args w)) = (Ok 0, snd (main args w)).
Proof.
  intros _ Hin Hd He Hp Hf Hpar Hout.
  destruct (main_written args w Hin Hd He Hp Hf Hpar) as (img & Hpk & Hmain).
  split; [rewrite Hmain; reflexivity|].
  pose proof (fun p Hs => main_same_inputs args w p Hout Hs) as Hsame.
  pose proof (packed_image_same w (snd (main args w)) args Hsame) as Hpk'.
  rewrite Hpk in Hpk'. rewrite Hmain in *. cbn [snd] in *.
  set (w1 := if exists_ w (dirname (out args)) then w
             else <[dirname (out args) := Dir]> w) in *.
  assert (Hd1 : isdir w1 (dirname (out args)) = true) by (apply isdir_made; assumption).
  assert (Hp1 : isdir w1 (out args) = false).
  { unfold w1. destruct (exists_ w (dirname (out args))); [exact Hp|].
    unfold isdir. rewrite lookup_insert_other; [exact Hp|].
    apply dirname_shorter; [|exact He]. intros E. rewrite E in Hd. apply Hd. reflexivity. }
  destruct (main_written args (<[out args := File (ImageData img)]> w1))
    as (img' & Hpk'' & Hmain').
  - intros p Hr. destruct (Hin p Hr) as [im Ho].
    destruct (Hsame p (read_paths_supplied _ _ Hr)) as [_ Hopen].
    exists im. rewrite Hopen by apply (open_isfile _ _ _ Ho). exact Ho.
  - exact Hd.
  - exact He.
  - apply isdir_file, Hp1.
  - apply isdir_not_file, isdir_insert_file; assumption.
  - destruct Hpar as [Hpar|Hpar]; [left; exact Hpar|right].
    apply isdir_insert_file; [exact Hp1|]. apply isdir_kept, Hpar.
  - rewrite Hmain'. rewrite Hpk' in Hpk''. injection Hpk'' as <-.
    rewrite (isdir_exists _ _ (isdir_insert_file _ _ _ _ Hp1 Hd1)).
    rewrite insert_insert_eq. reflexivity.
Qed.


(** ** The printed summary *)

Lemma main_print_main repr_float args w :
  main_print repr_float args w
  = match determine_target_size w (candidate_paths args) with
    | Ok sz =>
        match main args w with
        | (Ok c, w') =>
            (Ok (c, print_summary (mode_name (mode args)) (mapping repr_float args)
                      sz (out args)), w')
        | (Raise e, w') => (Raise e, w')
        end
    | Raise e => (Raise e, w)
    end.
Proof.
  unfold main_print, main, bind, inspect, ret.
  destruct (determine_target_size w (candidate_paths args)) as [sz|e]; [|reflexivity].
  destruct (mode args).
  - destruct (read_grayscale w (metallic args) 0 (Some sz)); [|reflexivity].
    destruct (read_grayscale w (occlusion args) 255 (Some sz)); [|reflexivity].
    destruct (read_grayscale w (getattr args Height) 128 (Some sz)); [|reflexivity].
    destruct (resolve_smoothness w args sz); [|reflexivity].
    destruct (compose_rgba _ _ _ _); [|reflexivity].
    destruct (save_png _ _ w) as [[u|e] w1]; reflexivity.
  - destruct (read_grayscale w (metallic args) 0 (Some sz)); [|reflexivity].
    destruct (read_grayscale w (occlusion args) 255 (Some sz)); [|reflexivity].
    destruct (read_grayscale w (getattr args Detail) 255 (Some sz)); [|reflexivity].
    destruct (resolve_smoothness w args sz); [|reflexivity].
    destruct (compose_rgba _ _ _ _); [|reflexivity].
    destruct (save_png _ _ w) as [[u|e] w1]; reflexivity.
  - destruct (read_grayscale w (metallic args) 0 (Some sz)); [|reflexivity].
    destruct (resolve_smoothness w args sz); [|reflexivity].
    destruct (Image.new "L" sz 0); [|reflexivity].
    destruct (compose_rgba _ _ _ _); [|reflexivity].
    destruct (save_png _ _ w) as [[u|e] w1]; reflexivity.
Qed.

Lemma main_print_inv repr_float args w c lines w' :
  main_print repr_float args w = (Ok (c, lines), w') ->
  exists sz r g b a,
    determine_target_size w (candidate_paths args) = Ok sz /\
    channels w args sz = Ok (r, g, b, a) /\
    main args w = (Ok 0, w') /\ c = 0 /\
    w' !! out args
    = Some (File (ImageData
         (Image.mk "RGBA" sz
            [Image.plane r; Image.plane g; Image.plane b; Image.plane a]))) /\
    lines = print_summary (mode_name (mode args)) (mapping repr_float args) sz (out args).
Proof.
  rewrite main_print_main.
  destruct (determine_target_size w (candidate_paths args)) as [sz|e] eqn:Hsz;
    [|discriminate].
  destruct (main args w) as [[c0|e] w0] eqn:Hm; [|discriminate].
  intros [= <- <- <-].
  destruct (main_ok _ _ _ _ Hm) as (-> & out_img & Hp & Hw).
  destruct (packed_image_inv _ _ _ Hp) as (sz' & r & g & b & a & Hsz' & Hc & ->).
  rewrite Hsz in Hsz'. injection Hsz' as <-.
  exists sz, r, g, b, a. auto 10.
Qed.

(** X15: the summary is printed only by a run that has written its
    output.  It has eight lines: the sub-command, the resolution, which
    is the size of the image at the output path, the output path, and
    one line for each of the four channels. *)
Theorem summary_after_write (repr_float : float -> string) (args : Namespace)
    (w w' : fs) (c : Z) (lines : list string) :
  main_print repr_float args w = (Ok (c, lines), w') ->
  c = 0 /\ main args w = (Ok 0, w') /\
  exists out_img entries,
    w' !! out args = Some (File (ImageData out_img)) /\
    Image.mode out_img = "RGBA" /\
    length entries = 4%nat /\
    lines
    = ("Mode: " ++ mode_name (mode args))
      :: ("Resolution: "
          ++ (pretty (Image.width out_img) ++ "x" ++ pretty (Image.height out_img)))
      :: ("Output: " ++ out args)
      :: "Channel mapping:"
      :: entries.
Proof.
  intros H.
  apply main_print_inv in H as (sz & r & g & b & a & _ & _ & Hm & -> & Hw & ->).
  split; [reflexivity|]. split; [exact Hm|].
  eexists. eexists. split; [exact Hw|]. split; [reflexivity|].
  split; [|reflexivity].
  rewrite length_map. unfold mapping. destruct (mode args); reflexivity.
Qed.

Lemma truthy_isfile w p : isfile w p = true -> truthy (Some p) = true.
Proof.
  intros H. apply truthy_Some. intros ->. rewrite isfile_empty in H. discriminate.
Qed.

Lemma or_label w path fb sz im const :
  read_grayscale w path fb (Some sz) = Ok im ->
  str_of (py_or path (Some const)) = channel_label path const.
Proof.
  destruct path as [p|]; [|reflexivity].
  intros H. apply read_grayscale_Some_inv in H as (Hf & _).
  unfold py_or. rewrite (truthy_isfile _ _ Hf). reflexivity.
Qed.

Lemma smoothness_entry_label repr_float args :
  str_of (smoothness_entry repr_float args) = smoothness_label repr_float args.
Proof.
  unfold smoothness_entry, smoothness_label, smoothness_source, py_or, py_and.
  rewrite getattr_smoothness, getattr_roughness.
  destruct (truthy (smoothness args)) eqn:Es.
  - rewrite Es. destruct (smoothness args); [reflexivity|discriminate].
  - cbn [negb andb]. destruct (invert_roughness args).
    + destruct (truthy (roughness args)) eqn:Er.
      * cbn [truthy]. destruct (roughness args) as [r|]; [|discriminate].
        cbn [str_of]. reflexivity.
      * rewrite Er. reflexivity.
    + destruct (truthy (roughness args)) eqn:Er; [|reflexivity].
      destruct (roughness args); [reflexivity|discriminate].
Qed.

(** X16: the channel lines of a printed summary name where each channel
    of the written image came from: the path for a channel that was
    loaded, a constant for one that was not; for the smoothness channel
    the smoothness path, else the roughness path, in [invert(...)] when
    it was inverted, else the default as given (not clamped). *)
Theorem summary_names_sources (repr_float : float -> string) (args : Namespace)
    (w w' : fs) (c : Z) (lines : list string) :
  main_print repr_float args w = (Ok (c, lines), w') ->
  drop 4 lines
  = match mode args with
    | UrpRa =>
        ["  - R (Metallic): " ++ channel_label (metallic args) "const 0";
         "  - G (ignored): const 0";
         "  - B (ignored): const 0";
         "  - A (Smoothness): " ++ smoothness_label repr_float args]
    | UrpTerrain =>
        ["  - R (Metallic): " ++ channel_label (metallic args) "const 0";
         "  - G (AO): " ++ channel_label (occlusion args) "const 1";
         "  - B (Height): " ++ channel_label (height args) "const 0.5";
         "  - A (Smoothness): " ++ smoothness_label repr_float args]
    | Hdrp =>
        ["  - R (Metallic): " ++ channel_label (metallic args) "const 0";
         "  - G (AO): " ++ channel_label (occlusion args) "const 1";
         "  - B (DetailMask): " ++ channel_label (detail args) "const 1";
         "  - A (Smoothness): " ++ smoothness_label repr_float args]
    end.
Proof.
  intros H.
  apply main_print_inv in H as (sz & r & g & b & a & _ & Hc & _ & _ & _ & ->).
  unfold print_summary, mapping. cbn [drop app].
  pose proof (smoothness_entry_label repr_float args) as Ha.
  unfold channels in Hc. unfold getattr, hasattr in Hc.
  destruct (mode args); cbn [map field] in *.
  - destruct (read_grayscale w (metallic args) _ _) eqn:Hm; [|discriminate].
    destruct (read_grayscale w (occlusion args) _ _) eqn:Ho; [|discriminate].
    destruct (read_grayscale w (height args) _ _) eqn:Hh; [|discriminate].
    rewrite (or_label _ _ _ _ _ _ Hm), (or_label _ _ _ _ _ _ Ho),
      (or_label _ _ _ _ _ _ Hh), Ha. reflexivity.
  - destruct (read_grayscale w (metallic args) _ _) eqn:Hm; [|discriminate].
    destruct (read_grayscale w (occlusion args) _ _) eqn:Ho; [|discriminate].
    destruct (read_grayscale w (detail args) _ _) eqn:Hd; [|discriminate].
    rewrite (or_label _ _ _ _ _ _ Hm), (or_label _ _ _ _ _ _ Ho),
      (or_label _ _ _ _ _ _ Hd), Ha. reflexivity.
  - destruct (read_grayscale w (metallic args) _ _) eqn:Hm; [|discriminate].
    rewrite (or_label _ _ _ _ _ _ Hm), Ha. reflexivity.
Qed.


(** ** The default smoothness next to a source *)

Lemma resolve_smoothness_default w args sz d :
  smoothness_source args <> None ->
  resolve_smoothness w (with_default_smoothness args d) sz
  = resolve_smoothness w args sz.
Proof.
  intros Hs. unfold smoothness_source in Hs.
  rewrite getattr_smoothness, getattr_roughness in Hs.
  destruct (truthy (smoothness args)) eqn:Es.
  - rewrite !resolve_smoothness_smooth by exact Es. reflexivity.
  - destruct (truthy (roughness args)) eqn:Er; [|contradiction].
    rewrite !resolve_smoothness_rough by assumption. reflexivity.
Qed.

(** X17: with a smoothness or roughness source in use, the value of
    [--default-smoothness] has no effect on the composed image, whatever
    float it is: NaN and the infinities change nothing and raise
    nothing, although the smoothness branch computes the constant before
    it loads the file. *)
Theorem default_smoothness_unused (w : fs) (args : Namespace) (d : float) :
  smoothness_source args <> None ->
  packed_image w (with_default_smoothness args d) = packed_image w args.
Proof.
  intros Hs. unfold packed_image.
  change (candidate_paths (with_default_smoothness args d)) with (candidate_paths args).
  destruct (determine_target_size w (candidate_paths args)) as [sz|e]; [|reflexivity].
  cbn [res_bind].
  assert (Hc : channels w (with_default_smoothness args d) sz = channels w args sz).
  { unfold channels. rewrite (resolve_smoothness_default w args sz d Hs). reflexivity. }
  rewrite Hc. reflexivity.
Qed.


(** ** Inverting an image of any mode *)

Lemma ensure_uint8_props im :
  Image.valid im ->
  Image.mode (ensure_uint8 im) = "L" /\
  Image.size (ensure_uint8 im) = Image.size im /\
  Image.valid (ensure_uint8 im).
Proof.
  intros Hv. unfold ensure_uint8.
  destruct (String.eqb (Image.mode im) "L") eqn:E; cbn [negb].
  - apply String.eqb_eq in E. auto.
  - split; [apply convert_mode|]. split; [apply convert_size|apply convert_valid, Hv].
Qed.

(** X18: [invert_l] takes a well-formed image of any mode: the result
    is the ["L"] version of the image with every sample [v] replaced by
    [255 - v], of the same size, and inverting it again gives back that
    ["L"] version. *)
Theorem invert_l_any_mode (im : Image.t) :
  Image.valid im ->
  Image.mode (invert_l im) = "L" /\
  Image.size (invert_l im) = Image.size im /\
  Image.valid (invert_l im) /\
  Image.bands (invert_l im)
  = map (map (fun v => 255 - v)) (Image.bands (ensure_uint8 im)) /\
  invert_l (invert_l im) = ensure_uint8 im.
Proof.
  intros Hv. destruct (ensure_uint8_props im Hv) as (Hm & Hs & Hve).
  assert (Hinv : invert_l im = invert_l (ensure_uint8 im)).
  { unfold invert_l. rewrite (ensure_uint8_L (ensure_uint8 im) Hm). reflexivity. }
  rewrite Hinv. set (e := ensure_uint8 im) in *.
  destruct (invert_l_props e Hm Hve) as (Hm' & Hs' & Hv').
  pose proof (invert_l_bands e Hm Hve) as Hb.
  split; [exact Hm'|]. split; [congruence|]. split; [exact Hv'|]. split; [exact Hb|].
  pose proof (invert_l_bands (invert_l e) Hm' Hv') as Hb2.
  rewrite Hb in Hb2.
  assert (Hbands : Image.bands (invert_l (invert_l e)) = Image.bands e).
  { rewrite Hb2. clear. induction (Image.bands e) as [|p bs IH]; cbn [map]; [reflexivity|].
    rewrite IH, map_map_invert. reflexivity. }
  destruct (invert_l_props (invert_l e) Hm' Hv') as (Hm2 & Hs2 & _).
  destruct (invert_l (invert_l e)) as [m2 s2 b2]. destruct e as [m0 s0 b0].
  cbn in *. congruence.
Qed.

End Coverage.

(** * Concrete runs *)

(** C10 at a two-sample raster. *)
Lemma invert_l_involutive_witness :
  invert_l (invert_l (Examples.gray2 40 60)) = Examples.gray2 40 60.
Proof.
  apply invert_l_involutive; [reflexivity|].
  apply validb_valid. reflexivity.
Defined.

(** C2 at [tex/rough.png], one sample of value 10, with the flag set:
    the resolved sample is 255 - 10. *)
Lemma roughness_inversion_witness :
  exists a,
    resolve_smoothness Examples.disk
      (Examples.smooth_rough Hdrp None (Some "tex/rough.png") true "out/mask.png")
      (1, 1) = Ok a /\
    Image.mode a = "L" /\ Image.size a = (1, 1) /\
    forall x y,
      0 <= x < 1 -> 0 <= y < 1 ->
      Image.getpixel a 0 x y = 255 - Image.getpixel (Examples.gray1 10) 0 x y.
Proof.
  exact (roughness_inversion Examples.disk
           (Examples.smooth_rough Hdrp None (Some "tex/rough.png") true "out/mask.png")
           (1, 1) "tex/rough.png" (Examples.gray1 10)
           eq_refl eq_refl eq_refl).
Defined.

(** C1 as stated fails: with [--smoothness ""] the empty string is
    supplied as the smoothness path, yet the 4th channel is taken from
    the roughness image and follows the flag (245 inverted, 10 not),
    while loading the smoothness path itself fails. *)
Lemma smoothness_priority_counterexample :
  smoothness (Examples.smooth_rough UrpRa (Some "") (Some "tex/rough.png") true "out/mask.png")
    = Some "" /\
  roughness (Examples.smooth_rough UrpRa (Some "") (Some "tex/rough.png") true "out/mask.png")
    = Some "tex/rough.png" /\
  resolve_smoothness Examples.disk
    (Examples.smooth_rough UrpRa (Some "") (Some "tex/rough.png") true "out/mask.png")
    (1, 1) = Ok (Examples.gray1 245) /\
  resolve_smoothness Examples.disk
    (Examples.smooth_rough UrpRa (Some "") (Some "tex/rough.png") false "out/mask.png")
    (1, 1) = Ok (Examples.gray1 10) /\
  read_grayscale Examples.disk (Some "") 128 (Some (1, 1))
    = Raise (FileNotFoundError "Input image not found: ").
Proof. repeat split; vm_compute; reflexivity. Qed.

(** C1, amended, at [tex/smooth.png] with a roughness path and the
    flag, and at the empty smoothness string with the same roughness
    path. *)
Lemma smoothness_priority_witness :
  (resolve_smoothness Examples.disk
     (Examples.smooth_rough UrpRa (Some "tex/smooth.png") (Some "tex/rough.png") true "out/mask.png")
     (1, 1)
   = read_grayscale Examples.disk (Some "tex/smooth.png") 0 (Some (1, 1)) /\
   forall r inv,
     resolve_smoothness Examples.disk
       (with_roughness
          (Examples.smooth_rough UrpRa (Some "tex/smooth.png") (Some "tex/rough.png") true "out/mask.png")
          r inv) (1, 1)
     = resolve_smoothness Examples.disk
         (Examples.smooth_rough UrpRa (Some "tex/smooth.png") (Some "tex/rough.png") true "out/mask.png")
         (1, 1))
  /\ (resolve_smoothness Examples.disk
        (Examples.smooth_rough UrpRa (Some "") (Some "tex/rough.png") true "out/mask.png")
        (1, 1)
      = resolve_smoothness Examples.disk
          (with_smoothness
             (Examples.smooth_rough UrpRa (Some "") (Some "tex/rough.png") true "out/mask.png")
             None) (1, 1) /\
      forall r,
        Some "tex/rough.png" = Some r -> r <> "" ->
        resolve_smoothness Examples.disk
          (Examples.smooth_rough UrpRa (Some "") (Some "tex/rough.png") true "out/mask.png")
          (1, 1)
        = (rough_l <~ read_grayscale Examples.disk (Some r) 0 (Some (1, 1)) ;;
           Ok (if true then invert_l rough_l else rough_l))).
Proof.
  split.
  - apply (proj1 (smoothness_priority Examples.disk
                    (Examples.smooth_rough UrpRa (Some "tex/smooth.png")
                       (Some "tex/rough.png") true "out/mask.png")
                    (1, 1) "tex/smooth.png" eq_refl)).
    discriminate.
  - apply (proj2 (smoothness_priority Examples.disk
                    (Examples.smooth_rough UrpRa (Some "")
                       (Some "tex/rough.png") true "out/mask.png")
                    (1, 1) "" eq_refl)).
    reflexivity.
Defined.


(** C6 as stated fails: [--smoothness tex/smooth.png --roughness
    tex/missing.png] supplies a roughness path that names no file, yet the
    run ends with status 0 and writes the output: the roughness path is
    not read as a channel. *)
Lemma missing_input_counterexample :
  roughness (Examples.smooth_rough UrpRa (Some "tex/smooth.png")
               (Some "tex/missing.png") false "out/mask.png")
    = Some "tex/missing.png" /\
  OS.isfile Examples.disk "tex/missing.png" = false /\
  fst (main (Examples.smooth_rough UrpRa (Some "tex/smooth.png")
               (Some "tex/missing.png") false "out/mask.png") Examples.disk)
    = Ok 0 /\
  snd (main (Examples.smooth_rough UrpRa (Some "tex/smooth.png")
               (Some "tex/missing.png") false "out/mask.png") Examples.disk)
    !! "out/mask.png"
    = Some (OS.File (OS.ImageData (Image.mk "RGBA" (1, 1) [[0]; [0]; [0]; [200]]))).
Proof. repeat split; vm_compute; reflexivity. Qed.

(** C6, amended, at a run whose only source for the smoothness channel,
    [tex/missing.png], names no file, and at the run with
    [tex/missing.png] as roughness path next to [tex/smooth.png]. *)
Lemma missing_input_fails_witness :
  (exists e,
      main (Examples.smooth_rough UrpRa None (Some "tex/missing.png") true "out/mask.png")
        Examples.disk = (Raise e, Examples.disk) /\
      exit_status (Raise e) <> 0 /\
      input_failure Examples.disk
        (Examples.smooth_rough UrpRa None (Some "tex/missing.png") true "out/mask.png") e)
  /\ main (Examples.smooth_rough UrpRa (Some "tex/smooth.png") (Some "tex/missing.png")
             false "out/mask.png") Examples.disk
     = main (with_roughness
               (Examples.smooth_rough UrpRa (Some "tex/smooth.png")
                  (Some "tex/missing.png") false "out/mask.png")
               None false) Examples.disk.
Proof.
  split.
  - apply (proj1 (missing_input_fails Examples.disk
                    (Examples.smooth_rough UrpRa None (Some "tex/missing.png") true
                       "out/mask.png"))
             "tex/missing.png").
    + apply list_elem_of_here.
    + reflexivity.
  - apply (proj2 (missing_input_fails Examples.disk
                    (Examples.smooth_rough UrpRa (Some "tex/smooth.png")
                       (Some "tex/missing.png") false "out/mask.png"))
             "tex/smooth.png" "tex/missing.png").
    + reflexivity.
    + discriminate.
    + reflexivity.
    + reflexivity.
Defined.

(** A roughness path that is not read as a channel is still opened when
    it is the first supplied path that is a file: with [--smoothness
    tex/missing.png --roughness tex/notes.txt] the run fails on the
    text file, before it looks for the smoothness path. *)
Example shadowed_roughness_opened :
  main (Examples.smooth_rough UrpRa (Some "tex/missing.png") (Some "tex/notes.txt")
          false "out/mask.png") Examples.disk
  = (Raise (UnidentifiedImageError "tex/notes.txt"), Examples.disk) /\
  ("tex/notes.txt"
   ∉ read_paths (Examples.smooth_rough UrpRa (Some "tex/missing.png")
                   (Some "tex/notes.txt") false "out/mask.png")) /\
  List.find (OS.isfile Examples.disk)
    (supplied_paths (Examples.smooth_rough UrpRa (Some "tex/missing.png")
                       (Some "tex/notes.txt") false "out/mask.png"))
  = Some "tex/notes.txt".
Proof.
  split; [vm_compute; reflexivity|]. split; [|vm_compute; reflexivity].
  intros H. apply list_elem_of_In in H. cbn in H.
  destruct H as [H|[]]. discriminate H.
Qed.

(** C8 as stated fails: with [--metallic tex/metal.png --smoothness ""]
    the supplied smoothness string names no file, yet the smoothness
    channel is the fallback constant 128 and the run goes on to write its
    output with status 0. *)
Lemma no_fallback_counterexample :
  smoothness (Examples.with_metal UrpRa (Some "") "out/mask.png") = Some "" /\
  OS.isfile Examples.disk "" = false /\
  resolve_smoothness Examples.disk
    (Examples.with_metal UrpRa (Some "") "out/mask.png") (2, 1)
    = Ok (Image.solid "L" (2, 1) 128) /\
  fst (main (Examples.with_metal UrpRa (Some "") "out/mask.png") Examples.disk)
    = Ok 0 /\
  snd (main (Examples.with_metal UrpRa (Some "") "out/mask.png") Examples.disk)
    !! "out/mask.png"
    = Some (OS.File (OS.ImageData
              (Image.mk "RGBA" (2, 1) [[40; 60]; [0; 0]; [0; 0]; [128; 128]]))).
Proof. repeat split; vm_compute; reflexivity. Qed.

(** C7 at [urp-ra --metallic tex/metal.png]. *)
Lemma urp_ra_unused_channels_witness :
  (forall out_img,
      packed_image Examples.disk (Examples.with_metal UrpRa None "out/mask.png") = Ok out_img ->
      Image.mode out_img = "RGBA" /\
      nth 1 (Image.bands out_img) [] = replicate (Image.area (Image.size out_img)) 0 /\
      nth 2 (Image.bands out_img) [] = replicate (Image.area (Image.size out_img)) 0)
  /\ (forall code w',
        main (Examples.with_metal UrpRa None "out/mask.png") Examples.disk = (Ok code, w') ->
        exists out_img,
          packed_image Examples.disk (Examples.with_metal UrpRa None "out/mask.png") = Ok out_img /\
          w' !! "out/mask.png" = Some (OS.File (OS.ImageData out_img))).
Proof.
  exact (urp_ra_unused_channels Examples.disk
           (Examples.with_metal UrpRa None "out/mask.png") eq_refl).
Defined.

(** The run of the witness above: metallic in R, zeros in G and B, the
    default smoothness in A, written under a directory made for it. *)
Example urp_ra_run :
  fst (main (Examples.with_metal UrpRa None "out/mask.png") Examples.disk) = Ok 0 /\
  snd (main (Examples.with_metal UrpRa None "out/mask.png") Examples.disk) !! "out"
    = Some OS.Dir /\
  snd (main (Examples.with_metal UrpRa None "out/mask.png") Examples.disk) !! "out/mask.png"
    = Some (OS.File (OS.ImageData
              (Image.mk "RGBA" (2, 1) [[40; 60]; [0; 0]; [0; 0]; [128; 128]]))).
Proof. repeat split; vm_compute; reflexivity. Qed.

(** C4 at [urp-terrain --out out/mask.png]: R=0, G=255, B=128, A=128 at
    1024x1024; at [hdrp --default-smoothness 1.0]: A=255; and at
    [urp-ra --default-smoothness 0.25]: A=64, the integer nearest to
    63.75. *)
Lemma no_inputs_defaults_witness :
  packed_image Examples.disk (Examples.bare UrpTerrain "out/mask.png")
  = Ok (uniform_rgba (1024, 1024) 0 255 128 128) /\
  packed_image Examples.disk
    (with_default_smoothness (Examples.bare Hdrp "out/mask.png") 1)
  = Ok (uniform_rgba (1024, 1024) 0 255 255 255) /\
  packed_image Examples.disk
    (with_default_smoothness (Examples.bare UrpRa "out/mask.png") 0.25)
  = Ok (uniform_rgba (1024, 1024) 0 0 0 64).
Proof.
  split; [|split].
  - exact (proj2 (no_inputs_defaults Examples.disk
                    (Examples.bare UrpTerrain "out/mask.png") eq_refl)
             eq_refl eq_refl).
  - destruct (proj1 (no_inputs_defaults Examples.disk
                       (with_default_smoothness (Examples.bare Hdrp "out/mask.png") 1)
                       eq_refl))
      as (v & _ & (_ & H1 & _) & Hp).
    assert (Hq : packed_image Examples.disk
                   (with_default_smoothness (Examples.bare Hdrp "out/mask.png") 1)
                 = Ok (uniform_rgba (1024, 1024) 0 255 255 v)) by exact (proj1 Hp).
    assert (E : v = 255) by (apply H1; reflexivity).
    subst v. exact Hq.
  - destruct (proj1 (no_inputs_defaults Examples.disk
                       (with_default_smoothness (Examples.bare UrpRa "out/mask.png") 0.25)
                       eq_refl))
      as (v & _ & (_ & _ & _ & Hn) & Hp).
    assert (Hq : packed_image Examples.disk
                   (with_default_smoothness (Examples.bare UrpRa "out/mask.png") 0.25)
                 = Ok (uniform_rgba (1024, 1024) 0 0 0 v)) by exact (proj1 Hp).
    assert (E : v = 64).
    { specialize (Hn 4503599627370496%positive (-54) eq_refl eq_refl).
      change (2 ^ (- -54)) with 18014398509481984 in Hn.
      change (2 ^ (- -54 - 43)) with 2048 in Hn. lia. }
    subst v. exact Hq.
Defined.

(** Mixed resolutions: a metallic map of 2x1 and a smoothness map of 1x1
    give an output of 2x1, the smoothness sample spread over both
    pixels. *)
Example mixed_resolution_run :
  packed_image Examples.disk
    (Examples.with_metal Hdrp (Some "tex/smooth.png") "out/mask.png")
  = Ok (Image.mk "RGBA" (2, 1) [[40; 60]; [255; 255]; [255; 255]; [200; 200]]).
Proof. vm_compute. reflexivity. Qed.

(** C9 on a whole run: [urp-ra --metallic tex/metal.png --out out.png]
    composes its image and then fails in [save_png], leaving the file
    system as it was. *)
Example bare_filename_run :
  main (Examples.with_metal UrpRa None "out.png") Examples.disk
  = (Raise (FileNotFoundError ""), Examples.disk).
Proof. vm_compute. reflexivity. Qed.

(** [os.path.dirname] on the shapes an output path takes. *)
Example dirname_examples :
  OS.dirname "out.png" = "" /\
  OS.dirname "out/mask.png" = "out" /\
  OS.dirname "a/b/mask.png" = "a/b" /\
  OS.dirname "/mask.png" = "/" /\
  OS.dirname "out//mask.png" = "out" /\
  OS.dirname "out/" = "out".
Proof. repeat split; reflexivity. Qed.

(** ** Instances of the further properties *)

(** X5 at [read_grayscale("tex/metal.png", 0)] without a target size:
    the 2x1 file keeps its size. *)
Lemma read_grayscale_shape_witness :
  Image.mode (Examples.gray2 40 60) = "L" /\
  Image.valid (Examples.gray2 40 60) /\
  exists img,
    ImageFile.open Examples.disk "tex/metal.png" = Ok img /\
    Image.size (Examples.gray2 40 60) = Image.size img.
Proof.
  apply (read_grayscale_shape Examples.disk (Some "tex/metal.png") 0 None
           (Examples.gray2 40 60)).
  vm_compute. reflexivity.
Defined.

(** X6 at a directory, the empty string and a missing file in front of
    the metallic map. *)
Lemma determine_target_size_skips_witness :
  determine_target_size Examples.disk
    (["tex"; ""; "tex/missing.png"] ++ ["tex/metal.png"; "tex/smooth.png"])%list
  = determine_target_size Examples.disk ["tex/metal.png"; "tex/smooth.png"] /\
  determine_target_size Examples.disk ["tex"; ""; "tex/missing.png"] = Ok (1024, 1024).
Proof.
  apply (determine_target_size_skips Examples.disk).
  repeat constructor.
Defined.

(** X7 at [urp-ra --metallic tex/metal.png --smoothness tex/missing.png]. *)
Lemma run_fails_only_on_inputs_witness :
  input_error Examples.disk
    (Examples.with_metal UrpRa (Some "tex/missing.png") "out/mask.png")
    (not_found "tex/missing.png") /\
  main (Examples.with_metal UrpRa (Some "tex/missing.png") "out/mask.png") Examples.disk
  = (Raise (not_found "tex/missing.png"), Examples.disk).
Proof.
  apply (run_fails_only_on_inputs Examples.disk
           (Examples.with_metal UrpRa (Some "tex/missing.png") "out/mask.png")).
  vm_compute. reflexivity.
Defined.

(** The paths read by [hdrp --metallic tex/metal.png --smoothness
    tex/smooth.png] decode. *)
Lemma metal_smooth_decode p :
  p ∈ read_paths (Examples.with_metal Hdrp (Some "tex/smooth.png") "out/mask.png") ->
  exists img, ImageFile.open Examples.disk p = Ok img.
Proof.
  intros Hp. apply list_elem_of_In in Hp. cbn in Hp.
  destruct Hp as [<-|[<-|[]]]; eexists; vm_compute; reflexivity.
Defined.

Lemma out_not_supplied :
  out (Examples.with_metal Hdrp (Some "tex/smooth.png") "out/mask.png")
  ∉ supplied_paths (Examples.with_metal Hdrp (Some "tex/smooth.png") "out/mask.png").
Proof.
  intros Hp. apply list_elem_of_In in Hp. cbn in Hp.
  destruct Hp as [Hp|[Hp|[]]]; discriminate Hp.
Defined.

(** X8 at that command line. *)
Lemma run_composes_when_inputs_decode_witness :
  exists out_img,
    packed_image Examples.disk
      (Examples.with_metal Hdrp (Some "tex/smooth.png") "out/mask.png") = Ok out_img /\
    Image.mode out_img = "RGBA" /\ Image.valid out_img /\
    0 < Image.width out_img /\ 0 < Image.height out_img /\
    main (Examples.with_metal Hdrp (Some "tex/smooth.png") "out/mask.png") Examples.disk
    = (_ <- save_png out_img "out/mask.png" ;; ret 0) Examples.disk.
Proof.
  apply (run_composes_when_inputs_decode Examples.disk
           (Examples.with_metal Hdrp (Some "tex/smooth.png") "out/mask.png")).
  exact metal_smooth_decode.
Defined.

(** X9 at [save_png(img, "out/mask.png")]. *)
Lemma save_png_frame_witness :
  (forall q,
      plain_path q = true -> q <> "out/mask.png" ->
      dirs_added Examples.disk
        (snd (save_png (Examples.gray1 7) "out/mask.png" Examples.disk)) q)
  /\ (forall e,
        ImageFile.png_mode (Image.mode (Examples.gray1 7)) = true ->
        fst (save_png (Examples.gray1 7) "out/mask.png" Examples.disk) = Raise e ->
        forall q,
          dirs_added Examples.disk
            (snd (save_png (Examples.gray1 7) "out/mask.png" Examples.disk)) q).
Proof.
  apply (save_png_frame (Examples.gray1 7) "out/mask.png" Examples.disk).
  vm_compute. reflexivity.
Defined.

(** X10 at [hdrp --metallic tex/metal.png --smoothness tex/smooth.png
    --out out/mask.png]. *)
Lemma run_frame_witness :
  (forall q,
      plain_path q = true ->
      q <> out (Examples.with_metal Hdrp (Some "tex/smooth.png") "out/mask.png") ->
      dirs_added Examples.disk
        (snd (main (Examples.with_metal Hdrp (Some "tex/smooth.png") "out/mask.png")
                Examples.disk)) q)
  /\ (forall e,
        fst (main (Examples.with_metal Hdrp (Some "tex/smooth.png") "out/mask.png")
               Examples.disk) = Raise e ->
        forall q,
          dirs_added Examples.disk
            (snd (main (Examples.with_metal Hdrp (Some "tex/smooth.png") "out/mask.png")
                    Examples.disk)) q).
Proof.
  apply (run_frame (Examples.with_metal Hdrp (Some "tex/smooth.png") "out/mask.png")
           Examples.disk).
  vm_compute. reflexivity.
Defined.

(** X11 at [save_png(img, "out/mask.png")] with no directory [out]. *)
Lemma save_png_writes_witness :
  save_png (Examples.gray1 7) "out/mask.png" Examples.disk
  = (Ok tt,
     <["out/mask.png" := OS.File (OS.ImageData (Examples.gray1 7))]>
       (if OS.exists_ Examples.disk (OS.dirname "out/mask.png") then Examples.disk
        else <[OS.dirname "out/mask.png" := OS.Dir]> Examples.disk)).
Proof.
  apply (save_png_writes (Examples.gray1 7) "out/mask.png" Examples.disk).
  - vm_compute. reflexivity.
  - vm_compute. discriminate.
  - vm_compute. reflexivity.
  - vm_compute. reflexivity.
  - vm_compute. reflexivity.
  - left. vm_compute. reflexivity.
  - vm_compute. reflexivity.
Defined.

(** X12 at [hdrp --metallic tex/metal.png --smoothness tex/smooth.png
    --out out/mask.png]. *)
Lemma run_succeeds_witness :
  exists out_img,
    packed_image Examples.disk
      (Examples.with_metal Hdrp (Some "tex/smooth.png") "out/mask.png") = Ok out_img /\
    determine_target_size Examples.disk
      (candidate_paths (Examples.with_metal Hdrp (Some "tex/smooth.png") "out/mask.png"))
    = Ok (Image.size out_img) /\
    exit_status
      (fst (main (Examples.with_metal Hdrp (Some "tex/smooth.png") "out/mask.png")
              Examples.disk)) = 0 /\
    snd (main (Examples.with_metal Hdrp (Some "tex/smooth.png") "out/mask.png")
           Examples.disk)
    = <["out/mask.png" := OS.File (OS.ImageData out_img)]>
        (if OS.exists_ Examples.disk (OS.dirname "out/mask.png") then Examples.disk
         else <[OS.dirname "out/mask.png" := OS.Dir]> Examples.disk).
Proof.
  apply (run_succeeds (Examples.with_metal Hdrp (Some "tex/smooth.png") "out/mask.png")
           Examples.disk).
  - vm_compute. reflexivity.
  - exact metal_smooth_decode.
  - vm_compute. discriminate.
  - vm_compute. reflexivity.
  - vm_compute. reflexivity.
  - vm_compute. reflexivity.
  - left. vm_compute. reflexivity.
Defined.

(** X13 at that command line. *)
Lemma rerun_same_image_witness :
  packed_image
    (snd (main (Examples.with_metal Hdrp (Some "tex/smooth.png") "out/mask.png")
            Examples.disk))
    (Examples.with_metal Hdrp (Some "tex/smooth.png") "out/mask.png")
  = packed_image Examples.disk
      (Examples.with_metal Hdrp (Some "tex/smooth.png") "out/mask.png").
Proof.
  apply (rerun_same_image
           (Examples.with_metal Hdrp (Some "tex/smooth.png") "out/mask.png")
           Examples.disk).
  - vm_compute. reflexivity.
  - exact out_not_supplied.
Defined.

(** X14 at that command line. *)
Lemma rerun_idempotent_witness :
  fst (main (Examples.with_metal Hdrp (Some "tex/smooth.png") "out/mask.png")
         Examples.disk) = Ok 0 /\
  main (Examples.with_metal Hdrp (Some "tex/smooth.png") "out/mask.png")
    (snd (main (Examples.with_metal Hdrp (Some "tex/smooth.png") "out/mask.png")
            Examples.disk))
  = (Ok 0,
     snd (main (Examples.with_metal Hdrp (Some "tex/smooth.png") "out/mask.png")
            Examples.disk)).
Proof.
  apply (rerun_idempotent
           (Examples.with_metal Hdrp (Some "tex/smooth.png") "out/mask.png")
           Examples.disk).
  - vm_compute. reflexivity.
  - exact metal_smooth_decode.
  - vm_compute. discriminate.
  - vm_compute. reflexivity.
  - vm_compute. reflexivity.
  - vm_compute. reflexivity.
  - left. vm_compute. reflexivity.
  - exact out_not_supplied.
Defined.

(** The summary of [urp-ra --metallic tex/metal.png --roughness
    tex/rough.png --invert-roughness --out out/mask.png], the default
    smoothness printed as [0.5]. *)
Example inverted_roughness_summary :
  fst (main_print (fun _ => "0.5")
         {| mode := UrpRa; metallic := Some "tex/metal.png"; occlusion := None;
            height := None; detail := None; smoothness := None;
            roughness := Some "tex/rough.png"; invert_roughness := true;
            default_smoothness := 0.5%float; out := "out/mask.png" |}
         Examples.disk)
  = Ok (0, ["Mode: urp-ra";
            "Resolution: 2x1";
            "Output: out/mask.png";
            "Channel mapping:";
            "  - R (Metallic): tex/metal.png";
            "  - G (ignored): const 0";
            "  - B (ignored): const 0";
            "  - A (Smoothness): invert(tex/rough.png)"]).
Proof. vm_compute. reflexivity. Qed.

(** X15 at [urp-ra --metallic tex/metal.png --out out/mask.png]. *)
Lemma summary_after_write_witness :
  0 = 0 /\
  main (Examples.with_metal UrpRa None "out/mask.png") Examples.disk
  = (Ok 0, snd (main (Examples.with_metal UrpRa None "out/mask.png") Examples.disk)) /\
  exists out_img entries,
    snd (main (Examples.with_metal UrpRa None "out/mask.png") Examples.disk)
      !! out (Examples.with_metal UrpRa None "out/mask.png")
    = Some (OS.File (OS.ImageData out_img)) /\
    Image.mode out_img = "RGBA" /\
    length entries = 4%nat /\
    ["Mode: urp-ra"; "Resolution: 2x1"; "Output: out/mask.png"; "Channel mapping:";
     "  - R (Metallic): tex/metal.png"; "  - G (ignored): const 0";
     "  - B (ignored): const 0"; "  - A (Smoothness): const 0.5"]
    = ("Mode: " ++ mode_name (mode (Examples.with_metal UrpRa None "out/mask.png")))
      :: ("Resolution: "
          ++ (pretty (Image.width out_img) ++ "x" ++ pretty (Image.height out_img)))
      :: ("Output: " ++ out (Examples.with_metal UrpRa None "out/mask.png"))
      :: "Channel mapping:"
      :: entries.
Proof.
  apply (summary_after_write (fun _ => "0.5")
           (Examples.with_metal UrpRa None "out/mask.png") Examples.disk).
  vm_compute. reflexivity.
Defined.

(** X16 at [urp-ra --metallic tex/metal.png --out out/mask.png]. *)
Lemma summary_names_sources_witness :
  drop 4
    ["Mode: urp-ra"; "Resolution: 2x1"; "Output: out/mask.png"; "Channel mapping:";
     "  - R (Metallic): tex/metal.png"; "  - G (ignored): const 0";
     "  - B (ignored): const 0"; "  - A (Smoothness): const 0.5"]
  = ["  - R (Metallic): " ++ channel_label (Some "tex/metal.png") "const 0";
     "  - G (ignored): const 0";
     "  - B (ignored): const 0";
     "  - A (Smoothness): "
       ++ smoothness_label (fun _ => "0.5")
            (Examples.with_metal UrpRa None "out/mask.png")].
Proof.
  apply (summary_names_sources (fun _ => "0.5")
           (Examples.with_metal UrpRa None "out/mask.png") Examples.disk
           (snd (main (Examples.with_metal UrpRa None "out/mask.png") Examples.disk)) 0).
  vm_compute. reflexivity.
Defined.

(** X17 at [urp-ra --metallic tex/metal.png --smoothness tex/smooth.png]
    with the default smoothness replaced by NaN. *)
Lemma default_smoothness_unused_witness :
  packed_image Examples.disk
    (with_default_smoothness
       (Examples.with_metal UrpRa (Some "tex/smooth.png") "out/mask.png") nan)
  = packed_image Examples.disk
      (Examples.with_metal UrpRa (Some "tex/smooth.png") "out/mask.png").
Proof.
  apply (default_smoothness_unused Examples.disk
           (Examples.with_metal UrpRa (Some "tex/smooth.png") "out/mask.png") nan).
  vm_compute. discriminate.
Defined.

(** X18 at a two-band image of one pixel, which the reference
    conversion turns into the single band [[9]]. *)
Lemma invert_l_any_mode_witness :
  Image.mode (invert_l (Image.mk "LA" (1, 1) [[9]; [255]])) = "L" /\
  Image.size (invert_l (Image.mk "LA" (1, 1) [[9]; [255]])) = (1, 1) /\
  Image.valid (invert_l (Image.mk "LA" (1, 1) [[9]; [255]])) /\
  Image.bands (invert_l (Image.mk "LA" (1, 1) [[9]; [255]]))
  = map (map (fun v => 255 - v))
      (Image.bands (ensure_uint8 (Image.mk "LA" (1, 1) [[9]; [255]]))) /\
  invert_l (invert_l (Image.mk "LA" (1, 1) [[9]; [255]]))
  = ensure_uint8 (Image.mk "LA" (1, 1) [[9]; [255]]).
Proof.
  apply (invert_l_any_mode (Image.mk "LA" (1, 1) [[9]; [255]])).
  apply validb_valid. vm_compute. reflexivity.
Defined.

(** Plain paths, and spellings that are not. *)
Example plain_path_examples :
  plain_path "out/mask.png" = true /\
  plain_path "mask.png" = true /\
  plain_path "tex//metal.png" = false /\
  plain_path "./tex/metal.png" = false /\
  plain_path "tex/../tex/metal.png" = false /\
  plain_path "/tex/metal.png" = false /\
  plain_path "tex/" = false /\
  plain_path "" = false.
Proof. repeat split; reflexivity. Qed.
